(** * Verification of the ridesharing graph engine

    Shallow embedding of the algorithm modules of the ridesharing
    visualizer: the Hungarian (Munkres) assignment solver
    ([src/algorithms/hungarian.ts]), the union-find and Kruskal MST solver
    ([src/algorithms/kruskal.ts]), Dijkstra's shortest paths
    ([src/algorithms/dijkstra.ts]) and the cost-matrix helpers
    ([src/utils/graphUtils.ts]).

    JavaScript numbers are modelled exactly: a finite number is a rational
    ([Q]); [Infinity] and [NaN] (also standing for [undefined] read from a
    missing array cell or object key) are separate constructors. *)

From Stdlib Require Import QArith Lia Classical_Prop.
From stdpp Require Import base list gmap strings relations sorting pretty.

(* ------------------------------------------------------------------ *)
(** ** JavaScript numbers *)

Inductive num := Fin (q : Q) | Inf | NaN.

(** [isFinite(x)] *)
Definition isFinite (x : num) : bool :=
  match x with Fin _ => true | _ => false end.

(** [x === 0] *)
Definition is_zero (x : num) : bool :=
  match x with Fin q => Qeq_bool q 0 | _ => false end.

(** [x + q] and [x - q] for a finite [q]: the only arithmetic the solver does
    on possibly infinite cells. *)
Definition num_add_q (x : num) (q : Q) : num :=
  match x with Fin a => Fin (a + q) | Inf => Inf | NaN => NaN end.
Definition num_sub_q (x : num) (q : Q) : num :=
  match x with Fin a => Fin (a - q) | Inf => Inf | NaN => NaN end.

(** [Math.min(a, b)] on two finite numbers. *)
Definition qmin (a b : Q) : Q := if Qle_bool a b then a else b.

(** [Math.min(x, y)] *)
Definition num_min (x y : num) : num :=
  match x, y with
  | NaN, _ | _, NaN => NaN
  | Inf, y => y
  | x, Inf => x
  | Fin a, Fin b => Fin (qmin a b)
  end.

(** [Math.min(...xs.filter(isFinite))]: [Infinity] for an empty list. *)
Definition min_finite (xs : list num) : num :=
  fold_left num_min (List.filter isFinite xs) Inf.

(* ------------------------------------------------------------------ *)
(** ** Matrices as arrays of arrays *)

(** [m[i][j]]; reading outside the array yields [undefined], here [NaN]. *)
Definition mget {A} (d : A) (m : list (list A)) (i j : nat) : A :=
  nth j (nth i m []) d.

(** [m[i][j] = v] inside the bounds of the array. *)
Definition mset {A} (m : list (list A)) (i j : nat) (v : A) : list (list A) :=
  <[i := <[j := v]> (nth i m [])]> m.

(** [Array.prototype.indexOf]: [None] stands for [-1]. *)
Fixpoint index_of (v : nat) (l : list nat) : option nat :=
  match l with
  | [] => None
  | x :: l' => if x =? v then Some 0 else option_map S (index_of v l')
  end.

(** First index of [0..len) satisfying [f], as a [for] loop with an early
    [return]. *)
Fixpoint first_some {A B} (f : A -> option B) (l : list A) : option B :=
  match l with
  | [] => None
  | x :: l' => match f x with Some b => Some b | None => first_some f l' end
  end.

Definition count_true (l : list bool) : nat := length (List.filter (fun b => b) l).

(* ------------------------------------------------------------------ *)
(** ** The Hungarian solver ([hungarian.ts]) *)

Module Hungarian.

Record Assignment := mkAssignment { driver : nat; passenger : nat }.

Record HungarianOutput := mkOutput {
  assignments : list Assignment;
  totalCost : Q }.

(** A cell of an augmenting path, [{ row, col }]; [col] is a JavaScript
    number since [findPrimeInRow] may return [-1]. *)
Record cell := mkCell { row : nat; col : Z }.

(** [costMatrix[0]?.length || 0] *)
Definition cols0 (cm : list (list Q)) : nat :=
  match cm with [] => 0 | r :: _ => length r end.

(** [costMatrix[i][j]]: [undefined] ([NaN]) outside a row. *)
Definition read (cm : list (list Q)) (i j : nat) : num :=
  match cm !! i with
  | Some r => match r !! j with Some q => Fin q | None => NaN end
  | None => NaN
  end.

(** Lines 20-25: an [n x n] matrix of [Infinity] into which the cost matrix
    is copied. *)
Definition pad (cm : list (list Q)) (n : nat) : list (list num) :=
  map (fun i => map (fun j =>
         if (i <? length cm) && (j <? cols0 cm) then read cm i j else Inf)
       (seq 0 n)) (seq 0 n).

(** Step 1, lines 28-35: subtract the finite row minimum from the finite
    entries of row [i]. *)
Definition reduce_row (r : list num) : list num :=
  match min_finite r with
  | Fin q => map (fun x => if isFinite x then num_sub_q x q else x) r
  | _ => r
  end.

Definition reduce_rows (n : nat) (mat : list (list num)) : list (list num) :=
  fold_left (fun mat i => <[i := reduce_row (nth i mat [])]> mat) (seq 0 n) mat.

(** Step 2, lines 38-46: the same on column [j]. *)
Definition reduce_col (mat : list (list num)) (j : nat) : list (list num) :=
  match min_finite (map (fun r => nth j r NaN) mat) with
  | Fin q =>
      map (fun r => let x := nth j r NaN in
                    if isFinite x then <[j := num_sub_q x q]> r else r) mat
  | _ => mat
  end.

Definition reduce_cols (n : nat) (mat : list (list num)) : list (list num) :=
  fold_left reduce_col (seq 0 n) mat.

(** Lines 54-62: greedy starring of independent zeros, in row-major order;
    the state is [(masks, rowCover, colCover)]. *)
Definition star_cell (mat : list (list num))
    (s : list (list nat) * list bool * list bool) (i j : nat)
    : list (list nat) * list bool * list bool :=
  let '(masks, rc, cc) := s in
  if is_zero (mget NaN mat i j) && negb (nth i rc false) && negb (nth j cc false)
  then (mset masks i j 1, <[i := true]> rc, <[j := true]> cc)
  else s.

Definition initial_stars (n : nat) (mat : list (list num)) : list (list nat) :=
  let '(masks, _, _) :=
    fold_left (fun s i => fold_left (fun s j => star_cell mat s i j) (seq 0 n) s)
      (seq 0 n) (repeat (repeat 0 n) n, repeat false n, repeat false n) in
  masks.

(** State of the step machine of lines 66-129. *)
Record HState := mkHState {
  mat : list (list num);
  masks : list (list nat);
  rowCover : list bool;
  colCover : list bool;
  pathStart : option (nat * nat);
  step : nat }.

(** [findUncoveredZero] *)
Definition findUncoveredZero (mat : list (list num)) (rc cc : list bool)
    : option (nat * nat) :=
  first_some (fun i =>
    if negb (nth i rc false) then
      first_some (fun j =>
        if is_zero (mget NaN mat i j) && negb (nth j cc false)
        then Some (i, j) else None) (seq 0 (length (nth i mat [])))
    else None) (seq 0 (length mat)).

(** [findStarInRow] *)
Definition findStarInRow (masks : list (list nat)) (r : nat) : option nat :=
  index_of 1 (nth r masks []).

(** [findStarInCol]; a negative column reads [undefined] in every row.
    (A path of the step machine never reaches column [-1]: every star row on
    it holds a prime, see [HungarianProofs.fap_loop_inv].) *)
Definition findStarInCol (masks : list (list nat)) (c : Z) : option nat :=
  if (c <? 0)%Z then None
  else first_some (fun i => if mget 0 masks i (Z.to_nat c) =? 1 then Some i else None)
         (seq 0 (length masks)).

(** [findPrimeInRow]: [-1] when the row holds no prime. *)
Definition findPrimeInRow (masks : list (list nat)) (r : nat) : Z :=
  match index_of 2 (nth r masks []) with Some j => Z.of_nat j | None => (-1)%Z end.

(** The [while (true)] loop of [findAugmentingPath]; [fuel] bounds its
    iterations and [None] means it has not returned within them. *)
Fixpoint fap_loop (fuel : nat) (masks : list (list nat)) (path : list cell)
    (currentCol : Z) : option (list cell) :=
  match fuel with
  | 0 => None
  | S f =>
      match findStarInCol masks currentCol with
      | None => Some path
      | Some starRow =>
          let primeCol := findPrimeInRow masks starRow in
          fap_loop f masks (path ++ [mkCell starRow currentCol; mkCell starRow primeCol])
            primeCol
      end
  end.

Definition findAugmentingPath (fuel : nat) (masks : list (list nat)) (start : cell)
    : option (list cell) :=
  fap_loop fuel masks [start] (col start).

(** [masks[row][col] = masks[row][col] === 1 ? 0 : 1].  Writing at column
    [-1] would create a non-index property; this does not happen on a path
    of the step machine (see [HungarianProofs.fap_loop_inv]), and the model
    leaves the masks unchanged there. *)
Definition flip_cell (masks : list (list nat)) (c : cell) : list (list nat) :=
  if (col c <? 0)%Z then masks
  else let j := Z.to_nat (col c) in
       mset masks (row c) j (if mget 0 masks (row c) j =? 1 then 0 else 1).

(** [findMinUncoveredValue] *)
Definition findMinUncoveredValue (mat : list (list num)) (rc cc : list bool) : num :=
  fold_left (fun mv i =>
    if negb (nth i rc false) then
      fold_left (fun mv j => if negb (nth j cc false) then num_min mv (mget NaN mat i j) else mv)
        (seq 0 (length (nth i mat []))) mv
    else mv) (seq 0 (length mat)) Inf.

(** One iteration of the [switch] of lines 68-128.  [None]: the call to
    [findAugmentingPath] did not return within [fuel] iterations, or
    [pathStart] is [null] in step 3 (a [TypeError]). *)
Definition hstep (fuel n : nat) (st : HState) : option HState :=
  match step st with
  | 1 =>
      let cc := imap (fun j _ => existsb (fun i => mget 0 (masks st) i j =? 1) (seq 0 n))
                  (colCover st) in
      Some {| mat := mat st; masks := masks st; rowCover := rowCover st;
              colCover := cc; pathStart := pathStart st;
              step := if count_true cc =? n then 0 else 2 |}
  | 2 =>
      match findUncoveredZero (mat st) (rowCover st) (colCover st) with
      | None =>
          Some {| mat := mat st; masks := masks st; rowCover := rowCover st;
                  colCover := colCover st; pathStart := pathStart st; step := 6 |}
      | Some (r, c) =>
          let ms := mset (masks st) r c 2 in
          match findStarInRow ms r with
          | Some sc =>
              Some {| mat := mat st; masks := ms;
                      rowCover := <[r := true]> (rowCover st);
                      colCover := <[sc := false]> (colCover st);
                      pathStart := pathStart st; step := 2 |}
          | None =>
              Some {| mat := mat st; masks := ms; rowCover := rowCover st;
                      colCover := colCover st; pathStart := Some (r, c); step := 3 |}
          end
      end
  | 3 =>
      match pathStart st with
      | None => None
      | Some (r, c) =>
          match findAugmentingPath fuel (masks st) (mkCell r (Z.of_nat c)) with
          | None => None
          | Some path =>
              let ms := fold_left flip_cell path (masks st) in
              let ms := map (map (fun v => if v =? 2 then 0 else v)) ms in
              Some {| mat := mat st; masks := ms;
                      rowCover := map (fun _ => false) (rowCover st);
                      colCover := map (fun _ => false) (colCover st);
                      pathStart := pathStart st; step := 1 |}
          end
      end
  | 6 =>
      match findMinUncoveredValue (mat st) (rowCover st) (colCover st) with
      | Fin mv =>
          let m' := imap (fun i r => imap (fun j x =>
                      let x := if nth i (rowCover st) false then num_add_q x mv else x in
                      if negb (nth j (colCover st) false) then num_sub_q x mv else x) r)
                      (mat st) in
          Some {| mat := m'; masks := masks st; rowCover := rowCover st;
                  colCover := colCover st; pathStart := pathStart st; step := 2 |}
      | _ =>
          Some {| mat := mat st; masks := masks st; rowCover := rowCover st;
                  colCover := colCover st; pathStart := pathStart st; step := 0 |}
      end
  | _ => Some st
  end.

(** [while (step !== 0)]; [fuel] bounds the number of iterations (and of
    each augmenting-path search). *)
Fixpoint run (fuel n : nat) (st : HState) : option HState :=
  match fuel with
  | 0 => None
  | S f =>
      if step st =? 0 then Some st
      else match hstep fuel n st with
           | Some st' => run f n st'
           | None => None
           end
  end.

Definition init_state (cm : list (list Q)) : HState :=
  let n := Nat.max (length cm) (cols0 cm) in
  let m0 := reduce_cols n (reduce_rows n (pad cm n)) in
  {| mat := m0; masks := initial_stars n m0;
     rowCover := repeat false n; colCover := repeat false n;
     pathStart := None; step := 1 |}.

(** Lines 131-140: the starred cells inside the original bounds, in
    row-major order, and the sum of their original costs.  Only starred
    cells are read, and a starred cell was a zero, so it lies inside its
    row. *)
Definition extract (cm : list (list Q)) (ms : list (list nat)) : HungarianOutput :=
  fold_left (fun acc i =>
    fold_left (fun acc j =>
      if mget 0 ms i j =? 1
      then mkOutput (assignments acc ++ [mkAssignment i j])
                    (totalCost acc + nth j (nth i cm []) 0)%Q
      else acc) (seq 0 (cols0 cm)) acc)
    (seq 0 (length cm)) (mkOutput [] 0%Q).

Definition hungarian (fuel : nat) (cm : list (list Q)) : option HungarianOutput :=
  let n := Nat.max (length cm) (cols0 cm) in
  match run fuel n (init_state cm) with
  | Some st => Some (extract cm (masks st))
  | None => None
  end.

End Hungarian.

(* ------------------------------------------------------------------ *)
(** ** Distances and cost matrices ([graphUtils.ts]) *)

Module Geometry.

(** The functions of [Math] used by the distance helpers.  They are left
    abstract: the development does not model floating-point
    transcendental functions, and every statement about them takes an
    instance. *)
Class JSMath := {
  Math_sqrt : Q -> Q;
  Math_sin : Q -> Q;
  Math_cos : Q -> Q;
  Math_atan2 : Q -> Q -> Q;
  Math_PI : Q }.

(** [interface Node] *)
Record Node := mkNode { id : string; lat : Q; lng : Q }.

Inductive Method := euclidean | haversine.

(** [BuildCostMatrixOptions]: both fields are optional. *)
Record BuildCostMatrixOptions := mkOptions {
  method : option Method;
  timePerKm : option Q }.

Section Distances.
Context `{JSMath}.
Local Open Scope Q_scope.

(** [haversineDistance] *)
Definition haversineDistance (lat1 lng1 lat2 lng2 : Q) : Q :=
  let R := 6371 in
  let dLat := (lat2 - lat1) * (Math_PI / 180) in
  let dLng := (lng2 - lng1) * (Math_PI / 180) in
  let a := Math_sin (dLat / 2) * Math_sin (dLat / 2) +
           Math_cos (lat1 * (Math_PI / 180)) * Math_cos (lat2 * (Math_PI / 180)) *
           Math_sin (dLng / 2) * Math_sin (dLng / 2) in
  let c := 2 * Math_atan2 (Math_sqrt a) (Math_sqrt (1 - a)) in
  R * c.

(** [euclideanDistance] *)
Definition euclideanDistance (lat1 lng1 lat2 lng2 : Q) : Q :=
  let deltaLat := lat2 - lat1 in
  let deltaLng := lng2 - lng1 in
  Math_sqrt (deltaLat * deltaLat + deltaLng * deltaLng).

(** [method === 'haversine' ? haversineDistance : euclideanDistance] *)
Definition distanceFunc (m : Method) : Q -> Q -> Q -> Q -> Q :=
  match m with haversine => haversineDistance | euclidean => euclideanDistance end.

(** [{ driverId, passengerId, cost }] *)
Record Pair := mkPair { driverId : string; passengerId : string; cost : Q }.

(** The result [{ matrix, pairs }] of [buildCostMatrix]. *)
Record CostMatrix := mkCostMatrix { matrix : list (list Q); pairs : list Pair }.

(** [buildCostMatrix]: the two nested [forEach] loops pushing onto [row],
    [matrix] and [pairs]. *)
Definition buildCostMatrix (drivers passengers : list Node)
    (options : BuildCostMatrixOptions) : CostMatrix :=
  let meth := default euclidean (method options) in
  let tpk := default 2 (timePerKm options) in
  let '(matrix, pairs) :=
    fold_left (fun '(matrix, pairs) driver =>
      let '(row, pairs) :=
        fold_left (fun '(row, pairs) passenger =>
          let distance := distanceFunc meth (lat driver) (lng driver)
                            (lat passenger) (lng passenger) in
          let cost := distance * tpk in
          (row ++ [cost], pairs ++ [mkPair (id driver) (id passenger) cost]))
          passengers ([], pairs) in
      (matrix ++ [row], pairs))
      drivers ([], []) in
  mkCostMatrix matrix pairs.

(** [drivers[i]] for an index inside the array. *)
Definition node_at (l : list Node) (i : nat) : Node :=
  nth i l (mkNode "" 0 0).

(** [sumNaiveAssignments]: driver [i] with passenger [i] for
    [i < min(drivers.length, passengers.length)], at two time units per
    distance unit. *)
Definition sumNaiveAssignments (drivers passengers : list Node)
    (meth : option Method) : Q :=
  let timePerKm := 2 in
  let df := distanceFunc (default euclidean meth) in
  let assignmentCount := Nat.min (length drivers) (length passengers) in
  fold_left (fun totalCost i =>
    let driver := node_at drivers i in
    let passenger := node_at passengers i in
    let distance := df (lat driver) (lng driver) (lat passenger) (lng passenger) in
    totalCost + distance * timePerKm) (seq 0 assignmentCount) 0.

End Distances.

End Geometry.

(* ------------------------------------------------------------------ *)
(** ** Dijkstra's shortest paths ([dijkstra.ts]) *)

Module Dijkstra.

(** [{ neighborId, weight }] *)
Record DEdge := mkDEdge { neighborId : string; weight : Q }.

(** A JavaScript object [{ [nodeId: string]: Edge[] }]. *)
Definition Graph := gmap string (list DEdge).

Record DijkstraOutput := mkDOut {
  distances : gmap string num;
  predecessors : gmap string (option string) }.

(** [a < b] on JavaScript numbers ([undefined] and [NaN] compare false). *)
Definition num_lt (x y : num) : bool :=
  match x, y with
  | Fin a, Fin b => negb (Qle_bool b a)
  | Fin _, Inf => true
  | _, _ => false
  end.

(** [a + w] for a finite weight [w]. *)
Definition num_plus (x : num) (w : Q) : num := num_add_q x w.

(** A priority-queue entry [{ nodeId, distance }]. *)
Record QEntry := mkQEntry { qnode : string; qdist : num }.

(** [Array.prototype.sort] with comparator [a.distance - b.distance]: a
    stable sort, here insertion sort (an element goes after every element
    that does not compare greater). *)
Fixpoint insert_entry (e : QEntry) (l : list QEntry) : list QEntry :=
  match l with
  | [] => [e]
  | e' :: l' => if num_lt (qdist e) (qdist e') then e :: e' :: l'
                else e' :: insert_entry e l'
  end.

Definition sort_queue (l : list QEntry) : list QEntry :=
  fold_right insert_entry [] (rev l).

Record DState := mkDState {
  dist : gmap string num;
  pred : gmap string (option string);
  visited : gset string;
  queue : list QEntry }.

(** Relaxation of the out-edges of [cur] (lines 47-54). *)
Definition relax (cur : string) (st : DState) (e : DEdge) : DState :=
  let newDistance := num_plus (default NaN (dist st !! cur)) (weight e) in
  if num_lt newDistance (default NaN (dist st !! neighborId e)) then
    {| dist := <[neighborId e := newDistance]> (dist st);
       pred := <[neighborId e := Some cur]> (pred st);
       visited := visited st;
       queue := queue st ++ [mkQEntry (neighborId e) newDistance] |}
  else st.

(** One iteration of the [while] loop (lines 33-55). *)
Definition dstep (g : Graph) (st : DState) : DState :=
  match sort_queue (queue st) with
  | [] => st
  | e :: rest =>
      let cur := qnode e in
      let st := {| dist := dist st; pred := pred st; visited := visited st;
                   queue := rest |} in
      if decide (cur ∈ visited st) then st
      else
        let st := {| dist := dist st; pred := pred st;
                     visited := {[cur]} ∪ visited st; queue := queue st |} in
        match g !! cur with
        | None => st
        | Some adj => fold_left (relax cur) adj st
        end
  end.

(** [while (priorityQueue.length > 0)], with at most [fuel] iterations. *)
Fixpoint dloop (fuel : nat) (g : Graph) (st : DState) : option DState :=
  match fuel with
  | 0 => None
  | S f => match queue st with
           | [] => Some st
           | _ => dloop f g (dstep g st)
           end
  end.

Definition dijkstra (fuel : nat) (g : Graph) (startNode : string)
    : option DijkstraOutput :=
  let st0 := {| dist := <[startNode := Fin 0]> ((fun _ => Inf) <$> g);
                pred := (fun _ => None) <$> g;
                visited := ∅;
                queue := [mkQEntry startNode (Fin 0)] |} in
  match dloop fuel g st0 with
  | Some st => Some (mkDOut (dist st) (pred st))
  | None => None
  end.

End Dijkstra.

(* ------------------------------------------------------------------ *)
(** ** Dijkstra: proofs *)

Module DijkstraProofs.
Import Dijkstra.

Lemma num_lt_defined (x : num) (o : option num) :
  num_lt x (default NaN o) = true -> is_Some o.
Proof. destruct o as [v|]; simpl; [eauto | destruct x; discriminate]. Qed.

Lemma insert_entry_elem (e x : QEntry) (l : list QEntry) :
  x ∈ insert_entry e l -> x = e \/ x ∈ l.
Proof.
  induction l as [|e' l IH]; simpl.
  - rewrite list_elem_of_singleton. auto.
  - destruct (num_lt (qdist e) (qdist e')); rewrite !elem_of_cons.
    + tauto.
    + intros [->|H]; [right; left; done|]. destruct (IH H); [left|right; right]; done.
Qed.

Lemma sort_queue_elem (x : QEntry) (l : list QEntry) :
  x ∈ sort_queue l -> x ∈ l.
Proof.
  unfold sort_queue. intros H.
  cut (x ∈ rev l); [rewrite !list_elem_of_In, <- in_rev; done|].
  revert H. generalize (rev l) as r. clear l.
  induction r as [|e r IH]; simpl; [done|].
  intros H. apply insert_entry_elem in H as [->|H];
    rewrite elem_of_cons; auto.
Qed.

Lemma relax_dom (cur : string) (st : DState) (e : DEdge) :
  dom (dist st) ⊆ dom (pred st) ->
  dom (dist (relax cur st e)) = dom (dist st) /\
  dom (pred (relax cur st e)) = dom (pred st).
Proof.
  intros Hsub. unfold relax.
  destruct (num_lt _ _) eqn:Hlt; simpl; [|done].
  apply num_lt_defined, elem_of_dom in Hlt.
  rewrite !dom_insert_L. split; set_solver.
Qed.

Lemma fold_relax_dom (cur : string) (adj : list DEdge) (st : DState) :
  dom (dist st) ⊆ dom (pred st) ->
  dom (dist (fold_left (relax cur) adj st)) = dom (dist st) /\
  dom (pred (fold_left (relax cur) adj st)) = dom (pred st).
Proof.
  revert st. induction adj as [|e adj IH]; intros st Hsub; simpl; [done|].
  destruct (relax_dom cur st e Hsub) as [H1 H2].
  destruct (IH (relax cur st e)) as [H3 H4]; [rewrite H1, H2; done|].
  rewrite H3, H4. done.
Qed.

(** The loop invariant: the key sets never change, and a source that is not
    a key of the graph is the only node ever queued. *)
Definition keys_inv (g : Graph) (s : string) (st : DState) : Prop :=
  dom (dist st) = dom g ∪ {[s]} /\ dom (pred st) = dom g /\
  (s ∉ dom g -> forall e, e ∈ queue st -> qnode e = s).

Lemma dstep_keys (g : Graph) (s : string) (st : DState) :
  keys_inv g s st -> keys_inv g s (dstep g st).
Proof.
  intros (Hd & Hp & Hq). unfold dstep.
  destruct (sort_queue (queue st)) as [|e rest] eqn:Hs; [split; auto|].
  assert (Hrest : forall x, x ∈ rest -> x ∈ queue st).
  { intros x Hx. apply sort_queue_elem. rewrite Hs. by apply elem_of_cons; right. }
  assert (He : e ∈ queue st).
  { apply sort_queue_elem. rewrite Hs. by apply elem_of_cons; left. }
  simpl. destruct (decide (qnode e ∈ visited st)).
  { split; [done|split; [done|]]. simpl. intros Hn x Hx. apply Hq; auto. }
  destruct (g !! qnode e) as [adj|] eqn:Hg.
  2:{ split; [done|split; [done|]]. simpl. intros Hn x Hx. apply Hq; auto. }
  destruct (decide (s ∈ dom g)) as [Hs_in|Hs_out].
  - set (st1 := {| dist := dist st; pred := pred st;
                   visited := {[qnode e]} ∪ visited st; queue := rest |}).
    destruct (fold_relax_dom (qnode e) adj st1) as [H1 H2].
    { simpl. rewrite Hd, Hp. set_solver. }
    split; [rewrite H1; done|]. split; [rewrite H2; done|]. done.
  - exfalso. rewrite (Hq Hs_out e He) in Hg. apply Hs_out, elem_of_dom. eauto.
Qed.

Lemma dloop_keys (fuel : nat) (g : Graph) (s : string) (st st' : DState) :
  keys_inv g s st -> dloop fuel g st = Some st' -> keys_inv g s st'.
Proof.
  revert st. induction fuel as [|f IH]; intros st Hinv; simpl; [discriminate|].
  destruct (queue st); [intros [= <-]; done|].
  apply IH. by apply dstep_keys.
Qed.


(** C9: the key set of [distances] is exactly the keys of the adjacency map
    plus the source, and that of [predecessors] exactly the keys of the
    adjacency map; so an id that is only a [neighborId] (not a key), other
    than the source, never gets a distance or a predecessor. *)
Theorem dijkstra_key_sets (fuel : nat) (g : Graph) (s : string) (o : DijkstraOutput) :
  dijkstra fuel g s = Some o ->
  dom (distances o) = dom g ∪ {[s]} /\
  dom (predecessors o) = dom g /\
  (forall x, x ∉ dom g -> x <> s ->
     distances o !! x = None /\ predecessors o !! x = None).
Proof.
  unfold dijkstra.
  destruct (dloop _ _ _) as [st|] eqn:Hrun; [|discriminate].
  intros [= <-]. simpl.
  eapply dloop_keys in Hrun as (Hd & Hp & _).
  - split; [done|split; [done|]].
    intros x Hx Hxs. rewrite <- !not_elem_of_dom, Hd, Hp. set_solver.
  - split; [|split]; simpl.
    + rewrite dom_insert_L, dom_fmap_L. set_solver.
    + by rewrite dom_fmap_L.
    + intros Hn e He. apply list_elem_of_singleton in He as ->. done.
Qed.

(** A graph in which [D] is reachable from [A] but is not a key. *)
Definition diamond : Graph :=
  {[ "A"%string := [mkDEdge "B" 5; mkDEdge "C" 1];
     "B"%string := [];
     "C"%string := [mkDEdge "B" 1; mkDEdge "D" 2] ]}.

Lemma dijkstra_key_sets_witness :
  exists o, dijkstra 20 diamond "A" = Some o /\
    dom (distances o) = dom diamond ∪ {[ "A"%string ]} /\
    dom (predecessors o) = dom diamond /\
    distances o !! "D"%string = None.
Proof.
  eexists. split; [vm_compute; reflexivity|].
  destruct (dijkstra_key_sets 20 diamond "A" _ ltac:(vm_compute; reflexivity))
    as (H1 & H2 & H3).
  split; [exact H1|]. split; [exact H2|].
  apply H3; vm_compute; [intros H; set_solver | discriminate].
Defined.

(** The graph of the spec's single-hop example, [{ A: [{ B, 5 }] }]. *)
Definition single_hop : Graph := {[ "A"%string := [mkDEdge "B" 5] ]}.

(** C4 (code bug): on [{ A: [{ B, 5 }] }] from [A] the result is
    [distances = { A: 0 }] and [predecessors = { A: null }]: [B] is
    reachable but gets no distance, where the spec expects [B: 5]. *)
Theorem dijkstra_single_hop_result :
  dijkstra 10 single_hop "A" =
    Some (mkDOut {[ "A"%string := Fin 0 ]} {[ "A"%string := None ]}) /\
  exists o, dijkstra 10 single_hop "A" = Some o /\ distances o !! "B"%string = None.
Proof.
  split; [vm_compute; reflexivity|].
  eexists; split; [vm_compute; reflexivity|]. vm_compute. reflexivity.
Qed.

End DijkstraProofs.

(* ------------------------------------------------------------------ *)
(** ** Union-find ([class UnionFind] of [kruskal.ts]) *)

Module UnionFind.

(** The two private objects [parent] and [rank]. *)
Record UF := mkUF {
  parent : gmap string string;
  rank : gmap string nat }.

(** [this.parent[x] = x; this.rank[x] = 0;] *)
Definition register (uf : UF) (x : string) : UF :=
  mkUF (<[x := x]> (parent uf)) (<[x := 0]> (rank uf)).

(** [constructor(nodes)] *)
Definition uf_new (nodes : list string) : UF :=
  fold_left register nodes (mkUF ∅ ∅).

(** [find(nodeId)], recursive with path compression; [fuel] bounds the
    recursion depth and [None] means it has not returned within it.  An id
    without a parent is registered as its own root and returned. *)
Fixpoint find (fuel : nat) (uf : UF) (x : string) : option (string * UF) :=
  match fuel with
  | 0 => None
  | S f =>
      match parent uf !! x with
      | None => Some (x, register uf x)
      | Some p =>
          if String.eqb p x then Some (x, uf)
          else match find f uf p with
               | Some (r, uf') => Some (r, mkUF (<[x := r]> (parent uf')) (rank uf'))
               | None => None
               end
      end
  end.

(** [union(nodeA, nodeB)], union by rank.  Both roots carry a rank (the
    constructor and [find] register the rank together with the parent), so
    the default [0] of [!!!] is never read. *)
Definition union (fuel : nat) (uf : UF) (a b : string) : option (bool * UF) :=
  match find fuel uf a with
  | None => None
  | Some (rootA, uf1) =>
      match find fuel uf1 b with
      | None => None
      | Some (rootB, uf2) =>
          if String.eqb rootA rootB then Some (false, uf2)
          else
            let rka := rank uf2 !!! rootA in
            let rkb := rank uf2 !!! rootB in
            if rkb <? rka then
              Some (true, mkUF (<[rootB := rootA]> (parent uf2)) (rank uf2))
            else if rka <? rkb then
              Some (true, mkUF (<[rootA := rootB]> (parent uf2)) (rank uf2))
            else
              Some (true, mkUF (<[rootB := rootA]> (parent uf2))
                               (<[rootA := S rka]> (rank uf2)))
      end
  end.

(** A sequence of calls on one union-find object. *)
Inductive op := OpFind (x : string) | OpUnion (a b : string).
Inductive result := Found (r : string) | United (b : bool).

Fixpoint exec (fuel : nat) (uf : UF) (ops : list op) : option (UF * list result) :=
  match ops with
  | [] => Some (uf, [])
  | OpFind x :: ops' =>
      match find fuel uf x with
      | Some (r, uf') =>
          match exec fuel uf' ops' with
          | Some (uf'', rs) => Some (uf'', Found r :: rs)
          | None => None
          end
      | None => None
      end
  | OpUnion a b :: ops' =>
      match union fuel uf a b with
      | Some (bb, uf') =>
          match exec fuel uf' ops' with
          | Some (uf'', rs) => Some (uf'', United bb :: rs)
          | None => None
          end
      | None => None
      end
  end.

(** The pairs passed to [union] by a sequence of calls. *)
Fixpoint unions (ops : list op) : list (string * string) :=
  match ops with
  | [] => []
  | OpFind _ :: ops' => unions ops'
  | OpUnion a b :: ops' => (a, b) :: unions ops'
  end.

End UnionFind.

(** Connectivity through a list of undirected pairs: the reflexive,
    symmetric and transitive closure. *)
Definition ledge {A} (E : list (A * A)) (x y : A) : Prop := (x, y) ∈ E.
Definition lconn {A} (E : list (A * A)) : relation A := rtsc (ledge E).

(* ------------------------------------------------------------------ *)
(** ** Kruskal's minimum spanning forest ([kruskal.ts]) *)

Module Kruskal.
Import UnionFind.

(** [{ u, v, weight }] *)
Record Edge := mkEdge { u : string; v : string; weight : Q }.

(** A JavaScript heap restricted to what [kruskal] touches: arrays of
    strings and arrays of edges, by location. *)
Record Heap := mkHeap {
  strArrays : gmap positive (list string);
  edgeArrays : gmap positive (list Edge) }.

Record KruskalOutput := mkKOut { mstEdges : positive; totalWeight : Q }.

(** [Array.prototype.sort] with comparator [a.weight - b.weight]: stable,
    here insertion sort (an edge goes after every edge that is not
    heavier). *)
Fixpoint insert_edge (e : Edge) (l : list Edge) : list Edge :=
  match l with
  | [] => [e]
  | e' :: l' => if negb (Qle_bool (weight e') (weight e)) then e :: e' :: l'
                else e' :: insert_edge e l'
  end.

Definition sort_edges (l : list Edge) : list Edge := fold_right insert_edge [] (rev l).

(** [new array] at a fresh location *)
Definition alloc (h : Heap) (l : list Edge) : positive * Heap :=
  let p := fresh (dom (edgeArrays h)) in
  (p, mkHeap (strArrays h) (<[p := l]> (edgeArrays h))).

(** The [for (const edge of sortedEdges)] loop of lines 69-75. *)
Fixpoint kloop (fuel : nat) (uf : UF) (h : Heap) (mst : positive) (total : Q)
    (es : list Edge) : option (Heap * Q) :=
  match es with
  | [] => Some (h, total)
  | e :: es' =>
      match union fuel uf (u e) (v e) with
      | None => None
      | Some (true, uf') =>
          kloop fuel uf' (mkHeap (strArrays h)
                           (<[mst := edgeArrays h !!! mst ++ [e]]> (edgeArrays h)))
                mst (total + weight e)%Q es'
      | Some (false, uf') => kloop fuel uf' h mst total es'
      end
  end.

(** [kruskal(nodes, edges)]: the arrays are given by location; [None] is a
    [TypeError] on a missing array, or a [find] that did not return. *)
Definition kruskal (fuel : nat) (h : Heap) (nodes edges : positive)
    : option (KruskalOutput * Heap) :=
  let '(mst, h) := alloc h [] in
  match edgeArrays h !! edges, strArrays h !! nodes with
  | Some es, Some ns =>
      let '(sorted, h) := alloc h es in
      let h := mkHeap (strArrays h)
                 (<[sorted := sort_edges (edgeArrays h !!! sorted)]> (edgeArrays h)) in
      match kloop fuel (uf_new ns) h mst 0%Q (edgeArrays h !!! sorted) with
      | Some (h, total) => Some (mkKOut mst total, h)
      | None => None
      end
  | _, _ => None
  end.

(** The undirected pairs of an edge list. *)
Definition pairs (es : list Edge) : list (string * string) := map (fun e => (u e, v e)) es.

Definition sum_weights (es : list Edge) : Q := fold_right (fun e acc => weight e + acc)%Q 0%Q es.

End Kruskal.
(** ** Connectivity through a list of pairs *)
Module ConnProofs.

Section Conn.
Context {A : Type}.
Implicit Types E : list (A * A).

Lemma lconn_refl E x : lconn E x x.
Proof. apply rtc_refl. Qed.

Lemma lconn_sym E x y : lconn E x y -> lconn E y x.
Proof. intros H. unfold lconn. by symmetry. Qed.

Lemma lconn_trans E x y z : lconn E x y -> lconn E y z -> lconn E x z.
Proof. unfold lconn. apply (transitivity (R:=rtc _)). Qed.

Lemma lconn_pair E x y : (x, y) ∈ E -> lconn E x y.
Proof. intros H. apply rtsc_lr. exact H. Qed.

Lemma lconn_incl E E' x y :
  (forall p, p ∈ E -> p ∈ E') -> lconn E x y -> lconn E' x y.
Proof.
  intros Hin. induction 1 as [|x z y [H|H] _ IH]; [apply rtc_refl| |].
  - eapply rtc_l; [left; apply Hin, H|exact IH].
  - eapply rtc_l; [right; apply Hin, H|exact IH].
Qed.

Lemma lconn_nil x y : lconn (@nil (A * A)) x y -> x = y.
Proof.
  induction 1 as [|x z y [H|H] _ IH]; [done| |]; by apply elem_of_nil in H.
Qed.

(** Adding the pair [(a, b)] joins the class of [a] with the class of [b]. *)
Lemma lconn_add E E' a b x y :
  (forall p, p ∈ E' <-> p = (a, b) \/ p ∈ E) ->
  lconn E' x y <->
  lconn E x y \/ (lconn E x a /\ lconn E y b) \/ (lconn E x b /\ lconn E y a).
Proof.
  intros HE. assert (Hab : lconn E' a b) by (apply lconn_pair, HE; auto).
  assert (Hinc : forall x y, lconn E x y -> lconn E' x y).
  { intros ??. apply lconn_incl. intros p ?. apply HE. auto. }
  split.
  - induction 1 as [x|x z y Hxz _ IH].
    + left. apply lconn_refl.
    + assert (Hxz' : lconn E x z \/ (x = a /\ z = b) \/ (x = b /\ z = a)).
      { destruct Hxz as [H|H]; apply HE in H as [H|H];
          try (injection H as -> ->); auto using lconn_pair, lconn_sym. }
      destruct Hxz' as [Hxz'|[[-> ->]|[-> ->]]];
        destruct IH as [IH|[[IH1 IH2]|[IH1 IH2]]];
        eauto 6 using lconn_refl, lconn_sym, lconn_trans.
  - intros [H|[[H1 H2]|[H1 H2]]]; [by apply Hinc| |].
    + eapply lconn_trans; [apply Hinc, H1|].
      eapply lconn_trans; [exact Hab|apply lconn_sym, Hinc, H2].
    + eapply lconn_trans; [apply Hinc, H1|].
      eapply lconn_trans; [apply lconn_sym, Hab|apply lconn_sym, Hinc, H2].
Qed.

End Conn.

End ConnProofs.

Module UnionFindProofs.
Import UnionFind.

(** [reaches p x r k]: following [parent] from [x] takes [k] steps to the
    root [r] (an id that is its own parent). *)
Inductive reaches (p : gmap string string) : string -> string -> nat -> Prop :=
| reaches_here x : p !! x = Some x -> reaches p x x 0
| reaches_next x y r k : p !! x = Some y -> y <> x -> reaches p y r k -> reaches p x r (S k).

(** The representative of an id: the root it reaches, or itself when it has
    no parent yet (the root [find] registers it as). *)
Definition urep (p : gmap string string) (x r : string) : Prop :=
  (exists k, reaches p x r k) \/ (p !! x = None /\ r = x).

Definition same (p : gmap string string) (x y : string) : Prop :=
  exists r, urep p x r /\ urep p y r.

(** Every registered id reaches a root in at most [B] steps. *)
Definition uf_wf (p : gmap string string) (B : nat) : Prop :=
  forall x y, p !! x = Some y -> exists r k, reaches p x r k /\ k <= B.

Lemma reaches_fun p x r1 r2 k1 k2 :
  reaches p x r1 k1 -> reaches p x r2 k2 -> r1 = r2 /\ k1 = k2.
Proof.
  intros H1. revert r2 k2.
  induction H1 as [x Hx | x y r k Hxy Hne H IH]; intros r2 k2 H2;
    inversion H2 as [x' Hx' | x' y' r' k' Hxy' Hne' H']; subst.
  - done.
  - congruence.
  - congruence.
  - assert (y' = y) as -> by congruence.
    destruct (IH _ _ H') as [-> ->]. done.
Qed.

Lemma reaches_root p x r k : reaches p x r k -> p !! r = Some r.
Proof. induction 1; done. Qed.

Lemma reaches_dom p x r k : reaches p x r k -> x ∈ dom p.
Proof. destruct 1; apply elem_of_dom; eauto. Qed.

Lemma urep_fun p x r1 r2 : urep p x r1 -> urep p x r2 -> r1 = r2.
Proof.
  intros [[k1 H1]|[H1 ->]] [[k2 H2]|[H2 ->]].
  - eapply reaches_fun; eauto.
  - apply reaches_dom, elem_of_dom in H1 as [? ?]; congruence.
  - apply reaches_dom, elem_of_dom in H2 as [? ?]; congruence.
  - done.
Qed.

Lemma uf_wf_total p B x : uf_wf p B -> exists r, urep p x r.
Proof.
  intros Hwf. destruct (p !! x) as [y|] eqn:Hx.
  - destruct (Hwf x y Hx) as (r & k & H & _). exists r; left; eauto.
  - exists x; right; auto.
Qed.

Lemma uf_wf_mono p B B' : B <= B' -> uf_wf p B -> uf_wf p B'.
Proof.
  intros Hle Hwf x y Hx. destruct (Hwf x y Hx) as (r & k & H & Hk).
  exists r, k. split; [done|lia].
Qed.

(** A representative map that extends a total one is equal to it. *)
Lemma urep_eq_of_incl p p' B :
  uf_wf p B -> (forall z r, urep p z r -> urep p' z r) ->
  forall z r, urep p' z r <-> urep p z r.
Proof.
  intros Hwf Hinc z r. split; [|apply Hinc].
  intros H'. destruct (uf_wf_total p B z Hwf) as [r0 H0].
  rewrite (urep_fun p' z r r0 H' (Hinc _ _ H0)). done.
Qed.

Lemma same_of_urep p p' :
  (forall z r, urep p' z r <-> urep p z r) -> forall x y, same p' x y <-> same p x y.
Proof.
  intros Heq x y. unfold same. setoid_rewrite Heq. done.
Qed.

Lemma urep_reaches p x r : x ∈ dom p -> urep p x r -> exists k, reaches p x r k.
Proof.
  intros Hd [H|[Hn ->]]; [done|]. apply elem_of_dom in Hd as [? ?]; congruence.
Qed.

(** Registering a fresh id keeps every existing path. *)
Lemma reaches_insert_fresh p x v z r k :
  p !! x = None -> reaches p z r k -> reaches (<[x:=v]> p) z r k.
Proof.
  intros Hx. induction 1 as [z Hz | z y r k Hzy Hne H IH].
  - constructor. rewrite lookup_insert_ne; [done|congruence].
  - econstructor; [|done|done]. rewrite lookup_insert_ne; [done|congruence].
Qed.

(** Path compression: pointing [x] straight at its root keeps every root
    and shortens no path. *)
Lemma reaches_redirect p x r kx z rz kz :
  reaches p x r kx -> r <> x -> reaches p z rz kz ->
  exists kz', kz' <= kz /\ reaches (<[x:=r]> p) z rz kz'.
Proof.
  intros Hx Hne Hz. induction Hz as [z Hz | z y rz k Hzy Hne' H IH].
  - exists 0. split; [lia|]. constructor.
    rewrite lookup_insert_ne; [done|]. intros ->.
    destruct (reaches_fun _ _ _ _ _ _ Hx (reaches_here _ _ Hz)). congruence.
  - destruct (decide (z = x)) as [->|Hzx].
    + assert (rz = r) as ->.
      { destruct (reaches_fun _ _ _ _ _ _ Hx (reaches_next _ _ _ _ _ Hzy Hne' H)). done. }
      exists 1. split; [lia|]. econstructor; [apply lookup_insert_eq|done|].
      constructor. rewrite lookup_insert_ne; [|done]. eapply reaches_root; eauto.
    + destruct IH as (k' & Hk' & H'). exists (S k'). split; [lia|].
      econstructor; [|done|done]. rewrite lookup_insert_ne; [done|congruence].
Qed.

(** Linking the root [r2] under the root [r1]. *)
Lemma reaches_link p r1 r2 z rz kz :
  p !! r1 = Some r1 -> p !! r2 = Some r2 -> r1 <> r2 -> reaches p z rz kz ->
  reaches (<[r2:=r1]> p) z (if decide (rz = r2) then r1 else rz)
          (if decide (rz = r2) then S kz else kz).
Proof.
  intros H1 H2 Hne. induction 1 as [z Hz | z y rz k Hzy Hne' H IH].
  - destruct (decide (z = r2)) as [->|Hz2].
    + econstructor; [apply lookup_insert_eq|done|].
      constructor. rewrite lookup_insert_ne; done.
    + constructor. rewrite lookup_insert_ne; [done|congruence].
  - assert (z <> r2) by (intros ->; congruence).
    destruct (decide (rz = r2));
      (econstructor; [rewrite lookup_insert_ne; [done|congruence]|done|exact IH]).
Qed.


Lemma find_spec f uf x r uf' B :
  uf_wf (parent uf) B -> find f uf x = Some (r, uf') ->
  urep (parent uf) x r /\
  (forall z r', urep (parent uf') z r' <-> urep (parent uf) z r') /\
  uf_wf (parent uf') B /\
  x ∈ dom (parent uf') /\ dom (parent uf) ⊆ dom (parent uf').
Proof.
  revert uf x r uf'. induction f as [|f IH]; intros uf x r uf' Hwf Hf; [done|].
  simpl in Hf. destruct (parent uf !! x) as [y|] eqn:Hx.
  - destruct (String.eqb_spec y x) as [->|Hyx].
    + injection Hf as <- <-. split; [left; exists 0; by constructor|].
      split; [done|]. split; [done|]. split; [apply elem_of_dom; eauto|done].
    + destruct (find f uf y) as [[r1 uf1]|] eqn:Hf1; [|done].
      injection Hf as -> <-. simpl.
      destruct (IH _ _ _ _ Hwf Hf1) as (Hy & Heq1 & Hwf1 & Hyd & Hdom1).
      destruct (Hwf x y Hx) as (r0 & k0 & Hr0 & HB).
      inversion Hr0 as [? Hxx | ? y' ? k0' Hxy' Hne' Hr0']; subst; [congruence|].
      assert (y' = y) as -> by congruence.
      assert (r0 = r) as -> by (eapply urep_fun; [left; eauto|exact Hy]).
      assert (Hxd : x ∈ dom (parent uf)) by (apply elem_of_dom; eauto).
      assert (Hrx : r <> x).
      { intros ->. pose proof (reaches_root _ _ _ _ Hr0). congruence. }
      destruct (urep_reaches (parent uf1) x r) as [kx Hkx].
      { set_solver. }
      { apply Heq1. left; eauto. }
      assert (Hinc : forall z rz, urep (parent uf1) z rz ->
                     urep (<[x:=r]> (parent uf1)) z rz).
      { intros z rz [[kz Hz]|[Hz ->]].
        - destruct (reaches_redirect _ _ _ _ _ _ _ Hkx Hrx Hz) as (? & _ & ?).
          left; eauto.
        - right. split; [|done]. rewrite lookup_insert_ne; [done|].
          intros ->. apply not_elem_of_dom in Hz. set_solver. }
      split; [left; eauto|]. split.
      { intros z r'. rewrite (urep_eq_of_incl _ _ B Hwf1 Hinc). apply Heq1. }
      split.
      { intros z w Hz. apply lookup_insert_Some in Hz as [[<- _]|[Hne Hz]].
        - exists r, 1. split; [|lia]. econstructor; [apply lookup_insert_eq|done|].
          constructor. rewrite lookup_insert_ne; [|done].
          eapply reaches_root; eauto.
        - destruct (Hwf1 z w Hz) as (rz & kz & Hrz & Hkz).
          destruct (reaches_redirect _ _ _ _ _ _ _ Hkx Hrx Hrz) as (kz' & ? & ?).
          exists rz, kz'. split; [done|lia]. }
      rewrite dom_insert_L. set_solver.
  - injection Hf as <- <-. unfold register; simpl.
    assert (Hinc : forall z rz, urep (parent uf) z rz ->
                   urep (<[x:=x]> (parent uf)) z rz).
    { intros z rz [[kz Hz]|[Hz ->]].
      - left. exists kz. by apply reaches_insert_fresh.
      - destruct (decide (z = x)) as [->|Hzx].
        + left. exists 0. constructor. apply lookup_insert_eq.
        + right. split; [|done]. rewrite lookup_insert_ne; done. }
    split; [right; done|]. split.
    { intros z r'. apply (urep_eq_of_incl _ _ B Hwf Hinc). }
    split.
    { intros z w Hz. apply lookup_insert_Some in Hz as [[<- _]|[Hne Hz]].
      - exists x, 0. split; [|lia]. constructor. apply lookup_insert_eq.
      - destruct (Hwf z w Hz) as (rz & kz & Hrz & Hkz).
        exists rz, kz. split; [|done]. by apply reaches_insert_fresh. }
    rewrite dom_insert_L. set_solver.
Qed.

Lemma find_total_aux uf x r k f :
  reaches (parent uf) x r k -> k < f -> exists r' uf', find f uf x = Some (r', uf').
Proof.
  intros H. revert f. induction H as [x Hx | x y r k Hxy Hne H IH]; intros f Hf.
  - destruct f as [|f]; [lia|]. simpl. rewrite Hx, String.eqb_refl. eauto.
  - destruct f as [|f]; [lia|]. simpl. rewrite Hxy.
    destruct (String.eqb_spec y x); [done|].
    destruct (IH f ltac:(lia)) as (r' & uf' & ->). eauto.
Qed.

(** [find] returns within a fuel above the depth bound. *)
Lemma find_total f uf x B :
  uf_wf (parent uf) B -> B < f -> exists r uf', find f uf x = Some (r, uf').
Proof.
  intros Hwf Hf. destruct (parent uf !! x) as [y|] eqn:Hx.
  - destruct (Hwf x y Hx) as (r & k & Hr & Hk). eapply find_total_aux; [exact Hr|lia].
  - destruct f as [|f]; [lia|]. simpl. rewrite Hx. eauto.
Qed.


Lemma same_reps p x y rx ry :
  urep p x rx -> urep p y ry -> (same p x y <-> rx = ry).
Proof.
  intros Hx Hy. split.
  - intros (r & Hx' & Hy'). rewrite (urep_fun _ _ _ _ Hx Hx'). eapply urep_fun; eauto.
  - intros <-. exists rx. done.
Qed.

(** Linking the root [r2] under the root [r1] merges exactly their two
    classes, and deepens paths by at most one. *)
Lemma same_link p B r1 r2 :
  uf_wf p B -> p !! r1 = Some r1 -> p !! r2 = Some r2 -> r1 <> r2 ->
  uf_wf (<[r2:=r1]> p) (S B) /\
  (forall x y rx ry, urep p x rx -> urep p y ry ->
     (same (<[r2:=r1]> p) x y <->
      rx = ry \/ (rx = r1 /\ ry = r2) \/ (rx = r2 /\ ry = r1))).
Proof.
  intros Hwf H1 H2 Hne.
  assert (Hinc : forall z rz, urep p z rz ->
            urep (<[r2:=r1]> p) z (if decide (rz = r2) then r1 else rz)).
  { intros z rz [[kz Hz]|[Hz ->]].
    - left. eexists. by apply reaches_link.
    - right. assert (z <> r2) by (intros ->; congruence).
      rewrite decide_False by done. rewrite lookup_insert_ne; done. }
  split.
  - intros z w Hz. assert (is_Some (p !! z)) as [w' Hz'].
    { destruct (decide (z = r2)) as [->|]; [eauto|].
      rewrite lookup_insert_ne in Hz by done. eauto. }
    destruct (Hwf z w' Hz') as (rz & kz & Hrz & Hkz).
    pose proof (reaches_link _ _ _ _ _ _ H1 H2 Hne Hrz).
    eexists _, _. split; [eassumption|]. destruct (decide (rz = r2)); lia.
  - intros x y rx ry Hx Hy.
    rewrite (same_reps _ _ _ _ _ (Hinc _ _ Hx) (Hinc _ _ Hy)).
    destruct (decide (rx = r2)), (decide (ry = r2)); subst; naive_solver.
Qed.

Lemma union_spec f uf a b bb uf' B :
  uf_wf (parent uf) B -> union f uf a b = Some (bb, uf') ->
  (bb = true <-> ~ same (parent uf) a b) /\ uf_wf (parent uf') (S B) /\
  (forall x y, same (parent uf') x y <->
     same (parent uf) x y \/ (same (parent uf) x a /\ same (parent uf) y b) \/
     (same (parent uf) x b /\ same (parent uf) y a)).
Proof.
  intros Hwf Hu. unfold union in Hu.
  destruct (find f uf a) as [[ra uf1]|] eqn:Hfa; [|done].
  destruct (find f uf1 b) as [[rb uf2]|] eqn:Hfb; [|done].
  destruct (find_spec _ _ _ _ _ _ Hwf Hfa) as (Ha & Heq1 & Hwf1 & Had1 & Hdom1).
  destruct (find_spec _ _ _ _ _ _ Hwf1 Hfb) as (Hb & Heq2 & Hwf2 & Hbd2 & Hdom2).
  assert (Heq : forall z r, urep (parent uf2) z r <-> urep (parent uf) z r).
  { intros z r. rewrite Heq2. apply Heq1. }
  apply Heq1 in Hb.
  assert (Hra : parent uf2 !! ra = Some ra).
  { destruct (urep_reaches (parent uf2) a ra) as [? ?]; [set_solver|by apply Heq|].
    eapply reaches_root; eauto. }
  assert (Hrb : parent uf2 !! rb = Some rb).
  { destruct (urep_reaches (parent uf2) b rb) as [? ?]; [set_solver|by apply Heq|].
    eapply reaches_root; eauto. }
  assert (Hreps : forall x y, exists rx ry, urep (parent uf) x rx /\ urep (parent uf) y ry)
    by (intros x y; destruct (uf_wf_total _ _ x Hwf), (uf_wf_total _ _ y Hwf); eauto).
  rewrite (same_reps _ _ _ _ _ Ha Hb).
  destruct (String.eqb_spec ra rb) as [<-|Hne].
  - injection Hu as <- <-. split; [naive_solver|]. split; [apply uf_wf_mono with B; [lia|done]|].
    intros x y. rewrite (same_of_urep _ _ Heq).
    destruct (Hreps x y) as (rx & ry & Hx & Hy).
    rewrite (same_reps _ _ _ _ _ Hx Hy), (same_reps _ _ _ _ _ Hx Ha),
      (same_reps _ _ _ _ _ Hy Hb), (same_reps _ _ _ _ _ Hx Hb),
      (same_reps _ _ _ _ _ Hy Ha). naive_solver.
  - assert (Hwf2' : uf_wf (parent uf2) B) by done.
    assert (Hgoal : forall r1 r2, parent uf2 !! r1 = Some r1 -> parent uf2 !! r2 = Some r2 ->
              r1 <> r2 -> (r1 = ra /\ r2 = rb) \/ (r1 = rb /\ r2 = ra) ->
              uf_wf (<[r2:=r1]> (parent uf2)) (S B) /\
              (forall x y, same (<[r2:=r1]> (parent uf2)) x y <->
                 same (parent uf) x y \/ (same (parent uf) x a /\ same (parent uf) y b) \/
                 (same (parent uf) x b /\ same (parent uf) y a))).
    { intros r1 r2 H1 H2 H12 Hr.
      destruct (same_link _ _ _ _ Hwf2' H1 H2 H12) as [Hw Hs]. split; [done|].
      intros x y. destruct (Hreps x y) as (rx & ry & Hx & Hy).
      rewrite (Hs x y rx ry) by (by apply Heq).
      rewrite (same_reps _ _ _ _ _ Hx Hy), (same_reps _ _ _ _ _ Hx Ha),
        (same_reps _ _ _ _ _ Hy Hb), (same_reps _ _ _ _ _ Hx Hb),
        (same_reps _ _ _ _ _ Hy Ha). naive_solver. }
    repeat case_match; injection Hu as <- <-; simpl;
      (split; [naive_solver|]);
      [apply (Hgoal ra rb)|apply (Hgoal rb ra)|apply (Hgoal ra rb)]; auto.
Qed.

Definition uf_inv (uf : UF) (U : list (string * string)) (B : nat) : Prop :=
  uf_wf (parent uf) B /\ forall x y, same (parent uf) x y <-> lconn U x y.

Lemma uf_new_roots nodes x y : parent (uf_new nodes) !! x = Some y -> y = x.
Proof.
  unfold uf_new.
  assert (Hgen : forall uf, (forall x y, parent uf !! x = Some y -> y = x) ->
            forall x y, parent (fold_left register nodes uf) !! x = Some y -> y = x).
  { induction nodes as [|n ns IH]; intros uf Huf; simpl; [done|].
    apply IH. intros x' y'. simpl. rewrite lookup_insert_Some.
    intros [[-> ->]|[_ H]]; eauto. }
  apply Hgen. intros ??. simpl. by rewrite lookup_empty.
Qed.

Lemma uf_new_inv nodes : uf_inv (uf_new nodes) [] 0.
Proof.
  assert (Hr : forall x, urep (parent (uf_new nodes)) x x).
  { intros x. destruct (parent (uf_new nodes) !! x) as [y|] eqn:Hx.
    - pose proof (uf_new_roots _ _ _ Hx) as ->. left. exists 0. by constructor.
    - by right. }
  split.
  - intros x y Hx. pose proof (uf_new_roots _ _ _ Hx) as ->.
    exists x, 0. split; [by constructor|lia].
  - intros x y. rewrite (same_reps _ _ _ _ _ (Hr x) (Hr y)). split.
    + intros ->. apply ConnProofs.lconn_refl.
    + apply ConnProofs.lconn_nil.
Qed.

Lemma union_inv f uf a b bb uf' U B :
  uf_inv uf U B -> union f uf a b = Some (bb, uf') ->
  (bb = true <-> ~ lconn U a b) /\ uf_inv uf' (U ++ [(a, b)]) (S B).
Proof.
  intros [Hwf Hs] Hu. destruct (union_spec _ _ _ _ _ _ _ Hwf Hu) as (Hbb & Hwf' & Hs').
  split; [by rewrite Hbb, Hs|]. split; [done|].
  intros x y. rewrite Hs', (ConnProofs.lconn_add U), !Hs; [naive_solver|].
  intros p. rewrite elem_of_app, list_elem_of_singleton. naive_solver.
Qed.

Lemma find_inv f uf x r uf' U B :
  uf_inv uf U B -> find f uf x = Some (r, uf') ->
  urep (parent uf) x r /\ uf_inv uf' U B /\
  (forall z r', urep (parent uf') z r' <-> urep (parent uf) z r').
Proof.
  intros [Hwf Hs] Hf. destruct (find_spec _ _ _ _ _ _ Hwf Hf) as (Hx & Heq & Hwf' & _).
  split; [done|]. split; [|done]. split; [done|].
  intros y z. rewrite (same_of_urep _ _ Heq). apply Hs.
Qed.

Lemma union_total f uf a b B :
  uf_wf (parent uf) B -> B < f -> exists bb uf', union f uf a b = Some (bb, uf').
Proof.
  intros Hwf Hf. unfold union.
  destruct (find_total f uf a B Hwf Hf) as (ra & uf1 & Ha). rewrite Ha.
  destruct (find_spec _ _ _ _ _ _ Hwf Ha) as (_ & _ & Hwf1 & _).
  destruct (find_total f uf1 b B Hwf1 Hf) as (rb & uf2 & Hb). rewrite Hb.
  repeat case_match; eauto.
Qed.

Lemma exec_inv f uf ops U B uf' rs :
  uf_inv uf U B -> exec f uf ops = Some (uf', rs) ->
  exists B', uf_inv uf' (U ++ unions ops) B'.
Proof.
  revert uf U B uf' rs. induction ops as [|[x|a b] ops IH]; intros uf U B uf' rs Hi He;
    simpl in He.
  - injection He as <- <-. exists B. by rewrite app_nil_r.
  - destruct (find f uf x) as [[r uf1]|] eqn:Hf; [|done].
    destruct (exec f uf1 ops) as [[uf2 rs']|] eqn:He'; [|done]. injection He as <- <-.
    destruct (find_inv _ _ _ _ _ _ _ Hi Hf) as (_ & Hi1 & _). eauto.
  - destruct (union f uf a b) as [[bb uf1]|] eqn:Hu; [|done].
    destruct (exec f uf1 ops) as [[uf2 rs']|] eqn:He'; [|done]. injection He as <- <-.
    destruct (union_inv _ _ _ _ _ _ _ _ Hi Hu) as (_ & Hi1).
    destruct (IH _ _ _ _ _ Hi1 He') as [B' HB']. exists B'.
    simpl. by rewrite <- app_assoc in HB'.
Qed.

Lemma exec_total f uf ops U B :
  uf_inv uf U B -> B + length ops < f -> exists uf' rs, exec f uf ops = Some (uf', rs).
Proof.
  revert uf U B. induction ops as [|[x|a b] ops IH]; intros uf U B Hi Hf; simpl in *.
  - eauto.
  - destruct (find_total f uf x B (proj1 Hi) ltac:(lia)) as (r & uf1 & Hfx). rewrite Hfx.
    destruct (find_inv _ _ _ _ _ _ _ Hi Hfx) as (_ & Hi1 & _).
    destruct (IH uf1 U B Hi1 ltac:(lia)) as (uf2 & rs & ->). eauto.
  - destruct (union_total f uf a b B (proj1 Hi) ltac:(lia)) as (bb & uf1 & Hu). rewrite Hu.
    destruct (union_inv _ _ _ _ _ _ _ _ Hi Hu) as (_ & Hi1).
    destruct (IH uf1 _ (S B) Hi1 ltac:(lia)) as (uf2 & rs & ->). eauto.
Qed.

(** C6: from the constructor, every sequence of [find] and [union] calls
    returns, and in the object it leaves: [find] returns; two successive
    [find] calls return the same root exactly when the ids are connected by
    the pairs passed to [union] so far (an id never registered is connected
    to itself only); [union a b] returns [true] exactly when [a] and [b] are
    not yet connected, so [union a a] returns [false]; and two successive
    [find] calls on one id return the same root. *)
Theorem union_find_components (nodes : list string) (ops : list op) :
  (exists fuel uf rs, exec fuel (uf_new nodes) ops = Some (uf, rs)) /\
  forall fuel uf rs, exec fuel (uf_new nodes) ops = Some (uf, rs) ->
    (forall x, exists f r uf', find f uf x = Some (r, uf')) /\
    (forall f a b ra uf1 rb uf2, find f uf a = Some (ra, uf1) -> find f uf1 b = Some (rb, uf2) ->
       (ra = rb <-> lconn (unions ops) a b)) /\
    (forall f a b bb uf', union f uf a b = Some (bb, uf') ->
       (bb = true <-> ~ lconn (unions ops) a b)) /\
    (forall f a bb uf', union f uf a a = Some (bb, uf') -> bb = false) /\
    (forall f x r1 uf1 r2 uf2, find f uf x = Some (r1, uf1) -> find f uf1 x = Some (r2, uf2) ->
       r1 = r2).
Proof.
  split.
  { destruct (exec_total (S (length ops)) (uf_new nodes) ops [] 0 (uf_new_inv nodes))
      as (uf & rs & He); [lia|]. eauto. }
  intros fuel uf rs He.
  destruct (exec_inv _ _ _ _ _ _ _ (uf_new_inv nodes) He) as [B Hi].
  simpl in Hi. split; [|split; [|split; [|split]]].
  - intros x. destruct (find_total (S B) uf x B (proj1 Hi)) as (r & uf' & ?); [lia|]. eauto.
  - intros f a b ra uf1 rb uf2 Ha Hb.
    destruct (find_inv _ _ _ _ _ _ _ Hi Ha) as (Hra & Hi1 & Heq1).
    destruct (find_inv _ _ _ _ _ _ _ Hi1 Hb) as (Hrb & _ & _).
    apply Heq1 in Hrb. rewrite <- (proj2 Hi). symmetry. by apply same_reps.
  - intros f a b bb uf' Hu. exact (proj1 (union_inv _ _ _ _ _ _ _ _ Hi Hu)).
  - intros f a bb uf' Hu. destruct (union_inv _ _ _ _ _ _ _ _ Hi Hu) as [Hbb _].
    destruct bb; [|done]. exfalso. apply Hbb; [done|]. apply ConnProofs.lconn_refl.
  - intros f x r1 uf1 r2 uf2 H1 H2.
    destruct (find_inv _ _ _ _ _ _ _ Hi H1) as (Hr1 & Hi1 & Heq1).
    destruct (find_inv _ _ _ _ _ _ _ Hi1 H2) as (Hr2 & _ & _).
    apply Heq1 in Hr2. eapply urep_fun; eauto.
Qed.

Definition uf_demo_ops : list op :=
  [OpUnion "a" "b"; OpUnion "b" "c"; OpFind "a"; OpUnion "a" "c"; OpFind "d"].

Lemma union_find_components_witness :
  exists uf rs, exec 3 (uf_new ["a"; "b"]) uf_demo_ops = Some (uf, rs) /\
    rs = [United true; United true; Found "a"; United false; Found "d"] /\
    (forall f a bb uf', union f uf a a = Some (bb, uf') -> bb = false).
Proof.
  destruct (proj2 (union_find_components ["a"; "b"] uf_demo_ops) 3 _ _ eq_refl)
    as (_ & _ & _ & H & _).
  eexists _, _. split; [reflexivity|]. split; [reflexivity|]. exact H.
Defined.

End UnionFindProofs.
Module KruskalProofs.
Import UnionFind UnionFindProofs Kruskal.

(** The order the edges are sorted by. *)
Definition wle (e f : Edge) : Prop := (weight e <= weight f)%Q.

#[local] Instance wle_trans : Transitive wle.
Proof. intros e f g. unfold wle. apply Qle_trans. Qed.

Lemma insert_edge_perm e l : insert_edge e l ≡ₚ e :: l.
Proof.
  induction l as [|e' l IH]; simpl; [done|].
  destruct (negb _); [done|]. rewrite IH. constructor.
Qed.

Lemma insert_edge_sorted e l : Sorted wle l -> Sorted wle (insert_edge e l).
Proof.
  induction 1 as [|e' l Hl IH Hhd]; simpl; [by repeat constructor|].
  destruct (Qle_bool (weight e') (weight e)) eqn:Hle; simpl.
  - apply Qle_bool_iff in Hle. constructor; [done|].
    destruct l as [|e'' l]; simpl; [by constructor|].
    inversion Hhd as [|? ? Hw]; subst.
    destruct (negb _) eqn:?; constructor; [done|done].
  - constructor; [by constructor|]. constructor. unfold wle.
    apply Qlt_le_weak, Qnot_le_lt. intros Hle'. apply Qle_bool_iff in Hle'. congruence.
Qed.

Lemma sort_edges_perm l : sort_edges l ≡ₚ l.
Proof.
  unfold sort_edges. rewrite <- (rev_involutive l) at 2.
  induction (rev l) as [|e l' IH]; simpl; [done|].
  rewrite insert_edge_perm, IH. apply Permutation_cons_append.
Qed.

Lemma sort_edges_sorted l : Sorted wle (sort_edges l).
Proof.
  unfold sort_edges. induction (rev l); simpl; [constructor|].
  by apply insert_edge_sorted.
Qed.

(** The run of the loop of [kruskal] over the sorted edges: the edges it
    accepts, given the pairs [U] passed to [union] before. *)
Inductive kacc : list (string * string) -> list Edge -> list Edge -> Prop :=
| kacc_nil U : kacc U [] []
| kacc_keep U e S A :
    ~ lconn U (u e) (v e) -> kacc (U ++ [(u e, v e)]) S A -> kacc U (e :: S) (e :: A)
| kacc_skip U e S A :
    lconn U (u e) (v e) -> kacc (U ++ [(u e, v e)]) S A -> kacc U (e :: S) A.

Lemma kacc_sublist U S A : kacc U S A -> A `sublist_of` S.
Proof. induction 1; by constructor. Qed.

Lemma kloop_spec fuel uf h mst total S h' t U B acc0 :
  uf_inv uf U B -> edgeArrays h !! mst = Some acc0 ->
  kloop fuel uf h mst total S = Some (h', t) ->
  exists A, kacc U S A /\ edgeArrays h' !! mst = Some (acc0 ++ A) /\
    (t == total + sum_weights A)%Q /\ strArrays h' = strArrays h /\
    forall p, p <> mst -> edgeArrays h' !! p = edgeArrays h !! p.
Proof.
  revert uf h total U B acc0. induction S as [|e S IH]; intros uf h total U B acc0 Hi Hm Hk;
    simpl in Hk.
  - injection Hk as <- <-. exists []. split; [constructor|]. rewrite app_nil_r.
    split; [done|]. simpl. split; [ring|]. done.
  - destruct (union fuel uf (u e) (v e)) as [[[] uf1]|] eqn:Hu; [| |done].
    + destruct (union_inv _ _ _ _ _ _ _ _ Hi Hu) as [Hbb Hi1].
      edestruct IH as (A & HA & Hm' & Ht & Hs & Hf); [exact Hi1| |exact Hk|].
      { simpl. apply lookup_insert_eq. }
      exists (e :: A). split; [constructor; [by apply Hbb|done]|].
      rewrite (lookup_total_correct _ _ _ Hm) in Hm'. rewrite <- app_assoc in Hm'.
      split; [done|]. split; [rewrite Ht; simpl; ring|]. split; [done|].
      intros p Hp. rewrite Hf by done. simpl. by rewrite lookup_insert_ne by congruence.
    + destruct (union_inv _ _ _ _ _ _ _ _ Hi Hu) as [Hbb Hi1].
      edestruct IH as (A & HA & Hm' & Ht & Hs & Hf); [exact Hi1|exact Hm|exact Hk|].
      exists A. split; [|done]. constructor; [|done].
      destruct (classic (lconn U (u e) (v e))) as [?|Hn]; [done|].
      apply Hbb in Hn. done.
Qed.


Lemma kloop_total fuel uf h mst total S U B :
  uf_inv uf U B -> B + length S < fuel ->
  exists h' t, kloop fuel uf h mst total S = Some (h', t).
Proof.
  revert uf h total U B. induction S as [|e S IH]; intros uf h total U B Hi Hf; simpl in *.
  - eauto.
  - destruct (union_total fuel uf (u e) (v e) B (proj1 Hi) ltac:(lia)) as (bb & uf1 & Hu).
    rewrite Hu. destruct (union_inv _ _ _ _ _ _ _ _ Hi Hu) as [_ Hi1].
    destruct bb; eapply IH; eauto; lia.
Qed.

Lemma kruskal_spec fuel h nodes edges o h' es ns :
  edgeArrays h !! edges = Some es -> strArrays h !! nodes = Some ns ->
  kruskal fuel h nodes edges = Some (o, h') ->
  (mstEdges o ∉ dom (edgeArrays h)) /\ strArrays h' = strArrays h /\
  (forall p, p ∈ dom (edgeArrays h) -> edgeArrays h' !! p = edgeArrays h !! p) /\
  exists A, kacc [] (sort_edges es) A /\ edgeArrays h' !! mstEdges o = Some A /\
    (totalWeight o == sum_weights A)%Q.
Proof.
  intros He Hn Hk. unfold kruskal, alloc in Hk. simpl in Hk.
  set (m := fresh (dom (edgeArrays h))) in *.
  assert (Hm : m ∉ dom (edgeArrays h)) by apply is_fresh.
  rewrite lookup_insert_ne in Hk by (intros ->; apply Hm, elem_of_dom; eauto).
  rewrite He, Hn in Hk. simpl in Hk.
  set (s := fresh (dom (<[m:=[]]> (edgeArrays h)))) in *.
  assert (Hs : s ∉ dom (<[m:=[]]> (edgeArrays h))) by apply is_fresh.
  rewrite !lookup_total_insert_eq in Hk.
  destruct (kloop _ _ _ _ _ _) as [[h2 t]|] eqn:Hl; [|done].
  injection Hk as <- <-. simpl.
  assert (Hsm : s <> m) by (intros ->; apply Hs; rewrite dom_insert_L; set_solver).
  eapply (kloop_spec _ _ _ _ _ _ _ _ [] 0 []) in Hl as (A & HA & HmA & Ht & Hstr & Hfr);
    [|apply uf_new_inv|].
  2:{ simpl. rewrite lookup_insert_ne by done. rewrite lookup_insert_ne by done.
      apply lookup_insert_eq. }
  split; [done|]. split; [done|]. split.
  - intros p Hp. rewrite Hfr by (intros ?; subst; set_solver). simpl.
    rewrite dom_insert_L in Hs.
    rewrite !lookup_insert_ne; [done|..]; intros ?; subst; set_solver.
  - exists A. split; [done|]. split; [done|]. rewrite Ht. ring.
Qed.

(** C10: [kruskal] leaves every array it is given as it was: the array of
    edges keeps the same edges in the same order and the array of ids is
    unchanged, as is every other array; [mstEdges] is a new array, and its
    edges are a subsequence of a reordering of the input edges by
    non-decreasing weight. *)
Theorem kruskal_frame fuel h nodes edges o h' es :
  edgeArrays h !! edges = Some es -> is_Some (strArrays h !! nodes) ->
  kruskal fuel h nodes edges = Some (o, h') ->
  edgeArrays h' !! edges = Some es /\ strArrays h' = strArrays h /\
  (forall p, p ∈ dom (edgeArrays h) -> edgeArrays h' !! p = edgeArrays h !! p) /\
  (mstEdges o ∉ dom (edgeArrays h)) /\
  exists mst S, edgeArrays h' !! mstEdges o = Some mst /\
    S ≡ₚ es /\ Sorted (fun e f => (weight e <= weight f)%Q) S /\ mst `sublist_of` S.
Proof.
  intros He [ns Hn] Hk.
  destruct (kruskal_spec _ _ _ _ _ _ _ _ He Hn Hk) as (Hm & Hstr & Hfr & A & HA & HmA & _).
  split; [rewrite Hfr; [done|apply elem_of_dom; eauto]|].
  split; [done|]. split; [done|]. split; [done|].
  exists A, (sort_edges es). split; [done|]. split; [apply sort_edges_perm|].
  split; [apply sort_edges_sorted|]. by eapply kacc_sublist.
Qed.


(** ** Forests and components *)

(** No edge of [F] joins two ids connected by the other edges. *)
Definition forest (F : list Edge) : Prop :=
  forall l1 e l2, F = l1 ++ e :: l2 -> ~ lconn (pairs (l1 ++ l2)) (u e) (v e).

(** [R] lists one id of each connected component of the ids [V] under the
    pairs [E]: the number of components is [length R]. *)
Definition component_reps (V : list string) (E : list (string * string))
    (R : list string) : Prop :=
  NoDup R /\ (forall r, r ∈ R -> r ∈ V) /\
  (forall x, x ∈ V -> exists r, r ∈ R /\ lconn E x r) /\
  (forall r1 r2, r1 ∈ R -> r2 ∈ R -> lconn E r1 r2 -> r1 = r2).

Lemma reps_le V E1 E2 R1 R2 :
  (forall x y, lconn E1 x y -> lconn E2 x y) ->
  component_reps V E1 R1 -> component_reps V E2 R2 -> length R2 <= length R1.
Proof.
  intros Hinc (HR1 & HV1 & Hc1 & Hd1) (HR2 & HV2 & Hc2 & Hd2).
  assert (Hgen : forall L, NoDup L -> (forall x, x ∈ L -> x ∈ V) ->
            (forall a b, a ∈ L -> b ∈ L -> lconn E2 a b -> a = b) ->
            exists M, NoDup M /\ (forall m, m ∈ M -> m ∈ R1) /\ length M = length L /\
              (forall m, m ∈ M -> exists l, l ∈ L /\ lconn E1 l m)).
  { induction L as [|x L IH]; intros HL HLV HLd.
    - exists []. repeat split; [constructor|set_solver|set_solver].
    - apply NoDup_cons in HL as [Hx HL].
      destruct IH as (M & HM & HMR & HMl & HMc); [done|set_solver|set_solver|].
      destruct (Hc1 x) as (r & Hr & Hxr); [set_solver|].
      exists (r :: M). split; [|split; [|split]].
      + constructor; [|done]. intros HrM. destruct (HMc r HrM) as (l & Hl & Hlr).
        assert (x = l) as ->; [|done].
        apply HLd; [set_solver|set_solver|]. apply Hinc.
        eapply ConnProofs.lconn_trans; [exact Hxr|by apply ConnProofs.lconn_sym].
      + set_solver.
      + simpl. lia.
      + intros m Hm. apply elem_of_cons in Hm as [->|Hm]; [exists x; set_solver|].
        destruct (HMc m Hm) as (l & ? & ?). exists l. set_solver. }
  destruct (Hgen R2 HR2 HV2 Hd2) as (M & HM & HMR & HMl & _).
  rewrite <- HMl. apply submseteq_length, NoDup_submseteq; [done|]. intros m; apply HMR.
Qed.

Lemma reps_exists V E : exists R, component_reps V E R.
Proof.
  induction V as [|x V IH].
  - exists []. repeat split; [constructor|set_solver|set_solver|set_solver].
  - destruct IH as (R & HR & HV & Hc & Hd).
    destruct (classic (exists r, r ∈ R /\ lconn E x r)) as [Hx|Hx].
    + exists R. split; [done|]. split; [set_solver|]. split; [|done].
      intros y Hy. apply elem_of_cons in Hy as [->|Hy]; [done|auto].
    + exists (x :: R). split; [|split; [set_solver|split]].
      * constructor; [|done]. intros HxR. apply Hx. exists x.
        split; [done|apply ConnProofs.lconn_refl].
      * intros y Hy. apply elem_of_cons in Hy as [->|Hy].
        { exists x. split; [set_solver|apply ConnProofs.lconn_refl]. }
        destruct (Hc y Hy) as (r & ? & ?). exists r. set_solver.
      * intros r1 r2 H1 H2 H12.
        apply elem_of_cons in H1 as [->|H1], H2 as [->|H2]; [done| | |auto].
        { exfalso. apply Hx. eauto. }
        { exfalso. apply Hx. exists r1. split; [done|by apply ConnProofs.lconn_sym]. }
Qed.

Lemma reps_ext V E1 E2 R :
  (forall x y, lconn E1 x y <-> lconn E2 x y) ->
  component_reps V E1 R -> component_reps V E2 R.
Proof.
  intros Heq (HR & HV & Hc & Hd). split; [done|]. split; [done|]. split.
  - intros x Hx. destruct (Hc x Hx) as (r & ? & ?). exists r. by rewrite <- Heq.
  - intros r1 r2 ? ? ?. apply Hd; [done|done|by apply Heq].
Qed.

Lemma reps_length V E R1 R2 :
  component_reps V E R1 -> component_reps V E R2 -> length R1 = length R2.
Proof.
  intros H1 H2. apply Nat.le_antisymm; eapply reps_le; eauto.
Qed.

Lemma forest_cons e F :
  forest (e :: F) -> forest F /\ ~ lconn (pairs F) (u e) (v e).
Proof.
  intros HF. split.
  - intros l1 f l2 ->. intros Hc. apply (HF (e :: l1) f l2); [done|].
    eapply ConnProofs.lconn_incl; [|exact Hc]. intros p. simpl. set_solver.
  - exact (HF [] e F eq_refl).
Qed.

(** A forest over the ids [V] has [length V] minus the number of its
    components edges. *)
Lemma forest_count V F R :
  NoDup V -> forest F -> (forall e, e ∈ F -> u e ∈ V /\ v e ∈ V) ->
  component_reps V (pairs F) R -> length F + length R = length V.
Proof.
  intros HV. revert R. induction F as [|e F IH]; intros R HF HE HR.
  - simpl. assert (HVV : component_reps V (pairs []) V).
    { split; [done|]. split; [done|]. split.
      - intros x Hx. exists x. split; [done|apply ConnProofs.lconn_refl].
      - intros r1 r2 _ _. apply ConnProofs.lconn_nil. }
    by rewrite (reps_length _ _ _ _ HR HVV).
  - destruct (forest_cons _ _ HF) as [HF' He].
    destruct (reps_exists V (pairs F)) as [R' HR'].
    specialize (IH R' HF' ltac:(set_solver) HR').
    destruct (HE e ltac:(set_solver)) as [Hu Hv].
    destruct HR' as (HN' & HV' & Hc' & Hd').
    destruct (Hc' _ Hu) as (ru & Hru & Hur). destruct (Hc' _ Hv) as (rv & Hrv & Hvr).
    apply elem_of_Permutation in Hrv as [K HK].
    assert (HNK : NoDup (rv :: K)) by (by rewrite <- HK).
    apply NoDup_cons in HNK as [HrvK HNK].
    assert (Hadd : forall x y, lconn (pairs (e :: F)) x y <->
              lconn (pairs F) x y \/ (lconn (pairs F) x (u e) /\ lconn (pairs F) y (v e)) \/
              (lconn (pairs F) x (v e) /\ lconn (pairs F) y (u e))).
    { intros x y. apply ConnProofs.lconn_add. intros p. simpl. apply elem_of_cons. }
    assert (Hinc : forall x y, lconn (pairs F) x y -> lconn (pairs (e :: F)) x y)
      by (intros x y ?; apply Hadd; auto).
    assert (HK' : component_reps V (pairs (e :: F)) K).
    { split; [done|]. split; [intros r Hr; apply HV'; rewrite HK; set_solver|]. split.
      - intros x Hx. destruct (Hc' x Hx) as (r & Hr & Hxr).
        rewrite HK in Hr. apply elem_of_cons in Hr as [->|Hr]; [|eauto].
        exists ru. split.
        + assert (ru ∈ rv :: K) as Hru' by (rewrite <- HK; done).
          apply elem_of_cons in Hru' as [->|?]; [|done]. exfalso. apply He.
          eapply ConnProofs.lconn_trans; [exact Hur|by apply ConnProofs.lconn_sym].
        + apply Hadd. right. right. split; [|by apply ConnProofs.lconn_sym].
          eapply ConnProofs.lconn_trans; [exact Hxr|by apply ConnProofs.lconn_sym].
      - intros r1 r2 H1 H2 H12.
        assert (Hin : forall r, r ∈ K -> r ∈ R') by (intros r ?; rewrite HK; set_solver).
        apply Hadd in H12 as [H12|[[H1u H2v]|[H1v H2u]]].
        + apply Hd'; auto.
        + exfalso. assert (r2 = rv) as ->; [|done].
          apply Hd'; [auto|rewrite HK; set_solver|].
          eapply ConnProofs.lconn_trans; [exact H2v|exact Hvr].
        + exfalso. assert (r1 = rv) as ->; [|done].
          apply Hd'; [auto|rewrite HK; set_solver|].
          eapply ConnProofs.lconn_trans; [exact H1v|exact Hvr]. }
    rewrite (reps_length _ _ _ _ HR HK'). apply Permutation_length in HK.
    simpl in *. lia.
Qed.

Lemma pairs_incl F F' :
  (forall e, e ∈ F' -> e ∈ F) -> forall p, p ∈ pairs F' -> p ∈ pairs F.
Proof.
  intros Hinc p. unfold pairs. rewrite !list_elem_of_In, !in_map_iff.
  intros (e & <- & He). exists e. split; [done|]. by apply list_elem_of_In, Hinc, list_elem_of_In.
Qed.

Lemma forest_sublist F F' : F' `sublist_of` F -> forest F -> forest F'.
Proof.
  intros Hs HF l1 e l2 ->.
  apply sublist_app_l in Hs as (k1 & k2 & -> & Hs1 & Hs2).
  apply sublist_cons_l in Hs2 as (k3 & k4 & -> & Hs4).
  intros Hc. apply (HF (k1 ++ k3) e k4); [by rewrite <- app_assoc|].
  eapply ConnProofs.lconn_incl; [|exact Hc]. apply pairs_incl.
  intros x Hx. apply elem_of_app in Hx as [Hx|Hx].
  - apply elem_of_app; left. apply elem_of_app; left. eapply elem_of_sublist; eauto.
  - apply elem_of_app; right. eapply elem_of_sublist; eauto.
Qed.


(** ** The edges [kruskal] accepts *)

Lemma lconn_same (E E' : list (string * string)) :
  (forall p, p ∈ E <-> p ∈ E') -> forall x y, lconn E x y <-> lconn E' x y.
Proof.
  intros HE x y. split; apply ConnProofs.lconn_incl; intros p; apply HE.
Qed.

(** A pair whose ends are already connected changes no connection. *)
Lemma lconn_redundant (E E' : list (string * string)) a b :
  lconn E a b -> (forall p, p ∈ E' <-> p = (a, b) \/ p ∈ E) ->
  forall x y, lconn E' x y <-> lconn E x y.
Proof.
  intros Hab HE x y. rewrite (ConnProofs.lconn_add E E' a b x y HE).
  split; [|auto]. intros [H|[[H1 H2]|[H1 H2]]]; [done| |].
  - eapply ConnProofs.lconn_trans; [exact H1|].
    eapply ConnProofs.lconn_trans; [exact Hab|by apply ConnProofs.lconn_sym].
  - eapply ConnProofs.lconn_trans; [exact H1|].
    eapply ConnProofs.lconn_trans; [apply ConnProofs.lconn_sym, Hab|by apply ConnProofs.lconn_sym].
Qed.

Lemma pairs_app F1 F2 : pairs (F1 ++ F2) = pairs F1 ++ pairs F2.
Proof. apply map_app. Qed.

(** [A] is a forest on top of the connections of [U]. *)
Definition forest_over (U : list (string * string)) (A : list Edge) : Prop :=
  forall l1 e l2, A = l1 ++ e :: l2 -> ~ lconn (U ++ pairs (l1 ++ l2)) (u e) (v e).

Lemma forest_over_head U e A :
  ~ lconn U (u e) (v e) -> forest_over (U ++ [(u e, v e)]) A ->
  ~ lconn (U ++ pairs A) (u e) (v e).
Proof.
  revert U. induction A as [|f A IH] using rev_ind; intros U Hn HA.
  - by rewrite app_nil_r.
  - assert (HA' : forest_over (U ++ [(u e, v e)]) A).
    { intros l1 g l2 -> Hc. apply (HA l1 g (l2 ++ [f])); [by rewrite <- app_assoc|].
      eapply ConnProofs.lconn_incl; [|exact Hc]. intros p.
      rewrite !pairs_app. set_solver. }
    assert (Hf : ~ lconn ((U ++ [(u e, v e)]) ++ pairs A) (u f) (v f)).
    { pose proof (HA A f [] eq_refl) as H. by rewrite app_nil_r in H. }
    specialize (IH U Hn HA').
    intros Hc. rewrite (ConnProofs.lconn_add (U ++ pairs A) _ (u f) (v f)) in Hc.
    2:{ intros p. rewrite pairs_app. simpl. set_solver. }
    set (E2 := (U ++ [(u e, v e)]) ++ pairs A).
    assert (Hinc : forall x y, lconn (U ++ pairs A) x y -> lconn E2 x y).
    { intros x y. apply ConnProofs.lconn_incl. intros p. set_solver. }
    assert (He : lconn E2 (u e) (v e)) by (apply ConnProofs.lconn_pair; set_solver).
    destruct Hc as [Hc|[[H1 H2]|[H1 H2]]]; [done| |]; apply Hf; fold E2.
    + eapply ConnProofs.lconn_trans; [apply ConnProofs.lconn_sym, Hinc, H1|].
      eapply ConnProofs.lconn_trans; [exact He|apply Hinc, H2].
    + eapply ConnProofs.lconn_trans; [apply ConnProofs.lconn_sym, Hinc, H2|].
      eapply ConnProofs.lconn_trans; [apply ConnProofs.lconn_sym, He|apply Hinc, H1].
Qed.

Lemma kacc_forest U S A : kacc U S A -> forest_over U A.
Proof.
  induction 1 as [U|U e S A Hn Hk IH|U e S A Hc Hk IH].
  - intros [|? ?] ? ? ?; discriminate.
  - intros [|g l1] f l2 Heq; simpl in Heq; injection Heq as <- Heq.
    + subst. simpl. by apply forest_over_head.
    + subst. intros Hc. apply (IH l1 f l2 eq_refl).
      eapply ConnProofs.lconn_incl; [|exact Hc]. intros p. simpl. set_solver.
  - intros l1 f l2 -> Hc'. apply (IH l1 f l2 eq_refl).
    eapply ConnProofs.lconn_incl; [|exact Hc']. intros p. set_solver.
Qed.

Lemma filter_all_false {X} (P : X -> bool) L :
  (forall x, x ∈ L -> P x = false) -> List.filter P L = [].
Proof.
  induction L as [|x L IH]; intros H; simpl; [done|].
  rewrite H by set_solver. apply IH. set_solver.
Qed.

(** Run over a list sorted for a condition [P] that holds on a prefix
    only, the accepted edges satisfying [P] connect what the processed edges
    satisfying [P] connect. *)
Lemma kacc_conn U S A (P : Edge -> bool) :
  kacc U S A -> StronglySorted (fun e f => P f = true -> P e = true) S ->
  forall x y, lconn (U ++ pairs (List.filter P S)) x y <->
              lconn (U ++ pairs (List.filter P A)) x y.
Proof.
  induction 1 as [U|U e S A Hn Hk IH|U e S A Hc Hk IH]; intros Hs x y; [done| |];
    apply StronglySorted_inv in Hs as [Hs HF]; rewrite Forall_forall in HF;
    simpl; destruct (P e) eqn:HPe.
  - simpl. rewrite (lconn_same (U ++ _ :: _) ((U ++ [(u e, v e)]) ++ pairs (List.filter P S)))
      by (intros p; set_solver).
    rewrite IH by done. apply lconn_same. intros p. set_solver.
  - assert (HSf : forall f, f ∈ S -> P f = false).
    { intros f Hf. destruct (P f) eqn:Hpf; [|done]. discriminate (HF f Hf Hpf). }
    rewrite !filter_all_false; [done| |done].
    intros a Ha. apply HSf. eapply elem_of_sublist; [exact Ha|]. by eapply kacc_sublist.
  - simpl. rewrite (lconn_same (U ++ _ :: _) ((U ++ [(u e, v e)]) ++ pairs (List.filter P S)))
      by (intros p; set_solver).
    rewrite IH by done. apply (lconn_redundant (U ++ pairs (List.filter P A)) _ (u e) (v e)).
    + eapply ConnProofs.lconn_incl; [|exact Hc]. intros p. set_solver.
    + intros p. set_solver.
  - assert (HSf : forall f, f ∈ S -> P f = false).
    { intros f Hf. destruct (P f) eqn:Hpf; [|done]. discriminate (HF f Hf Hpf). }
    rewrite !filter_all_false; [done| |done].
    intros a Ha. apply HSf. eapply elem_of_sublist; [exact Ha|]. by eapply kacc_sublist.
Qed.

(** ** Weight counting *)

(** The edges of weight at most [t]. *)
Definition flt (t : Q) (L : list Edge) : list Edge :=
  List.filter (fun e => Qle_bool (weight e) t) L.

Lemma flt_length_le t L : length (flt t L) <= length L.
Proof.
  induction L as [|e L IH]; simpl; [lia|]. destruct (Qle_bool _ _); simpl; lia.
Qed.

Lemma flt_all t L : (forall x, x ∈ L -> (weight x <= t)%Q) -> length (flt t L) = length L.
Proof.
  induction L as [|e L IH]; intros H; simpl; [done|].
  assert (Qle_bool (weight e) t = true) as -> by (apply Qle_bool_iff, H; set_solver).
  simpl. rewrite IH; [done|]. set_solver.
Qed.

Lemma flt_full t L : length (flt t L) = length L -> forall x, x ∈ L -> (weight x <= t)%Q.
Proof.
  induction L as [|e L IH]; intros H x Hx; [set_solver|]. simpl in H.
  destruct (Qle_bool (weight e) t) eqn:He; simpl in H.
  - apply elem_of_cons in Hx as [->|Hx]; [by apply Qle_bool_iff|]. apply IH; [lia|done].
  - pose proof (flt_length_le t L). lia.
Qed.

Lemma flt_perm t L L' : L ≡ₚ L' -> length (flt t L) = length (flt t L').
Proof.
  induction 1; simpl; repeat destruct (Qle_bool _ _); simpl; lia.
Qed.

Lemma sum_perm L L' : L ≡ₚ L' -> (sum_weights L == sum_weights L')%Q.
Proof.
  induction 1 as [| e L L' _ IH| e f L| L L' L'' _ IH1 _ IH2]; simpl.
  - reflexivity.
  - by rewrite IH.
  - ring.
  - by rewrite IH1.
Qed.

Lemma max_weight L : L <> [] -> exists m, m ∈ L /\ forall x, x ∈ L -> (weight x <= weight m)%Q.
Proof.
  induction L as [|e L IH]; intros Hne; [done|].
  destruct L as [|f L].
  - exists e. split; [set_solver|]. intros x Hx. apply list_elem_of_singleton in Hx as ->.
    apply Qle_refl.
  - destruct IH as (m & Hm & Hmax); [done|].
    destruct (Qle_bool (weight e) (weight m)) eqn:Hem.
    + apply Qle_bool_iff in Hem. exists m. split; [set_solver|].
      intros x Hx. apply elem_of_cons in Hx as [->|Hx]; auto.
    + exists e. split; [set_solver|]. assert (Hme : (weight m <= weight e)%Q).
      { apply Qlt_le_weak, Qnot_le_lt. intros H. apply Qle_bool_iff in H. congruence. }
      intros x Hx. apply elem_of_cons in Hx as [->|Hx]; [apply Qle_refl|].
      eapply Qle_trans; [apply Hmax, Hx|exact Hme].
Qed.

(** If, at every weight [t], [A] has at least as many edges of weight at
    most [t] as [T], and both have as many edges, then [A] weighs at most
    what [T] weighs. *)
Lemma sum_le_of_counts n A T :
  length A = n -> length T = n ->
  (forall t, length (flt t T) <= length (flt t A)) ->
  (sum_weights A <= sum_weights T)%Q.
Proof.
  revert A T. induction n as [|n IH]; intros A T HA HT Hc.
  - destruct A, T; simpl in *; try discriminate; apply Qle_refl.
  - destruct (max_weight A) as (ma & Hma & Hmaxa); [by intros ->|].
    destruct (max_weight T) as (mb & Hmb & Hmaxb); [by intros ->|].
    apply elem_of_Permutation in Hma as [A' HA'].
    apply elem_of_Permutation in Hmb as [T' HT'].
    assert (Hab : (weight ma <= weight mb)%Q).
    { assert (Hfull : length (flt (weight mb) A) = length A).
      { pose proof (flt_all (weight mb) T Hmaxb). pose proof (Hc (weight mb)).
        pose proof (flt_length_le (weight mb) A). lia. }
      apply (flt_full _ _ Hfull). rewrite HA'. set_solver. }
    pose proof (Permutation_length HA') as HlA. pose proof (Permutation_length HT') as HlT.
    simpl in HlA, HlT.
    rewrite (sum_perm _ _ HA'), (sum_perm _ _ HT'). simpl.
    apply Qplus_le_compat; [done|]. apply (IH A' T'); [lia|lia|].
    intros t. specialize (Hc t). rewrite (flt_perm _ _ _ HA'), (flt_perm _ _ _ HT') in Hc.
    simpl in Hc. destruct (Qle_bool (weight ma) t) eqn:Hmt.
    + apply Qle_bool_iff in Hmt.
      rewrite (flt_all t A'); [pose proof (flt_length_le t T'); lia|].
      intros x Hx. eapply Qle_trans; [apply Hmaxa; rewrite HA'; set_solver|exact Hmt].
    + destruct (Qle_bool (weight mb) t); simpl in Hc; lia.
Qed.

(** ** Kruskal's result *)

Lemma kruskal_total h nodes edges es ns :
  edgeArrays h !! edges = Some es -> strArrays h !! nodes = Some ns ->
  exists o h', kruskal (S (length es)) h nodes edges = Some (o, h').
Proof.
  intros He Hn. unfold kruskal, alloc. simpl.
  set (m := fresh (dom (edgeArrays h))).
  assert (Hm : m ∉ dom (edgeArrays h)) by apply is_fresh.
  rewrite lookup_insert_ne by (intros ->; apply Hm, elem_of_dom; eauto).
  rewrite He, Hn. simpl. rewrite !lookup_total_insert_eq.
  edestruct (kloop_total (S (length es)) (uf_new ns)) as (h2 & t & ->);
    [apply (uf_new_inv ns)|rewrite (Permutation_length (sort_edges_perm es)); lia|].
  eauto.
Qed.

Lemma StronglySorted_weaken {X} (R R' : X -> X -> Prop) L :
  (forall x y, R x y -> R' x y) -> StronglySorted R L -> StronglySorted R' L.
Proof.
  intros HR. induction 1 as [|x L _ IH HF]; constructor; [done|].
  eapply Forall_impl; [exact HF|]. auto.
Qed.

Lemma filter_true_id {X} (L : list X) : List.filter (fun _ => true) L = L.
Proof. induction L as [|x L IH]; simpl; congruence. Qed.

Lemma elem_of_flt t L e : e ∈ flt t L <-> e ∈ L /\ (weight e <= t)%Q.
Proof.
  unfold flt. rewrite list_elem_of_In, filter_In, <- list_elem_of_In, Qle_bool_iff. done.
Qed.

Lemma flt_sublist t L : flt t L `sublist_of` L.
Proof.
  induction L as [|e L IH]; simpl; [constructor|].
  destruct (Qle_bool _ _); by constructor.
Qed.

Lemma pairs_perm L L' : L ≡ₚ L' -> forall p, p ∈ pairs L <-> p ∈ pairs L'.
Proof.
  intros HL p. split; apply pairs_incl; intros e He; by rewrite HL || by rewrite <- HL.
Qed.

(** C3: given an array of distinct ids and an array of weighted edges between
    them, [kruskal] returns, and the edges [mstEdges] it returns (weighing
    [totalWeight]) are taken from the input, form a forest, connect exactly
    what the input connects, weigh at most as much as any forest of input
    edges with the same connections, and number the ids minus the
    components. *)
Theorem kruskal_minimum_spanning_forest h nodes edges ns es :
  strArrays h !! nodes = Some ns -> edgeArrays h !! edges = Some es ->
  NoDup ns -> (forall e, e ∈ es -> u e ∈ ns /\ v e ∈ ns) ->
  (exists fuel o h', kruskal fuel h nodes edges = Some (o, h')) /\
  forall fuel o h', kruskal fuel h nodes edges = Some (o, h') ->
  exists mst, edgeArrays h' !! mstEdges o = Some mst /\
    (totalWeight o == sum_weights mst)%Q /\
    mst ⊆+ es /\ forest mst /\
    (forall x y, lconn (pairs mst) x y <-> lconn (pairs es) x y) /\
    (forall T, T ⊆+ es -> forest T ->
       (forall x y, lconn (pairs T) x y <-> lconn (pairs es) x y) ->
       (sum_weights mst <= sum_weights T)%Q) /\
    (forall R, component_reps ns (pairs es) R -> length mst + length R = length ns).
Proof.
  intros Hn He Hnd Hends. split.
  { destruct (kruskal_total h nodes edges es ns He Hn) as (o & h' & ?). eauto. }
  intros fuel o h' Hk.
  destruct (kruskal_spec _ _ _ _ _ _ _ _ He Hn Hk) as (_ & _ & _ & A & HA & HmA & Ht).
  set (S := sort_edges es) in *.
  assert (HS : S ≡ₚ es) by apply sort_edges_perm.
  assert (HSs : StronglySorted wle S).
  { apply Sorted_StronglySorted; [intros ???; apply Qle_trans|apply sort_edges_sorted]. }
  assert (HAS : A `sublist_of` S) by (by eapply kacc_sublist).
  assert (HAes : A ⊆+ es) by (rewrite <- HS; by apply sublist_submseteq).
  assert (HAin : forall e, e ∈ A -> e ∈ es) by (intros e ?; by eapply elem_of_submseteq).
  assert (HAf : forest A) by exact (kacc_forest _ _ _ HA).
  assert (Hconn : forall x y, lconn (pairs A) x y <-> lconn (pairs es) x y).
  { intros x y. pose proof (kacc_conn _ _ _ (fun _ => true) HA) as Hc.
    rewrite !filter_true_id in Hc. simpl in Hc. rewrite <- Hc.
    - apply lconn_same, pairs_perm, HS.
    - eapply StronglySorted_weaken; [|exact HSs]. done. }
  assert (Hcount : forall F, forest F -> (forall e, e ∈ F -> e ∈ es) ->
            forall R, component_reps ns (pairs F) R -> length F + length R = length ns).
  { intros F HF HFin R HR. apply forest_count; auto. }
  exists A. split; [done|]. split; [done|]. split; [done|]. split; [done|].
  split; [done|]. split.
  - intros T HT HTf HTc.
    assert (HTin : forall e, e ∈ T -> e ∈ es) by (intros e ?; by eapply elem_of_submseteq).
    destruct (reps_exists ns (pairs es)) as [R0 HR0].
    pose proof (Hcount A HAf HAin R0 (reps_ext _ _ _ _ (fun x y => iff_sym (Hconn x y)) HR0)).
    pose proof (Hcount T HTf HTin R0 (reps_ext _ _ _ _ (fun x y => iff_sym (HTc x y)) HR0)).
    apply (sum_le_of_counts (length A)); [done|lia|].
    intros t.
    assert (HFT : forest (flt t T)) by (eapply forest_sublist; [apply flt_sublist|done]).
    assert (HFA : forest (flt t A)) by (eapply forest_sublist; [apply flt_sublist|done]).
    assert (HFTin : forall e, e ∈ flt t T -> e ∈ es)
      by (intros e; rewrite elem_of_flt; intros [? _]; auto).
    assert (HFAin : forall e, e ∈ flt t A -> e ∈ es)
      by (intros e; rewrite elem_of_flt; intros [? _]; auto).
    assert (Hinc : forall x y, lconn (pairs (flt t T)) x y -> lconn (pairs (flt t A)) x y).
    { intros x y Hxy.
      pose proof (kacc_conn _ _ _ (fun e => Qle_bool (weight e) t) HA) as Hc.
      simpl in Hc. apply Hc.
      { eapply StronglySorted_weaken; [|exact HSs].
        intros e f Hef Hf. apply Qle_bool_iff in Hf. apply Qle_bool_iff.
        eapply Qle_trans; [exact Hef|exact Hf]. }
      eapply ConnProofs.lconn_incl; [|exact Hxy]. apply pairs_incl.
      intros e. fold (flt t S). rewrite !elem_of_flt. intros [HeT Hw].
      split; [|done]. rewrite HS. auto. }
    destruct (reps_exists ns (pairs (flt t T))) as [RT HRT].
    destruct (reps_exists ns (pairs (flt t A))) as [RA HRA].
    pose proof (Hcount _ HFT HFTin RT HRT). pose proof (Hcount _ HFA HFAin RA HRA).
    pose proof (reps_le _ _ _ _ _ Hinc HRT HRA). lia.
  - intros R HR. apply Hcount; [done|done|]. eapply reps_ext; [|exact HR].
    intros x y. by rewrite Hconn.
Qed.

(** The triangle of the specification's example, ids at location 1 and
    edges at location 2. *)
Definition tri_nodes : list string := ["A"; "B"; "C"].
Definition tri_edges : list Edge :=
  [mkEdge "A" "B" 1; mkEdge "B" "C" 2; mkEdge "A" "C" 3].
Definition tri_heap : Heap :=
  mkHeap {[1%positive := tri_nodes]} {[2%positive := tri_edges]}.

Lemma kruskal_frame_witness :
  exists o h', kruskal 4 tri_heap 1 2 = Some (o, h') /\
    edgeArrays h' !! 2%positive = Some tri_edges /\ strArrays h' = strArrays tri_heap.
Proof.
  destruct (kruskal 4 tri_heap 1 2) as [[o h']|] eqn:Hk; [|vm_compute in Hk; discriminate].
  destruct (kruskal_frame 4 tri_heap 1 2 o h' tri_edges eq_refl
              (ex_intro _ tri_nodes eq_refl) Hk) as (H1 & H2 & _).
  exists o, h'. auto.
Defined.

Lemma kruskal_minimum_spanning_forest_witness :
  exists o h' mst, kruskal 4 tri_heap 1 2 = Some (o, h') /\
    edgeArrays h' !! mstEdges o = Some mst /\ forest mst /\
    (totalWeight o == sum_weights mst)%Q /\ length mst = 2.
Proof.
  destruct (kruskal 4 tri_heap 1 2) as [[o h']|] eqn:Hk; [|vm_compute in Hk; discriminate].
  assert (Hnd : NoDup tri_nodes) by (apply (bool_decide_unpack _); vm_compute; exact I).
  assert (Hends : Forall (fun e => u e ∈ tri_nodes /\ v e ∈ tri_nodes) tri_edges)
    by (apply (bool_decide_unpack _); vm_compute; exact I).
  rewrite Forall_forall in Hends.
  destruct (proj2 (kruskal_minimum_spanning_forest tri_heap 1 2 tri_nodes tri_edges
              eq_refl eq_refl Hnd Hends) 4 o h' Hk)
    as (mst & H1 & H2 & _ & H4 & _ & _ & H7).
  exists o, h', mst. split; [done|]. split; [done|]. split; [done|]. split; [done|].
  enough (length mst + 1 = 3) by lia. apply (H7 ["A"]).
  split; [by apply NoDup_singleton|]. split; [set_solver|]. split.
  - intros x Hx. exists "A". split; [set_solver|].
    apply elem_of_cons in Hx as [->|Hx]; [apply ConnProofs.lconn_refl|].
    apply elem_of_cons in Hx as [->|Hx]; [apply ConnProofs.lconn_sym, ConnProofs.lconn_pair; simpl; set_solver|].
    apply list_elem_of_singleton in Hx as ->.
    apply ConnProofs.lconn_sym, ConnProofs.lconn_pair. simpl. set_solver.
  - intros r1 r2 H1' H2' _. set_solver.
Defined.

End KruskalProofs.

(* ------------------------------------------------------------------ *)
(** ** Proofs about the Hungarian solver *)

Module HungarianProofs.
Import Hungarian.

(** *** Arrays *)

Lemma nth_insert_gen {A} (l : list A) i x k d :
  nth k (<[i := x]> l) d = if decide (k = i /\ i < length l) then x else nth k l d.
Proof.
  rewrite !nth_lookup. case_decide as Hk.
  - destruct Hk as [-> Hi]. by rewrite list_lookup_insert_eq.
  - destruct (decide (k = i)) as [->|Hne].
    + rewrite list_insert_ge; [done|]. lia.
    + by rewrite list_lookup_insert_ne.
Qed.

Lemma length_insert_gen {A} (l : list A) i x : length (<[i := x]> l) = length l.
Proof. apply length_insert. Qed.

Lemma mget_mset {A} (d : A) ms i j v i' j' :
  mget d (mset ms i j v) i' j' =
  if decide (i' = i /\ j' = j /\ i < length ms /\ j < length (nth i ms [])) then v
  else mget d ms i' j'.
Proof.
  unfold mget, mset. rewrite nth_insert_gen.
  destruct (decide (i' = i /\ i < length ms)) as [[-> Hi]|Hi].
  - rewrite nth_insert_gen. repeat case_decide; try done; exfalso; naive_solver.
  - case_decide; [exfalso; naive_solver|done].
Qed.

Lemma length_mset {A} (ms : list (list A)) i j v : length (mset ms i j v) = length ms.
Proof. apply length_insert. Qed.

Lemma length_nth_mset {A} (ms : list (list A)) i j v k :
  length (nth k (mset ms i j v) []) = length (nth k ms []).
Proof.
  unfold mset. rewrite nth_insert_gen. case_decide as Hk; [|done].
  destruct Hk as [-> _]. apply length_insert.
Qed.

Lemma index_of_Some v l k :
  index_of v l = Some k -> k < length l /\ nth k l 0 = v.
Proof.
  revert k; induction l as [|x l IH]; intros k; simpl; [done|].
  destruct (Nat.eqb_spec x v) as [->|]; [intros [= <-]; split; [lia|done]|].
  destruct (index_of v l) as [k'|] eqn:E; simpl; [|done].
  intros [= <-]. destruct (IH k' eq_refl). split; [lia|done].
Qed.

Lemma index_of_None v l :
  index_of v l = None -> forall k, k < length l -> nth k l 0 <> v.
Proof.
  induction l as [|x l IH]; simpl; [lia|].
  destruct (Nat.eqb_spec x v); [done|].
  destruct (index_of v l); [done|]. intros _ [|k] Hk; [done|]. apply IH; [done|lia].
Qed.

Lemma first_some_Some {A B} (f : A -> option B) l b :
  first_some f l = Some b -> exists x, In x l /\ f x = Some b.
Proof.
  induction l as [|x l IH]; simpl; [done|].
  destruct (f x) eqn:E; [intros [= <-]; eauto|].
  intros H. destruct (IH H) as (y & ? & ?). eauto.
Qed.

Lemma first_some_None {A B} (f : A -> option B) l :
  first_some f l = None -> forall x, In x l -> f x = None.
Proof.
  induction l as [|x l IH]; simpl; [done|].
  destruct (f x) eqn:E; [done|]. intros H y [<-|?]; auto.
Qed.

Lemma count_true_le l : count_true l <= length l.
Proof.
  unfold count_true. induction l as [|[] l IH]; simpl; lia.
Qed.

Lemma count_true_insert l r :
  r < length l -> nth r l false = false ->
  count_true (<[r := true]> l) = S (count_true l).
Proof.
  unfold count_true. revert r; induction l as [|b l IH]; intros r Hr Hb; simpl in *; [lia|].
  destruct r as [|r]; simpl in *; [subst; done|].
  destruct b; simpl; rewrite IH; auto; lia.
Qed.

Lemma count_true_full l :
  count_true l = length l -> forall k, k < length l -> nth k l false = true.
Proof.
  unfold count_true. induction l as [|b l IH]; simpl; [lia|].
  pose proof (count_true_le l) as Hle; unfold count_true in Hle.
  destruct b; simpl; intros Hc [|k] Hk; simpl; auto.
  - apply IH; lia.
  - lia.
  - lia.
Qed.

(** *** The search helpers *)

Lemma findUncoveredZero_Some mat rc cc r c :
  findUncoveredZero mat rc cc = Some (r, c) ->
  r < length mat /\ c < length (nth r mat []) /\ nth r rc false = false /\
  nth c cc false = false /\ is_zero (mget NaN mat r c) = true.
Proof.
  unfold findUncoveredZero. intros H.
  apply first_some_Some in H as (i & Hi%in_seq & H).
  destruct (nth i rc false) eqn:Ei; simpl in H; [done|].
  apply first_some_Some in H as (j & Hj%in_seq & H).
  destruct (is_zero (mget NaN mat i j)) eqn:Ez, (nth j cc false) eqn:Ej;
    simpl in H; try done.
  injection H as <- <-. repeat split; auto; lia.
Qed.

Lemma findUncoveredZero_None mat rc cc :
  findUncoveredZero mat rc cc = None ->
  forall i j, i < length mat -> j < length (nth i mat []) ->
  nth i rc false = false -> nth j cc false = false ->
  is_zero (mget NaN mat i j) = false.
Proof.
  unfold findUncoveredZero. intros H i j Hi Hj Ri Cj.
  eapply first_some_None in H; [|apply in_seq; split; [lia|exact Hi]].
  rewrite Ri in H; simpl in H.
  eapply first_some_None in H; [|apply in_seq; split; [lia|exact Hj]].
  rewrite Cj in H. destruct (is_zero _); [done|done].
Qed.

Lemma findStarInRow_Some ms r sc :
  findStarInRow ms r = Some sc -> mget 0 ms r sc = 1.
Proof. unfold findStarInRow, mget. intros H. by apply index_of_Some in H as [_ ->]. Qed.

Lemma findStarInRow_None ms r :
  findStarInRow ms r = None -> forall j, mget 0 ms r j <> 1.
Proof.
  unfold findStarInRow, mget. intros H j.
  destruct (decide (j < length (nth r ms []))).
  - by apply index_of_None.
  - rewrite nth_overflow; [done|lia].
Qed.

Lemma findStarInCol_Some ms c i :
  findStarInCol ms (Z.of_nat c) = Some i -> mget 0 ms i c = 1.
Proof.
  unfold findStarInCol. rewrite (proj2 (Z.ltb_ge _ _)) by lia. rewrite Nat2Z.id.
  intros H. apply first_some_Some in H as (k & _ & H).
  destruct (Nat.eqb_spec (mget 0 ms k c) 1); [|done]. by injection H as <-.
Qed.

Lemma findStarInCol_None ms c :
  findStarInCol ms (Z.of_nat c) = None -> forall i, mget 0 ms i c <> 1.
Proof.
  unfold findStarInCol. rewrite (proj2 (Z.ltb_ge _ _)) by lia. rewrite Nat2Z.id.
  intros H i. destruct (decide (i < length ms)).
  - eapply first_some_None in H; [|apply in_seq; split; [lia|exact l]].
    destruct (Nat.eqb_spec (mget 0 ms i c) 1); done.
  - unfold mget. rewrite (nth_overflow ms); [|lia]. by destruct c.
Qed.

Lemma findPrimeInRow_spec ms r j0 :
  mget 0 ms r j0 = 2 ->
  exists j, findPrimeInRow ms r = Z.of_nat j /\ mget 0 ms r j = 2.
Proof.
  unfold findPrimeInRow, mget. intros H.
  destruct (index_of 2 (nth r ms [])) as [j|] eqn:E.
  - apply index_of_Some in E as [_ ?]. eauto.
  - exfalso. destruct (decide (j0 < length (nth r ms []))).
    + by eapply index_of_None.
    + rewrite nth_overflow in H; [done|lia].
Qed.

(** [findMinUncoveredValue] as a fold of [Math.min] over the list of the
    uncovered cells. *)
Definition uvals (mat : list (list num)) (rc cc : list bool) : list num :=
  flat_map (fun i => if negb (nth i rc false)
    then map (fun j => mget NaN mat i j)
           (List.filter (fun j => negb (nth j cc false)) (seq 0 (length (nth i mat []))))
    else []) (seq 0 (length mat)).

Lemma fold_left_flat_map {A B C} (f : A -> B -> A) (g : C -> list B) l a :
  fold_left f (flat_map g l) a = fold_left (fun a x => fold_left f (g x) a) l a.
Proof.
  revert a; induction l as [|x l IH]; intros a; simpl; [done|].
  by rewrite fold_left_app, IH.
Qed.

Lemma fold_left_ext_in {A B} (f g : A -> B -> A) l a :
  (forall a x, In x l -> f a x = g a x) -> fold_left f l a = fold_left g l a.
Proof.
  revert a; induction l as [|x l IH]; intros a H; simpl; [done|].
  rewrite H by (left; done). apply IH. intros; apply H; right; done.
Qed.

Lemma findMinUncoveredValue_uvals mat rc cc :
  findMinUncoveredValue mat rc cc = fold_left num_min (uvals mat rc cc) Inf.
Proof.
  unfold findMinUncoveredValue, uvals. rewrite fold_left_flat_map.
  apply fold_left_ext_in; intros mv i _.
  destruct (negb (nth i rc false)); simpl; [|done].
  generalize (seq 0 (length (nth i mat []))) mv. clear mv.
  induction l as [|j l IH]; intros mv; simpl; [done|].
  destruct (negb (nth j cc false)); simpl; apply IH.
Qed.

Lemma elem_uvals mat rc cc v :
  In v (uvals mat rc cc) <->
  exists i j, i < length mat /\ j < length (nth i mat []) /\
    nth i rc false = false /\ nth j cc false = false /\ mget NaN mat i j = v.
Proof.
  unfold uvals. rewrite in_flat_map. split.
  - intros (i & Hi%in_seq & Hv). destruct (nth i rc false) eqn:Ri; simpl in Hv; [done|].
    apply in_map_iff in Hv as (j & <- & Hj). apply filter_In in Hj as [Hj%in_seq Cj].
    exists i, j. destruct (nth j cc false); [done|]. repeat split; auto; lia.
  - intros (i & j & Hi & Hj & Ri & Cj & <-). exists i. split; [apply in_seq; lia|].
    rewrite Ri. simpl. apply in_map_iff. exists j. split; [done|].
    apply filter_In. rewrite Cj. split; [apply in_seq; lia|done].
Qed.

Lemma fold_num_min vs a :
  (a = Inf \/ exists q, a = Fin q) -> (forall v, In v vs -> v <> NaN) ->
  (fold_left num_min vs a = Inf /\ a = Inf /\ forall v, In v vs -> v = Inf) \/
  (exists q, fold_left num_min vs a = Fin q /\ (a = Fin q \/ In (Fin q) vs)).
Proof.
  revert a; induction vs as [|v vs IH]; intros a Ha Hv; simpl.
  - destruct Ha as [->|[q ->]]; [left; done|right; eauto].
  - assert (v <> NaN) by (apply Hv; left; done).
    assert (Hv' : forall w, In w vs -> w <> NaN) by (intros; apply Hv; right; done).
    assert (Hm : (num_min a v = Inf /\ a = Inf /\ v = Inf) \/
                 exists q, num_min a v = Fin q /\ (a = Fin q \/ v = Fin q)).
    { destruct Ha as [->|[q ->]], v as [b| |]; simpl; try done.
      - right; eauto.
      - left; auto.
      - right. exists (qmin q b). unfold qmin. destruct (Qle_bool q b); eauto.
      - right; eauto. }
    assert (Hpre : num_min a v = Inf \/ exists q, num_min a v = Fin q)
      by (destruct Hm as [(? & _)|(? & ? & _)]; eauto).
    destruct (IH (num_min a v) Hpre Hv') as [(E & Ha' & Hall)|(q & E & Hq)].
    + destruct Hm as [(_ & -> & ->)|(? & Hm & _)]; [|congruence].
      left. split; [done|]. split; [done|]. intros w [<-|Hw]; auto.
    + destruct Hm as [(Hm & ? & ?)|(q' & Hm & Hq')].
      * right. exists q. rewrite Hm in Hq. naive_solver.
      * right. exists q. rewrite Hm in Hq. destruct Hq as [[= <-]|?]; naive_solver.
Qed.

(** Cells of a matrix that are read inside its bounds are numbers, not
    [undefined]. *)
Definition nonan (mat : list (list num)) : Prop :=
  forall i j, i < length mat -> j < length (nth i mat []) -> mget NaN mat i j <> NaN.

Lemma fmv_spec mat rc cc :
  nonan mat ->
  (findMinUncoveredValue mat rc cc = Inf /\
     forall i j, i < length mat -> j < length (nth i mat []) ->
     nth i rc false = false -> nth j cc false = false -> mget NaN mat i j = Inf) \/
  (exists q i j, findMinUncoveredValue mat rc cc = Fin q /\
     i < length mat /\ j < length (nth i mat []) /\
     nth i rc false = false /\ nth j cc false = false /\ mget NaN mat i j = Fin q).
Proof.
  intros Hn. rewrite findMinUncoveredValue_uvals.
  destruct (fold_num_min (uvals mat rc cc) Inf) as [(E & _ & Hall)|(q & E & [?|Hq])];
    auto; try done.
  - intros v (i & j & Hi & Hj & _ & _ & <-)%elem_uvals. by apply Hn.
  - left. split; [done|]. intros i j Hi Hj Ri Cj. apply Hall, elem_uvals. eauto 10.
  - right. apply elem_uvals in Hq as (i & j & ?). eauto 10.
Qed.

Lemma nth_imap {A B} (f : nat -> A -> B) l d dA k :
  nth k (imap f l) d = if decide (k < length l) then f k (nth k l dA) else d.
Proof.
  rewrite !nth_lookup, list_lookup_imap. case_decide as Hk.
  - destruct (nth_lookup_or_length l k dA) as [E|?]; [|lia]. by rewrite E.
  - rewrite lookup_ge_None_2; [done|lia].
Qed.

Lemma nth_map_const {A B} (l : list A) (b : B) k : nth k (map (fun _ => b) l) b = b.
Proof.
  revert k; induction l as [|x l IH]; intros [|k]; simpl; auto.
Qed.

Lemma count_true_all_false l : (forall k, nth k l false = false) -> count_true l = 0.
Proof.
  unfold count_true. induction l as [|b l IH]; intros H; simpl; [done|].
  pose proof (H 0) as H0; simpl in H0; subst. apply IH. intros k; apply (H (S k)).
Qed.

Lemma count_true_lt l r :
  r < length l -> nth r l false = false -> count_true l < length l.
Proof.
  intros Hr Hb. pose proof (count_true_insert l r Hr Hb) as E.
  pose proof (count_true_le (<[r := true]> l)) as Hle. rewrite length_insert in Hle. lia.
Qed.

Lemma length_filter_add (f g : nat -> bool) l r0 :
  NoDup l -> In r0 l -> f r0 = false ->
  (forall i, In i l -> g i = f i || (i =? r0)) ->
  length (List.filter g l) = S (length (List.filter f l)).
Proof.
  induction l as [|x l IH]; intros Hnd Hin Hf Hg; [done|].
  apply NoDup_cons in Hnd as [Hx Hnd]. rewrite list_elem_of_In in Hx. simpl.
  rewrite (Hg x) by (left; done). destruct Hin as [->|Hin].
  - rewrite Hf, Nat.eqb_refl. simpl. f_equal.
    assert (Heq : forall i, In i l -> g i = f i).
    { intros i Hi. rewrite Hg by (right; done).
      destruct (Nat.eqb_spec i r0); [subst; contradiction|]. apply orb_false_r. }
    clear -Heq. induction l as [|y l IH]; simpl; [done|].
    rewrite Heq by (left; done). destruct (f y); simpl; rewrite IH; auto;
      intros; apply Heq; right; done.
  - destruct (Nat.eqb_spec x r0); [subst; done|]. rewrite orb_false_r.
    destruct (f x); simpl; rewrite IH; auto; intros; apply Hg; right; done.
Qed.

(** *** Invariants of the step machine *)

Ltac destr_if := match goal with |- context [if ?x then _ else _] => destruct x end.

Definition M (st : HState) (i j : nat) : nat := mget 0 (masks st) i j.
Definition RC (st : HState) (i : nat) : bool := nth i (rowCover st) false.
Definition CC (st : HState) (j : nat) : bool := nth j (colCover st) false.
Definition X (st : HState) (i j : nat) : num := mget NaN (mat st) i j.

Definition square {A} (n : nat) (ms : list (list A)) : Prop :=
  length ms = n /\ forall i, i < n -> length (nth i ms []) = n.

Section Invariants.
Variables m nc : nat.
Local Abbreviation n := (Nat.max m nc).

(** Shape of the state; real cells (inside the [m x nc] input) are finite
    and padded cells infinite; marks only on real cells; starred zeros are
    independent. *)
Record base (st : HState) : Prop := mkBase {
  b_mat : square n (mat st);
  b_masks : square n (masks st);
  b_rc : length (rowCover st) = n;
  b_cc : length (colCover st) = n;
  b_real : forall i j, i < m -> j < nc -> isFinite (X st i j) = true;
  b_fake : forall i j, i < n -> j < n -> ~ (i < m /\ j < nc) -> X st i j = Inf;
  b_mreal : forall i j, M st i j <> 0 -> i < m /\ j < nc;
  b_mle : forall i j, M st i j <= 2;
  b_srow : forall i j j', M st i j = 1 -> M st i j' = 1 -> j = j';
  b_scol : forall i i' j, M st i j = 1 -> M st i' j = 1 -> i = i' }.

(** The covers and primes of steps 2, 6 and 3.  [extra] is the prime that
    starts the augmenting path in step 3; [rk] orders the covered rows by
    the time they were covered. *)
Record inv2 (st : HState) (extra : option (nat * nat)) (rk : nat -> nat) : Prop := mkInv2 {
  i_cs : forall i j, M st i j = 1 -> RC st i = negb (CC st j);
  i_cc : forall j, CC st j = true -> exists i, M st i j = 1;
  i_rc : forall i, RC st i = true -> exists j, M st i j = 1;
  i_pr : forall i j, M st i j = 2 -> extra = Some (i, j) \/ (RC st i = true /\ CC st j = false);
  i_rp : forall i, RC st i = true -> exists j, M st i j = 2;
  i_pu : forall i j j', M st i j = 2 -> M st i j' = 2 -> j = j';
  i_rk : forall i, RC st i = true -> rk i < count_true (rowCover st);
  i_dec : forall i j i', M st i j = 2 -> RC st i = true -> M st i' j = 1 ->
          RC st i' = true /\ rk i' < rk i;
  i_ex : forall r c, extra = Some (r, c) ->
         M st r c = 2 /\ RC st r = false /\ CC st c = false /\ forall j, M st r j <> 1 }.

Definition hinv (st : HState) : Prop :=
  base st /\
  match step st with
  | 0 => (forall j, j < n -> CC st j = true /\ exists i, M st i j = 1) \/
         (findMinUncoveredValue (mat st) (rowCover st) (colCover st) = Inf /\
          exists rk, inv2 st None rk)
  | 1 => (forall i j, M st i j <> 2) /\ (forall i, RC st i = false)
  | 2 | 6 => exists rk, inv2 st None rk
  | 3 => exists rk r c, pathStart st = Some (r, c) /\ inv2 st (Some (r, c)) rk
  | _ => False
  end.

(** Number of rows holding a star. *)
Definition starred (ms : list (list nat)) : nat :=
  length (List.filter (fun i => existsb (fun j => mget 0 ms i j =? 1) (seq 0 n)) (seq 0 n)).

Definition meas (st : HState) : nat :=
  let K := n + 1 - starred (masks st) in
  let R := count_true (rowCover st) in
  let B := 3 * n + 4 in
  match step st with
  | 1 => K * B + 3 * n + 3
  | 2 => K * B + 3 * (n - R) +
         (if findUncoveredZero (mat st) (rowCover st) (colCover st) then 0 else 2)
  | 3 => K * B
  | 6 => K * B + 3 * (n - R) + 1
  | _ => 0
  end.

Lemma starred_le ms : starred ms <= n.
Proof.
  unfold starred. etransitivity; [apply filter_length_le|]. rewrite length_seq. lia.
Qed.

Lemma base_nonan st : base st -> nonan (mat st).
Proof.
  intros Hb i j Hi Hj. destruct (b_mat _ Hb) as [Hl Hr].
  rewrite Hl in Hi. rewrite Hr in Hj by done. fold (X st i j).
  destruct (decide (i < m /\ j < nc)) as [[]|Hr'].
  - pose proof (b_real _ Hb i j) as Hf. destruct (X st i j); try done; auto.
    intros _; discriminate (Hf ltac:(done) ltac:(done)).
  - rewrite (b_fake _ Hb i j); [done|lia|lia|done].
Qed.

Lemma zero_real st i j :
  base st -> i < n -> j < n -> is_zero (X st i j) = true -> i < m /\ j < nc.
Proof.
  intros Hb Hi Hj Hz. destruct (decide (i < m /\ j < nc)) as [|Hr]; [done|].
  rewrite (b_fake _ Hb i j Hi Hj Hr) in Hz. done.
Qed.

Lemma starred_spec st i :
  base st -> existsb (fun j => mget 0 (masks st) i j =? 1) (seq 0 n) = true <->
  exists j, M st i j = 1.
Proof.
  intros Hb. rewrite existsb_exists. split.
  - intros (j & _ & Hj). apply Nat.eqb_eq in Hj. eauto.
  - intros (j & Hj). exists j. split; [|by apply Nat.eqb_eq].
    apply in_seq. destruct (b_mreal _ Hb i j) as [_ ?]; [lia|lia].
Qed.

Lemma base_eq st st' :
  base st -> mat st' = mat st -> masks st' = masks st ->
  length (rowCover st') = n -> length (colCover st') = n -> base st'.
Proof.
  intros [] Hm Hk Hr Hc. unfold M, X in *. constructor; unfold M, X; rewrite ?Hm, ?Hk; auto.
Qed.

Lemma inv2_eq st st' e rk :
  inv2 st e rk -> masks st' = masks st -> rowCover st' = rowCover st ->
  colCover st' = colCover st -> inv2 st' e rk.
Proof.
  intros [] Hk Hr Hc. unfold M, RC, CC in *. constructor; unfold M, RC, CC; rewrite ?Hk, ?Hr, ?Hc; auto.
Qed.


(** Step 1: cover the columns holding a star. *)
Lemma hstep1 fuel st :
  base st -> step st = 1 -> (forall i j, M st i j <> 2) -> (forall i, RC st i = false) ->
  exists st', hstep fuel n st = Some st' /\ hinv st' /\ meas st' < meas st.
Proof.
  intros Hb Hs Hnp Hrc.
  set (cc := imap (fun j _ => existsb (fun i => mget 0 (masks st) i j =? 1) (seq 0 n))
               (colCover st)).
  assert (Hlen : length cc = n) by (unfold cc; rewrite length_imap; apply (b_cc _ Hb)).
  assert (Hcc : forall j, nth j cc false = true <-> j < n /\ exists i, M st i j = 1).
  { intros j. unfold cc. rewrite (nth_imap _ _ _ false). rewrite (b_cc _ Hb).
    case_decide as Hj; [|split; [done|lia]]. rewrite existsb_exists. split.
    - intros (i & _ & Hi%Nat.eqb_eq). eauto.
    - intros [_ (i & Hi)]. exists i. split; [|by apply Nat.eqb_eq].
      apply in_seq. destruct (b_mreal _ Hb i j); lia. }
  assert (HR : count_true (rowCover st) = 0) by (apply count_true_all_false, Hrc).
  eexists. split; [unfold hstep; rewrite Hs; reflexivity|]. fold cc.
  assert (Hb' : forall k, base {| mat := mat st; masks := masks st; rowCover := rowCover st;
      colCover := cc; pathStart := pathStart st; step := k |}).
  { intros k. apply (base_eq st); simpl; auto. apply (b_rc _ Hb). }
  unfold hinv, meas. simpl. rewrite Hs.
  destruct (Nat.eqb_spec (count_true cc) n) as [Hf|Hf]; simpl.
  - split; [split; [apply Hb'|]|].
    + left. intros j Hj. unfold CC; simpl. split.
      * apply count_true_full; lia.
      * assert (nth j cc false = true) as Hc%Hcc by (apply count_true_full; lia).
        apply Hc.
    + nia.
  - split; [split; [apply Hb'|]|].
    + exists (fun _ => 0). constructor; unfold M, RC, CC in *; simpl.
      * intros i j Hij. rewrite Hrc. symmetry. apply negb_false_iff, Hcc.
        split; [destruct (b_mreal _ Hb i j); unfold M in *; lia|eauto].
      * intros j Hj%Hcc. apply Hj.
      * intros i Hi. rewrite Hrc in Hi. done.
      * intros i j Hij. by destruct (Hnp i j).
      * intros i Hi. rewrite Hrc in Hi. done.
      * intros i j j' Hij. by destruct (Hnp i j).
      * intros i Hi. rewrite Hrc in Hi. done.
      * intros i j i' Hij. by destruct (Hnp i j).
      * done.
    + rewrite HR. destr_if; nia.
Qed.

Lemma M_mk a b c d e f i j : M (mkHState a b c d e f) i j = mget 0 b i j.
Proof. done. Qed.
Lemma RC_mk a b c d e f i : RC (mkHState a b c d e f) i = nth i c false.
Proof. done. Qed.
Lemma CC_mk a b c d e f j : CC (mkHState a b c d e f) j = nth j d false.
Proof. done. Qed.
Lemma X_mk a b c d e f i j : X (mkHState a b c d e f) i j = mget NaN a i j.
Proof. done. Qed.

Lemma starred_ext ms ms' :
  (forall i j, mget 0 ms i j = 1 <-> mget 0 ms' i j = 1) -> starred ms = starred ms'.
Proof.
  intros H. unfold starred. f_equal. apply List.filter_ext. intros i.
  induction (seq 0 n) as [|j l IH]; simpl; [done|]. rewrite IH. f_equal.
  destruct (Nat.eqb_spec (mget 0 ms i j) 1), (Nat.eqb_spec (mget 0 ms' i j) 1);
    naive_solver.
Qed.

(** Step 2: prime an uncovered zero. *)
Lemma hstep2 fuel st rk :
  base st -> step st = 2 -> inv2 st None rk ->
  exists st', hstep fuel n st = Some st' /\ hinv st' /\ meas st' < meas st.
Proof.
  intros Hb Hs Hi.
  pose proof (b_mat _ Hb) as [Hml Hmr]. pose proof (b_masks _ Hb) as [Hkl Hkr].
  pose proof (b_rc _ Hb) as Hrl. pose proof (b_cc _ Hb) as Hcl.
  destruct (findUncoveredZero (mat st) (rowCover st) (colCover st)) as [[r c]|] eqn:Ez.
  2:{ eexists; split; [unfold hstep; rewrite Hs, Ez; reflexivity|].
      unfold hinv, meas; simpl; rewrite Hs, Ez.
      split; [split; [apply (base_eq st); auto|exists rk; apply (inv2_eq st); auto]|lia]. }
  pose proof (findUncoveredZero_Some _ _ _ _ _ Ez) as (Hr & Hc & Rr & Cc & Hz).
  rewrite Hml in Hr. rewrite Hmr in Hc by done.
  destruct (zero_real st r c Hb Hr Hc Hz) as [Hrm Hcn].
  assert (HM : forall i j, mget 0 (mset (masks st) r c 2) i j =
                           if decide (i = r /\ j = c) then 2 else M st i j).
  { intros i j. rewrite mget_mset. rewrite Hkl, Hkr by done.
    repeat case_decide; naive_solver. }
  assert (H0 : M st r c = 0).
  { pose proof (b_mle _ Hb r c).
    destruct (decide (M st r c = 1)) as [E|].
    { pose proof (i_cs _ _ _ Hi r c E) as E'. unfold RC, CC in E'. rewrite Rr, Cc in E'. done. }
    destruct (decide (M st r c = 2)) as [E|]; [|lia].
    destruct (i_pr _ _ _ Hi r c E) as [?|[E' _]]; [done|]. unfold RC in E'. congruence. }
  assert (HM1 : forall i j, mget 0 (mset (masks st) r c 2) i j = 1 <-> M st i j = 1).
  { intros i j. rewrite HM. case_decide as Hij; [destruct Hij as [-> ->]; lia|done]. }
  assert (HM2 : forall i j, mget 0 (mset (masks st) r c 2) i j = 2 <->
                            (i = r /\ j = c) \/ M st i j = 2).
  { intros i j. rewrite HM. case_decide as Hij; naive_solver. }
  assert (HS : starred (mset (masks st) r c 2) = starred (masks st)) by (apply starred_ext, HM1).
  assert (HR : count_true (rowCover st) < n) by (rewrite <- Hrl; apply (count_true_lt _ r); [lia|exact Rr]).
  assert (Hbase : forall rc cc ps k, length rc = n -> length cc = n ->
            base (mkHState (mat st) (mset (masks st) r c 2) rc cc ps k)).
  { intros rc cc ps k Hrc Hcc. destruct Hb. constructor; simpl; auto.
    - split; [rewrite length_mset; lia|]. intros i Hi'. rewrite length_nth_mset. auto.
    - intros i j. rewrite M_mk, HM. case_decide as Hij; [destruct Hij as [-> ->]; auto|].
      apply b_mreal0.
    - intros i j. rewrite M_mk, HM. case_decide; [lia|apply b_mle0].
    - intros i j j'. rewrite !M_mk, !HM1. apply b_srow0.
    - intros i i' j. rewrite !M_mk, !HM1. apply b_scol0. }
  destruct (findStarInRow (mset (masks st) r c 2) r) as [sc|] eqn:Es.
  - pose proof (findStarInRow_Some _ _ _ Es) as Hsc. apply HM1 in Hsc.
    destruct (b_mreal _ Hb r sc) as [_ Hscn]; [lia|].
    assert (HRC : forall i, nth i (<[r := true]> (rowCover st)) false =
                            if decide (i = r) then true else RC st i).
    { intros i. rewrite nth_insert_gen. repeat case_decide; naive_solver lia. }
    assert (HCC : forall j, nth j (<[sc := false]> (colCover st)) false =
                            if decide (j = sc) then false else CC st j).
    { intros j. rewrite nth_insert_gen. repeat case_decide; naive_solver lia. }
    assert (Hcnt : count_true (<[r := true]> (rowCover st)) = S (count_true (rowCover st)))
      by (apply count_true_insert; [lia|done]).
    eexists; split; [unfold hstep; rewrite Hs, Ez; cbv zeta; rewrite Es; reflexivity|].
    unfold hinv, meas. simpl. rewrite Hs, Ez, HS, Hcnt. split; [split|].
    + apply Hbase; rewrite length_insert; done.
    + exists (fun i => if decide (i = r) then count_true (rowCover st) else rk i).
      constructor; intros *; rewrite ?M_mk, ?RC_mk, ?CC_mk, ?HRC, ?HCC.
      * intros Hij. apply HM1 in Hij. case_decide as Hir.
        -- subst i. rewrite (b_srow _ Hb r j sc Hij Hsc). case_decide; done.
        -- case_decide as Hjs; [subst j; destruct Hir; exact (b_scol _ Hb _ _ _ Hij Hsc)|].
           apply (i_cs _ _ _ Hi _ _ Hij).
      * case_decide; [done|]. intros Hj. destruct (i_cc _ _ _ Hi j Hj) as [i Hij].
        exists i. by apply HM1.
      * case_decide as Hir; [subst; exists sc; by apply HM1|].
        intros Hr'. destruct (i_rc _ _ _ Hi i Hr') as [j Hj]. exists j. by apply HM1.
      * intros Hij. apply HM2 in Hij. destruct Hij as [[-> ->]|Hij]; right.
        -- rewrite decide_True by done. split; [done|]. case_decide; [done|]. exact Cc.
        -- destruct (i_pr _ _ _ Hi i j Hij) as [?|[E1 E2]]; [done|].
           rewrite E1. split; [by case_decide|]. case_decide; [done|exact E2].
      * case_decide as Hir; [subst; exists c; apply HM2; left; done|].
        intros Hr'. destruct (i_rp _ _ _ Hi i Hr') as [j Hj]. exists j. apply HM2. by right.
      * intros Hij Hij'. apply HM2 in Hij, Hij'.
        destruct Hij as [[-> ->]|Hij]; destruct Hij' as [[? ->]|Hij']; subst; auto.
        -- destruct (i_pr _ _ _ Hi r j' Hij') as [?|[E _]]; [done|]. unfold RC in E. congruence.
        -- destruct (i_pr _ _ _ Hi r j Hij) as [?|[E _]]; [done|]. unfold RC in E. congruence.
        -- exact (i_pu _ _ _ Hi _ _ _ Hij Hij').
      * cbn [rowCover]. rewrite Hcnt. case_decide; [intros; lia|]. intros Hr'. pose proof (i_rk _ _ _ Hi i Hr'). lia.
      * intros Hij Hir Hij'. apply HM2 in Hij. apply HM1 in Hij'.
        assert (Ri' : RC st i' = true).
        { destruct Hij as [[-> ->]|Hij].
          - rewrite (i_cs _ _ _ Hi _ _ Hij'). unfold CC; rewrite Cc. done.
          - destruct (i_pr _ _ _ Hi i j Hij) as [?|[_ E]]; [done|].
            rewrite (i_cs _ _ _ Hi _ _ Hij'). unfold CC in *; rewrite E. done. }
        assert (i' <> r) by (intros ->; unfold RC in Ri'; congruence).
        destruct (decide (i' = r)) as [|_]; [done|]. split; [exact Ri'|].
        destruct Hij as [[-> ->]|Hij].
        -- rewrite decide_True by done. apply (i_rk _ _ _ Hi _ Ri').
        -- destruct (i_pr _ _ _ Hi i j Hij) as [?|[E _]]; [done|].
           assert (i <> r) by (intros ->; unfold RC in E; congruence).
           destruct (decide (i = r)) as [|_]; [done|].
           apply (i_dec _ _ _ Hi i j i' Hij E Hij').
      * done.
    + destr_if; nia.
  - eexists; split; [unfold hstep; rewrite Hs, Ez; cbv zeta; rewrite Es; reflexivity|].
    unfold hinv, meas. simpl. rewrite HS. split; [split|].
    + apply Hbase; done.
    + exists rk, r, c. split; [done|].
      constructor; intros *; rewrite ?M_mk, ?RC_mk, ?CC_mk.
      * intros Hij. apply HM1 in Hij. apply (i_cs _ _ _ Hi _ _ Hij).
      * intros Hj. destruct (i_cc _ _ _ Hi j Hj) as [i Hij]. exists i. by apply HM1.
      * intros Hr'. destruct (i_rc _ _ _ Hi i Hr') as [j Hj]. exists j. by apply HM1.
      * intros Hij. apply HM2 in Hij. destruct Hij as [[-> ->]|Hij]; [left; done|].
        destruct (i_pr _ _ _ Hi i j Hij) as [?|?]; [done|right; done].
      * intros Hr'. destruct (i_rp _ _ _ Hi i Hr') as [j Hj]. exists j. apply HM2. by right.
      * intros Hij Hij'. apply HM2 in Hij, Hij'.
        destruct Hij as [[-> ->]|Hij]; destruct Hij' as [[? ->]|Hij']; subst; auto.
        -- destruct (i_pr _ _ _ Hi r j' Hij') as [?|[E _]]; [done|]. unfold RC in E. congruence.
        -- destruct (i_pr _ _ _ Hi r j Hij) as [?|[E _]]; [done|]. unfold RC in E. congruence.
        -- exact (i_pu _ _ _ Hi _ _ _ Hij Hij').
      * apply (i_rk _ _ _ Hi).
      * intros Hij Hir Hij'. apply HM2 in Hij. apply HM1 in Hij'.
        destruct Hij as [[-> ->]|Hij]; [unfold RC in Hir; congruence|].
        apply (i_dec _ _ _ Hi i j i' Hij Hir Hij').
      * intros [= <- <-]. split; [apply HM2; left; done|].
        split; [done|]. split; [done|]. intros j. exact (findStarInRow_None _ _ Es j).
    + rewrite ?Hs, ?Ez. nia.
Qed.

Lemma is_zero_sub_self q : is_zero (num_sub_q (Fin q) q) = true.
Proof. simpl. apply Qeq_bool_iff. ring. Qed.

(** Step 6: shift the uncovered minimum. *)
Lemma hstep6 fuel st rk :
  base st -> step st = 6 -> inv2 st None rk ->
  exists st', hstep fuel n st = Some st' /\ hinv st' /\ meas st' < meas st.
Proof.
  intros Hb Hs Hi.
  pose proof (b_mat _ Hb) as [Hml Hmr].
  destruct (fmv_spec (mat st) (rowCover st) (colCover st) (base_nonan _ Hb))
    as [[E _]|(q & i0 & j0 & E & Hi0 & Hj0 & Ri0 & Cj0 & Hx0)].
  - eexists; split; [unfold hstep; rewrite Hs, E; reflexivity|].
    unfold hinv, meas; simpl. rewrite Hs. split; [split|].
    + apply (base_eq st); auto; apply Hb.
    + right. split; [exact E|]. exists rk. by apply (inv2_eq st).
    + nia.
  - set (g := fun i j x =>
          let x := if nth i (rowCover st) false then num_add_q x q else x in
          if negb (nth j (colCover st) false) then num_sub_q x q else x).
    set (m' := imap (fun i r => imap (fun j x => g i j x) r) (mat st)).
    assert (Hm'l : length m' = n) by (unfold m'; rewrite length_imap; done).
    assert (Hm'r : forall i, i < n -> nth i m' [] = imap (fun j x => g i j x) (nth i (mat st) [])).
    { intros i Hi'. unfold m'. rewrite (nth_imap _ _ _ []). rewrite decide_True by lia. done. }
    assert (HX : forall i j, i < n -> j < n -> mget NaN m' i j = g i j (X st i j)).
    { intros i j Hi' Hj'. unfold mget at 1. rewrite Hm'r by done.
      rewrite (nth_imap _ _ _ NaN). rewrite decide_True by (rewrite Hmr; lia). done. }
    assert (Hgk : forall i j x, (x = Inf -> g i j x = Inf) /\
                                (isFinite x = true -> isFinite (g i j x) = true)).
    { intros i j x. unfold g. split.
      - intros ->. destruct (nth i _ _), (nth j _ _); done.
      - destruct x; try done. destruct (nth i _ _), (nth j _ _); done. }
    assert (Hz : is_zero (mget NaN m' i0 j0) = true).
    { rewrite Hml in Hi0. rewrite Hmr in Hj0 by done.
      rewrite HX by done. unfold X. rewrite Hx0. unfold g. rewrite Ri0, Cj0. simpl.
      apply Qeq_bool_iff. ring. }
    eexists; split; [unfold hstep; rewrite Hs, E; reflexivity|]. fold g. fold m'.
    unfold hinv, meas; simpl. rewrite Hs. split; [split|].
    + destruct Hb. constructor; simpl; auto.
      * split; [done|]. intros i Hi'. rewrite Hm'r by done. rewrite length_imap. auto.
      * intros i j Hi' Hj'. rewrite X_mk, HX by lia. apply Hgk. auto.
      * intros i j Hi' Hj' Hr. rewrite X_mk, HX by lia. apply Hgk. auto.
    + exists rk. by apply (inv2_eq st).
    + assert (HZ : findUncoveredZero m' (rowCover st) (colCover st) <> None).
      { intros Ez. rewrite Hml in Hi0. rewrite Hmr in Hj0 by done.
        pose proof (findUncoveredZero_None _ _ _ Ez i0 j0) as Hn.
        rewrite Hn in Hz; [done|lia|rewrite Hm'r, length_imap, Hmr; lia|done|done]. }
      match goal with |- context [if ?x then _ else _] => destruct x eqn:Ez end; [nia|].
      exfalso. exact (HZ Ez).
Qed.

(** *** The augmenting path of step 3 *)

#[local] Instance In_decision {A} `{EqDecision A} (x : A) (l : list A) : Decision (In x l) :=
  in_dec (fun a b => decide (a = b)) x l.

Definition cp (x : cell) : nat * nat := (row x, Z.to_nat (col x)).

Lemma cp_mk r c : cp (mkCell r (Z.of_nat c)) = (r, c).
Proof. unfold cp. simpl. by rewrite Nat2Z.id. Qed.

Lemma in_snoc2 {A} (x a b : A) l : In x (l ++ [a; b]) <-> In x l \/ x = a \/ x = b.
Proof. rewrite in_app_iff. simpl. naive_solver. Qed.

Lemma NoDup_snoc2 {A} (l : list A) a b :
  NoDup l -> ~ In a l -> ~ In b l -> a <> b -> NoDup (l ++ [a; b]).
Proof.
  intros Hl Ha Hb Hab. apply NoDup_app. split; [done|]. split.
  - intros x Hx%list_elem_of_In Hx'. apply elem_of_cons in Hx' as [->|Hx'];
      [done|]. apply list_elem_of_singleton in Hx' as ->. done.
  - apply NoDup_cons. split; [|apply NoDup_singleton].
    intros ?%list_elem_of_singleton. done.
Qed.

Section Path.
Variables (st : HState) (r0 c0 : nat) (rk : nat -> nat).
Hypothesis Hb : base st.
Hypothesis Hi : inv2 st (Some (r0, c0)) rk.

(** Invariant of the loop of [findAugmentingPath]: [p] is the path built
    so far and ends at the prime [(r, c)]. *)
Record li (p : list cell) (r c : nat) : Prop := mkLi {
  l_col : forall x, In x p -> (0 <= col x)%Z;
  l_nd : NoDup (map cp p);
  l_val : forall i j, In (i, j) (map cp p) -> M st i j = 1 \/ M st i j = 2;
  l_start : In (r0, c0) (map cp p);
  l_rowstar : forall i j j', In (i, j) (map cp p) -> M st i j = 2 -> i <> r0 ->
              M st i j' = 1 -> In (i, j') (map cp p);
  l_starprime : forall i j, In (i, j) (map cp p) -> M st i j = 1 ->
                exists j', M st i j' = 2 /\ In (i, j') (map cp p);
  l_pcol : forall i i' j, In (i, j) (map cp p) -> In (i', j) (map cp p) ->
           M st i j = 2 -> M st i' j = 2 -> i = i';
  l_cur : In (r, c) (map cp p) /\ M st r c = 2;
  l_next : forall i j, In (i, j) (map cp p) -> M st i j = 2 -> (i, j) <> (r, c) ->
           exists i', M st i' j = 1 /\ In (i', j) (map cp p);
  l_rank : forall i j, In (i, j) (map cp p) -> M st i j = 2 -> i <> r0 ->
           RC st i = true /\ rk r <= rk i /\ r <> r0;
  l_rc : r <> r0 -> RC st r = true }.

(** What the flip of step 3 needs of the path it is given. *)
Record path_ok (p : list cell) : Prop := mkPathOk {
  p_col : forall x, In x p -> (0 <= col x)%Z;
  p_nd : NoDup (map cp p);
  p_val : forall i j, In (i, j) (map cp p) -> M st i j = 1 \/ M st i j = 2;
  p_start : In (r0, c0) (map cp p);
  p_colstar : forall i j i', In (i, j) (map cp p) -> M st i j = 2 -> M st i' j = 1 ->
              In (i', j) (map cp p);
  p_rowstar : forall i j j', In (i, j) (map cp p) -> M st i j = 2 -> i <> r0 ->
              M st i j' = 1 -> In (i, j') (map cp p);
  p_starprime : forall i j, In (i, j) (map cp p) -> M st i j = 1 ->
                exists j', M st i j' = 2 /\ In (i, j') (map cp p);
  p_pcol : forall i i' j, In (i, j) (map cp p) -> In (i', j) (map cp p) ->
           M st i j = 2 -> M st i' j = 2 -> i = i';
  p_prow : forall i j, In (i, j) (map cp p) -> M st i j = 2 -> i <> r0 ->
           exists j', M st i j' = 1 }.

Lemma li_init : li [mkCell r0 (Z.of_nat c0)] r0 c0.
Proof.
  destruct (i_ex _ _ _ Hi r0 c0 eq_refl) as (H2 & Rr0 & Cc0 & Hns).
  constructor; cbn [map In]; rewrite ?cp_mk.
  - intros x [<-|[]]. simpl. lia.
  - apply NoDup_singleton.
  - intros i j [[= <- <-]|[]]. auto.
  - auto.
  - intros i j j' [[= <- <-]|[]]. done.
  - intros i j [[= <- <-]|[]]. congruence.
  - intros i i' j [E|[]] [E'|[]]. congruence.
  - auto.
  - intros i j [E|[]] _ Hne. done.
  - intros i j [[= <- <-]|[]]. done.
  - done.
Qed.

Lemma li_stop p r c :
  li p r c -> findStarInCol (masks st) (Z.of_nat c) = None -> path_ok p.
Proof.
  intros [] Hs. pose proof (findStarInCol_None _ _ Hs) as Hn.
  constructor; auto.
  2:{ intros i j Hij H2 Hi0. destruct (l_rank0 i j Hij H2 Hi0) as [Rr _].
      exact (i_rc _ _ _ Hi i Rr). }
  intros i j i' Hij H2 H1.
  destruct (decide ((i, j) = (r, c))) as [[= -> ->]|Hne].
  - by destruct (Hn i').
  - destruct (l_next0 i j Hij H2 Hne) as (i2 & H1' & Hin).
    by rewrite (b_scol _ Hb i' i2 j H1 H1').
Qed.

Lemma li_step p r c r' :
  li p r c -> findStarInCol (masks st) (Z.of_nat c) = Some r' ->
  exists c', findPrimeInRow (masks st) r' = Z.of_nat c' /\
    li (p ++ [mkCell r' (Z.of_nat c); mkCell r' (Z.of_nat c')]) r' c' /\
    r' <> r0 /\ rk r' < (if decide (r = r0) then count_true (rowCover st) else rk r).
Proof.
  intros L Hs. pose proof (findStarInCol_Some _ _ _ Hs) as Hr'c. fold (M st r' c) in Hr'c.
  destruct (i_ex _ _ _ Hi r0 c0 eq_refl) as (H2r0 & Rr0 & Cc0 & Hns).
  destruct L as [Lcol Lnd Lval Lst Lrs Lsp Lpc [Lin Lrc2] Lnx Lrk Lrc].
  assert (Cc : CC st c = false).
  { destruct (i_pr _ _ _ Hi r c Lrc2) as [[= -> ->]|[_ ?]]; done. }
  assert (Rr' : RC st r' = true).
  { rewrite (i_cs _ _ _ Hi r' c Hr'c), Cc. done. }
  destruct (i_rp _ _ _ Hi r' Rr') as [j2 Hj2].
  destruct (findPrimeInRow_spec _ _ _ Hj2) as (c' & Hfp & Hr'c').
  fold (M st r' c') in Hr'c'.
  assert (Hr'0 : r' <> r0) by (intros ->; congruence).
  assert (Hlt : rk r' < (if decide (r = r0) then count_true (rowCover st) else rk r)).
  { case_decide as Hr.
    - exact (i_rk _ _ _ Hi r' Rr').
    - apply (i_dec _ _ _ Hi r c r' Lrc2 (Lrc Hr) Hr'c). }
  assert (Hlt' : forall i j, In (i, j) (map cp p) -> M st i j = 2 -> i <> r0 -> rk r' < rk i).
  { intros i j Hij H2 Hi0. destruct (Lrk i j Hij H2 Hi0) as (_ & Hle & Hr).
    rewrite decide_False in Hlt by done. lia. }
  assert (Hcc' : c <> c') by (intros ->; congruence).
  exists c'. split; [done|]. split; [|done].
  assert (Hmap : map cp (p ++ [mkCell r' (Z.of_nat c); mkCell r' (Z.of_nat c')]) =
                 map cp p ++ [(r', c); (r', c')]).
  { rewrite map_app. cbn [map]. by rewrite !cp_mk. }
  (* the new prime is the only prime of its column on the path *)
  assert (Hnew : forall i, In (i, c') (map cp p) -> M st i c' = 2 -> False).
  { intros i Hic H2.
    destruct (decide ((i, c') = (r, c))) as [[= -> <-]|Hne]; [done|].
    destruct (Lnx i c' Hic H2 Hne) as (i2 & H1 & Hin2).
    pose proof (i_dec _ _ _ Hi r' c' i2 Hr'c' Rr' H1) as [_ Hlt2].
    destruct (Lsp i2 c' Hin2 H1) as (j3 & H2' & Hin3).
    assert (i2 <> r0) by (intros ->; exact (Hns c' H1)).
    pose proof (Hlt' i2 j3 Hin3 H2' ltac:(done)). lia. }
  constructor; rewrite ?Hmap.
  - intros x [Hx|[->| ->]]%in_snoc2; [auto| |]; simpl; lia.
  - apply NoDup_snoc2; [done| | |congruence].
    + intros Hin. destruct (Lsp r' c Hin Hr'c) as (j' & H2' & Hin').
      pose proof (Hlt' r' j' Hin' H2' Hr'0). lia.
    + intros Hin. pose proof (Hlt' r' c' Hin Hr'c' Hr'0). lia.
  - intros i j [Hij|[[= -> ->]|[= -> ->]]]%in_snoc2; auto.
  - apply in_snoc2. auto.
  - intros i j j' [Hij|[[= -> ->]|[= -> ->]]]%in_snoc2 H2 Hi0 H1; apply in_snoc2.
    + left. eauto.
    + congruence.
    + right. left. by rewrite (b_srow _ Hb r' j' c H1 Hr'c).
  - intros i j [Hij|[[= -> ->]|[= -> ->]]]%in_snoc2 H1.
    + destruct (Lsp i j Hij H1) as (j' & ? & ?). exists j'. rewrite in_snoc2. auto.
    + exists c'. rewrite in_snoc2. auto.
    + congruence.
  - intros i i' j [Hij|[[= -> ->]|[= -> ->]]]%in_snoc2
      [Hij'|[[-> Ej]%pair_equal_spec|[-> Ej]%pair_equal_spec]]%in_snoc2 H2 H2'; subst; try congruence.
    + eauto.
    + exfalso. eauto.
    + exfalso. eauto.
  - split; [apply in_snoc2; auto|done].
  - intros i j [Hij|[[= -> ->]|[= -> ->]]]%in_snoc2 H2 Hne.
    + destruct (decide ((i, j) = (r, c))) as [[= -> ->]|Hne'].
      * exists r'. rewrite in_snoc2. auto.
      * destruct (Lnx i j Hij H2 Hne') as (i' & ? & ?). exists i'. rewrite in_snoc2. auto.
    + congruence.
    + done.
  - intros i j [Hij|[[= -> ->]|[= -> ->]]]%in_snoc2 H2 Hi0.
    + destruct (Lrk i j Hij H2 Hi0) as (? & ? & ?). pose proof (Hlt' i j Hij H2 Hi0).
      split; [done|split; [lia|done]].
    + congruence.
    + split; [done|split; [lia|done]].
  - done.
Qed.

Lemma fap_loop_inv fuel p r c p' :
  li p r c -> fap_loop fuel (masks st) p (Z.of_nat c) = Some p' -> path_ok p'.
Proof.
  revert p r c. induction fuel as [|f IH]; intros p r c L E; [done|].
  simpl in E. destruct (findStarInCol (masks st) (Z.of_nat c)) as [r'|] eqn:Hs.
  - destruct (li_step p r c r' L Hs) as (c' & Hfp & L' & _). rewrite Hfp in E.
    exact (IH _ _ _ L' E).
  - injection E as <-. exact (li_stop p r c L Hs).
Qed.

Lemma fap_loop_total fuel p r c :
  li p r c -> (if decide (r = r0) then count_true (rowCover st) else rk r) < fuel ->
  exists p', fap_loop fuel (masks st) p (Z.of_nat c) = Some p'.
Proof.
  revert p r c. induction fuel as [|f IH]; intros p r c L Hf; [lia|].
  simpl. destruct (findStarInCol (masks st) (Z.of_nat c)) as [r'|] eqn:Hs; [|eauto].
  destruct (li_step p r c r' L Hs) as (c' & Hfp & L' & Hr' & Hlt). rewrite Hfp.
  apply (IH _ _ _ L'). rewrite decide_False by done. lia.
Qed.

End Path.

Lemma nth_map_d {A} (f : A -> A) l d k : f d = d -> nth k (map f l) d = f (nth k l d).
Proof. intros Hd. revert k; induction l as [|x l IH]; intros [|k]; simpl; auto. Qed.

Lemma mget_clear ms i j :
  mget 0 (map (map (fun v => if v =? 2 then 0 else v)) ms) i j =
  (if mget 0 ms i j =? 2 then 0 else mget 0 ms i j).
Proof. unfold mget. rewrite nth_map_d by done. by rewrite nth_map_d. Qed.

Lemma length_nth_clear ms k :
  length (nth k (map (map (fun v => if v =? 2 then 0 else v)) ms) []) = length (nth k ms []).
Proof. rewrite nth_map_d by done. apply length_map. Qed.

Lemma flip_fold p ms :
  (forall x, In x p -> (0 <= col x)%Z) -> NoDup (map cp p) ->
  length (fold_left flip_cell p ms) = length ms /\
  (forall k, length (nth k (fold_left flip_cell p ms) []) = length (nth k ms [])) /\
  forall i j, mget 0 (fold_left flip_cell p ms) i j =
    if decide (In (i, j) (map cp p) /\ i < length ms /\ j < length (nth i ms []))
    then (if mget 0 ms i j =? 1 then 0 else 1) else mget 0 ms i j.
Proof.
  revert ms. induction p as [|x p IH]; intros ms Hc Hnd.
  - split; [done|split; [done|]]. intros i j. rewrite decide_False; [done|].
    intros [[] _].
  - cbn [fold_left]. cbn [map] in Hnd. apply NoDup_cons in Hnd as [Hn Hnd].
    rewrite list_elem_of_In in Hn.
    assert (Hflip : flip_cell ms x = mset ms (row x) (Z.to_nat (col x))
              (if mget 0 ms (row x) (Z.to_nat (col x)) =? 1 then 0 else 1)).
    { unfold flip_cell. rewrite (proj2 (Z.ltb_ge _ _)); [done|]. apply Hc. by left. }
    destruct (IH (flip_cell ms x)) as (IH1 & IH2 & IH3);
      [intros; apply Hc; by right|done|].
    rewrite Hflip in IH1, IH2, IH3 |- *. rewrite length_mset in IH1.
    split; [done|split].
    + intros k. by rewrite IH2, length_nth_mset.
    + intros i j. rewrite IH3, length_mset, length_nth_mset, !mget_mset.
      unfold cp in Hn |- *. cbn [map In].
      repeat case_decide; destruct_and?; subst; try done; exfalso; naive_solver.
Qed.

(** Step 3: flip the augmenting path, clear the primes and the covers. *)
Lemma hstep3 fuel st rk r0 c0 :
  base st -> step st = 3 -> pathStart st = Some (r0, c0) -> inv2 st (Some (r0, c0)) rk ->
  (forall st', hstep fuel n st = Some st' -> hinv st' /\ meas st' < meas st) /\
  (n < fuel -> exists st', hstep fuel n st = Some st').
Proof.
  intros Hb Hs Hps Hi.
  destruct (i_ex _ _ _ Hi r0 c0 eq_refl) as (H2r0 & Rr0 & Cc0 & Hns).
  destruct (b_masks _ Hb) as [Hml Hmr].
  split.
  - intros st' E. unfold hstep in E. rewrite Hs, Hps in E.
    unfold findAugmentingPath in E. cbn [col] in E.
    destruct (fap_loop fuel (masks st) [mkCell r0 (Z.of_nat c0)] (Z.of_nat c0))
      as [p|] eqn:Ep; [|done].
    injection E as <-.
    pose proof (fap_loop_inv st r0 c0 rk Hb Hi fuel _ _ _ _ (li_init st r0 c0 rk Hi) Ep)
      as [Pcol Pnd Pval Pst Pcs Prs Psp Ppc Ppr].
    destruct (flip_fold p (masks st) Pcol Pnd) as (F1 & F2 & F3).
    set (ms' := map (map (fun v => if v =? 2 then 0 else v)) (fold_left flip_cell p (masks st))).
    assert (Hrange : forall i j, In (i, j) (map cp p) ->
              i < length (masks st) /\ j < length (nth i (masks st) [])).
    { intros i j Hij. destruct (b_mreal _ Hb i j) as [Hi' Hj'].
      { destruct (Pval i j Hij) as [E|E]; rewrite E; done. }
      rewrite Hml, Hmr by lia. lia. }
    assert (HM : forall i j, mget 0 ms' i j =
              if decide (In (i, j) (map cp p)) then (if M st i j =? 1 then 0 else 1)
              else (if M st i j =? 2 then 0 else M st i j)).
    { intros i j. unfold ms'. rewrite mget_clear, F3. unfold M.
      destruct (decide (In (i, j) (map cp p))) as [Hin|Hin].
      - rewrite decide_True by (split; [done|apply Hrange, Hin]).
        by destruct (mget 0 (masks st) i j =? 1).
      - rewrite decide_False by naive_solver. done. }
    assert (HM1 : forall i j, mget 0 ms' i j = 1 <->
              (In (i, j) (map cp p) /\ M st i j = 2) \/ (~ In (i, j) (map cp p) /\ M st i j = 1)).
    { intros i j. rewrite HM. case_decide as Hin.
      - destruct (Pval i j Hin) as [E|E]; rewrite E; simpl.
        + split; [intros; lia|intros [[_ ?]|[? _]]; [lia|contradiction]].
        + split; [intros; left; done|done].
      - destruct (Nat.eqb_spec (M st i j) 2).
        + split; [intros; lia|intros [[? _]|[_ ?]]; [contradiction|lia]].
        + split; [intros; right; split; [done|lia]|intros [[? _]|[_ ?]]; [contradiction|lia]]. }
    assert (HM2 : forall i j, mget 0 ms' i j <= 1).
    { intros i j. rewrite HM. pose proof (b_mle _ Hb i j). case_decide.
      - destruct (M st i j =? 1); lia.
      - destruct (Nat.eqb_spec (M st i j) 2); lia. }
    assert (Hbase : forall ps, base (mkHState (mat st) ms' (map (fun _ => false) (rowCover st))
                      (map (fun _ => false) (colCover st)) ps 1)).
    { intros ps. constructor; cbn [mat masks rowCover colCover].
      - exact (b_mat _ Hb).
      - split.
        + unfold ms'. rewrite length_map, F1. done.
        + intros i Hi'. unfold ms'. rewrite length_nth_clear, F2. by apply Hmr.
      - rewrite length_map. exact (b_rc _ Hb).
      - rewrite length_map. exact (b_cc _ Hb).
      - intros i j. apply (b_real _ Hb).
      - intros i j. apply (b_fake _ Hb).
      - intros i j Hne. rewrite M_mk in Hne.
        assert (E1 : mget 0 ms' i j = 1) by (pose proof (HM2 i j); lia).
        apply HM1 in E1 as [[_ E]|[_ E]]; apply (b_mreal _ Hb); lia.
      - intros i j. rewrite M_mk. pose proof (HM2 i j). lia.
      - intros i j j'. rewrite !M_mk.
        intros [[Pi Ei]|[Pi Ei]]%HM1 [[Pj Ej]|[Pj Ej]]%HM1.
        + exact (i_pu _ _ _ Hi i j j' Ei Ej).
        + destruct (decide (i = r0)) as [->|Hne]; [by destruct (Hns j')|].
          by destruct Pj; apply (Prs i j j').
        + destruct (decide (i = r0)) as [->|Hne]; [by destruct (Hns j)|].
          by destruct Pi; apply (Prs i j' j).
        + exact (b_srow _ Hb i j j' Ei Ej).
      - intros i i' j. rewrite !M_mk.
        intros [[Pi Ei]|[Pi Ei]]%HM1 [[Pj Ej]|[Pj Ej]]%HM1.
        + exact (Ppc i i' j Pi Pj Ei Ej).
        + by destruct Pj; apply (Pcs i j i').
        + by destruct Pi; apply (Pcs i' j i).
        + exact (b_scol _ Hb i i' j Ei Ej). }
    split.
    + split; [exact (Hbase _)|]. cbn [step]. split.
      * intros i j. rewrite M_mk. pose proof (HM2 i j). lia.
      * intros i. rewrite RC_mk. apply nth_map_const.
    + assert (HS : starred ms' = S (starred (masks st))).
      { unfold starred. apply (length_filter_add _ _ _ r0).
        - apply NoDup_seq.
        - apply in_seq. destruct (b_mreal _ Hb r0 c0) as [? _]; [rewrite H2r0; done|]. lia.
        - apply not_true_is_false. intros Hx.
          apply (starred_spec st r0 Hb) in Hx as [j Hj]. exact (Hns j Hj).
        - intros i _. apply Bool.eq_iff_eq_true. rewrite orb_true_iff, Nat.eqb_eq.
          pose proof (starred_spec _ i (Hbase None)) as S1. cbn [masks] in S1.
          setoid_rewrite M_mk in S1. rewrite S1, (starred_spec st i Hb).
          split.
          * intros [j [[Pij Ej]|[Pij Ej]]%HM1].
            -- destruct (decide (i = r0)) as [|Hne]; [right; done|left].
               exact (Ppr i j Pij Ej Hne).
            -- left; eauto.
          * intros [[j Ej]| ->].
            -- destruct (decide (In (i, j) (map cp p))) as [Pij|Pij].
               ++ destruct (Psp i j Pij Ej) as (j' & E' & P'). exists j'. apply HM1. by left.
               ++ exists j. apply HM1. by right.
            -- exists c0. apply HM1. by left. }
      unfold meas. rewrite Hs. cbn [step masks]. rewrite HS.
      pose proof (starred_le ms'). nia.
  - intros Hf. unfold hstep. rewrite Hs, Hps. unfold findAugmentingPath. cbn [col].
    destruct (fap_loop_total st r0 c0 rk Hb Hi fuel _ _ _ (li_init st r0 c0 rk Hi)) as [p Ep].
    { rewrite decide_True by done. pose proof (count_true_le (rowCover st)) as Hle.
      rewrite (b_rc _ Hb) in Hle. lia. }
    rewrite Ep. eauto.
Qed.

(** *** The whole step machine *)

Lemma hinv_step fuel st st' :
  hinv st -> step st <> 0 -> hstep fuel n st = Some st' -> hinv st' /\ meas st' < meas st.
Proof.
  intros [Hb Hk] H0 E.
  destruct (step st) as [|[|[|[|[|[|[|k]]]]]]] eqn:Hs; try done.
  - destruct Hk as [Hnp Hrc].
    destruct (hstep1 fuel st Hb Hs Hnp Hrc) as (st'' & E' & H'). congruence.
  - destruct Hk as [rk Hi].
    destruct (hstep2 fuel st rk Hb Hs Hi) as (st'' & E' & H'). congruence.
  - destruct Hk as (rk & r & c & Hps & Hi).
    exact (proj1 (hstep3 fuel st rk r c Hb Hs Hps Hi) st' E).
  - destruct Hk as [rk Hi].
    destruct (hstep6 fuel st rk Hb Hs Hi) as (st'' & E' & H'). congruence.
Qed.

Lemma hstep_total fuel st :
  hinv st -> step st <> 0 -> n < fuel -> exists st', hstep fuel n st = Some st'.
Proof.
  intros [Hb Hk] H0 Hf.
  destruct (step st) as [|[|[|[|[|[|[|k]]]]]]] eqn:Hs; try done.
  - destruct Hk as [Hnp Hrc].
    destruct (hstep1 fuel st Hb Hs Hnp Hrc) as (st'' & E' & H'). eauto.
  - destruct Hk as [rk Hi].
    destruct (hstep2 fuel st rk Hb Hs Hi) as (st'' & E' & H'). eauto.
  - destruct Hk as (rk & r & c & Hps & Hi).
    exact (proj2 (hstep3 fuel st rk r c Hb Hs Hps Hi) Hf).
  - destruct Hk as [rk Hi].
    destruct (hstep6 fuel st rk Hb Hs Hi) as (st'' & E' & H'). eauto.
Qed.

Lemma run_inv fuel st st' : hinv st -> run fuel n st = Some st' -> hinv st' /\ step st' = 0.
Proof.
  revert st. induction fuel as [|f IH]; intros st H E; [done|]. simpl in E.
  destruct (Nat.eqb_spec (step st) 0) as [Hs|Hs].
  - injection E as <-. done.
  - destruct (hstep (S f) n st) as [st1|] eqn:E1; [|done].
    apply (IH st1); [|done]. exact (proj1 (hinv_step _ _ _ H Hs E1)).
Qed.

Lemma run_total fuel st : hinv st -> meas st + n < fuel -> exists st', run fuel n st = Some st'.
Proof.
  revert st. induction fuel as [|f IH]; intros st H Hf; [lia|]. simpl.
  destruct (Nat.eqb_spec (step st) 0) as [Hs|Hs]; [eauto|].
  destruct (hstep_total (S f) st H Hs ltac:(lia)) as [st1 E1]. rewrite E1.
  destruct (hinv_step _ _ _ H Hs E1) as [H1 Hm]. apply IH; [done|lia].
Qed.

End Invariants.

(** The result does not depend on the fuel, once it suffices. *)
Lemma fap_loop_det f1 f2 ms p c p1 p2 :
  fap_loop f1 ms p c = Some p1 -> fap_loop f2 ms p c = Some p2 -> p1 = p2.
Proof.
  revert f2 p c. induction f1 as [|f1 IH]; intros [|f2] p c E1 E2; try done.
  simpl in E1, E2. destruct (findStarInCol ms c); [eauto|congruence].
Qed.

Lemma hstep_det f1 f2 n st s1 s2 :
  hstep f1 n st = Some s1 -> hstep f2 n st = Some s2 -> s1 = s2.
Proof.
  unfold hstep. destruct (step st) as [|[|[|[|[|[|[|k]]]]]]]; try congruence.
  destruct (pathStart st) as [[r c]|]; [|done]. unfold findAugmentingPath.
  destruct (fap_loop f1 _ _ _) as [p1|] eqn:E1; [|done].
  destruct (fap_loop f2 _ _ _) as [p2|] eqn:E2; [|done].
  rewrite (fap_loop_det _ _ _ _ _ _ _ E1 E2). congruence.
Qed.

Lemma run_det f1 f2 n st s1 s2 : run f1 n st = Some s1 -> run f2 n st = Some s2 -> s1 = s2.
Proof.
  revert f2 st. induction f1 as [|f1 IH]; intros [|f2] st E1 E2; try done.
  simpl in E1, E2. destruct (step st =? 0); [congruence|].
  destruct (hstep (S f1) n st) as [a|] eqn:Ea; [|done].
  destruct (hstep (S f2) n st) as [b|] eqn:Eb; [|done].
  rewrite (hstep_det _ _ _ _ _ _ Ea Eb) in E1. eauto.
Qed.

Lemma hungarian_det f1 f2 cm o1 o2 :
  hungarian f1 cm = Some o1 -> hungarian f2 cm = Some o2 -> o1 = o2.
Proof.
  unfold hungarian.
  destruct (run f1 _ _) as [s1|] eqn:E1; [|done].
  destruct (run f2 _ _) as [s2|] eqn:E2; [|done].
  rewrite (run_det _ _ _ _ _ _ E1 E2). congruence.
Qed.


(** *** The initial state *)

Lemma fold_left_inv {A B} (P : A -> Prop) (f : A -> B -> A) l a :
  P a -> (forall a b, In b l -> P a -> P (f a b)) -> P (fold_left f l a).
Proof.
  revert a. induction l as [|x l IH]; intros a Ha Hf; simpl; [done|].
  apply IH; [apply Hf; [left|]; done|]. intros; apply Hf; [right|]; done.
Qed.

(** Finite, infinite or undefined. *)
Definition kind (x : num) : nat := match x with Fin _ => 0 | Inf => 1 | NaN => 2 end.

Definition same_shape (a b : list (list num)) : Prop :=
  length a = length b /\ (forall i, length (nth i a []) = length (nth i b [])) /\
  forall i j, kind (mget NaN a i j) = kind (mget NaN b i j).

Lemma same_shape_refl a : same_shape a a.
Proof. done. Qed.

Lemma same_shape_trans a b c : same_shape a b -> same_shape b c -> same_shape a c.
Proof.
  intros (H1 & H2 & H3) (H1' & H2' & H3'). split; [congruence|split]; intros; congruence.
Qed.

Lemma reduce_row_shape r :
  length (reduce_row r) = length r /\
  forall j, kind (nth j (reduce_row r) NaN) = kind (nth j r NaN).
Proof.
  unfold reduce_row. destruct (min_finite r) as [q| |]; [|done|done].
  rewrite length_map. split; [done|]. intros j.
  rewrite (nth_map_d (fun x => if isFinite x then num_sub_q x q else x)) by done.
  by destruct (nth j r NaN).
Qed.

Lemma reduce_rows_shape n mat : same_shape (reduce_rows n mat) mat.
Proof.
  unfold reduce_rows. apply (fold_left_inv (fun a => same_shape a mat)); [done|].
  intros a i _ Ha. eapply same_shape_trans; [|exact Ha].
  destruct (reduce_row_shape (nth i a [])) as [L K].
  split; [apply length_insert|split].
  - intros k. rewrite nth_insert_gen. case_decide as Hk; [|done].
    destruct Hk as [-> _]. done.
  - intros k j. unfold mget. rewrite nth_insert_gen. case_decide as Hk; [|done].
    destruct Hk as [-> _]. apply K.
Qed.

Lemma reduce_col_shape mat j : same_shape (reduce_col mat j) mat.
Proof.
  unfold reduce_col. destruct (min_finite _) as [q| |]; [|done|done].
  set (g := fun r : list num => let x := nth j r NaN in
              if isFinite x then <[j := num_sub_q x q]> r else r).
  assert (Hg : forall k, nth k (map g mat) [] = g (nth k mat [])).
  { intros k. apply nth_map_d. unfold g. by destruct j. }
  split; [apply length_map|split].
  - intros k. rewrite Hg. unfold g. cbv zeta. destruct (isFinite _); [apply length_insert|done].
  - intros k j'. unfold mget. rewrite Hg. unfold g. cbv zeta.
    destruct (isFinite (nth j (nth k mat []) NaN)) eqn:Ef; [|done].
    rewrite nth_insert_gen. case_decide as Hj; [|done].
    destruct Hj as [-> _]. by destruct (nth j (nth k mat []) NaN).
Qed.

Lemma reduce_cols_shape n mat : same_shape (reduce_cols n mat) mat.
Proof.
  unfold reduce_cols. apply (fold_left_inv (fun a => same_shape a mat)); [done|].
  intros a j _ Ha. eapply same_shape_trans; [apply reduce_col_shape|exact Ha].
Qed.

Definition rectangular (cm : list (list Q)) : Prop :=
  forall r, In r cm -> length r = cols0 cm.

Lemma nth_map_seq {A} (f : nat -> A) n k d : k < n -> nth k (map f (seq 0 n)) d = f k.
Proof.
  intros Hk. rewrite (nth_indep _ d (f 0)) by (rewrite length_map, length_seq; lia).
  rewrite map_nth, seq_nth by done. done.
Qed.

Lemma pad_spec cm n :
  rectangular cm -> length cm <= n -> cols0 cm <= n ->
  square n (pad cm n) /\
  forall i j, i < n -> j < n ->
    kind (mget NaN (pad cm n) i j) = if decide (i < length cm /\ j < cols0 cm) then 0 else 1.
Proof.
  intros Hr Hm Hc. unfold pad. split; [split|].
  - by rewrite length_map, length_seq.
  - intros i Hi. rewrite nth_map_seq by done. by rewrite length_map, length_seq.
  - intros i j Hi Hj. unfold mget. rewrite !nth_map_seq by done.
    case_decide as Hij.
    + destruct Hij as [Hi' Hj']. rewrite (proj2 (Nat.ltb_lt _ _) Hi'), (proj2 (Nat.ltb_lt _ _) Hj').
      simpl. unfold read. destruct (lookup_lt_is_Some_2 cm i Hi') as [r Er]. rewrite Er.
      assert (Lr : length r = cols0 cm).
      { apply Hr, list_elem_of_In. exact (list_elem_of_lookup_2 _ _ _ Er). }
      destruct (lookup_lt_is_Some_2 r j ltac:(lia)) as [q Eq]. by rewrite Eq.
    + destruct (Nat.ltb_spec i (length cm)), (Nat.ltb_spec j (cols0 cm)); simpl; try done;
        exfalso; lia.
Qed.


Lemma nth_repeat_gen {A} (x d : A) k i : nth i (repeat x k) d = if decide (i < k) then x else d.
Proof.
  revert i. induction k as [|k IH]; intros [|i]; simpl; try done.
  rewrite IH. repeat case_decide; done || lia.
Qed.

Definition star_inv (n : nat) (mat : list (list num))
    (s : list (list nat) * list bool * list bool) : Prop :=
  let '(ms, rc, cc) := s in
  square n ms /\ length rc = n /\ length cc = n /\
  (forall i j, mget 0 ms i j = 0 \/ (mget 0 ms i j = 1 /\ is_zero (mget NaN mat i j) = true)) /\
  (forall i, nth i rc false = true <-> exists j, mget 0 ms i j = 1) /\
  (forall j, nth j cc false = true <-> exists i, mget 0 ms i j = 1) /\
  (forall i j j', mget 0 ms i j = 1 -> mget 0 ms i j' = 1 -> j = j') /\
  (forall i i' j, mget 0 ms i j = 1 -> mget 0 ms i' j = 1 -> i = i').

Lemma star_inv_init n mat : star_inv n mat (repeat (repeat 0 n) n, repeat false n, repeat false n).
Proof.
  assert (H0 : forall i j, mget 0 (repeat (repeat 0 n) n) i j = 0).
  { intros i j. unfold mget. rewrite nth_repeat_gen. case_decide.
    - rewrite nth_repeat_gen. by case_decide.
    - by destruct j. }
  assert (Hf : forall i, nth i (repeat false n) false = false).
  { intros i. rewrite nth_repeat_gen. by case_decide. }
  simpl. split; [split|].
  { apply repeat_length. }
  { intros i Hi. rewrite nth_repeat_gen, decide_True by done. apply repeat_length. }
  rewrite !repeat_length. split_and!; try done.
  - intros i j. left. apply H0.
  - intros i. rewrite Hf. split; [done|]. intros [j Hj]. by rewrite H0 in Hj.
  - intros j. rewrite Hf. split; [done|]. intros [i Hi]. by rewrite H0 in Hi.
  - intros i j j' Hj. by rewrite H0 in Hj.
  - intros i i' j Hi. by rewrite H0 in Hi.
Qed.

Lemma star_cell_inv n mat s i j :
  i < n -> j < n -> star_inv n mat s -> star_inv n mat (star_cell mat s i j).
Proof.
  intros Hi Hj. destruct s as [[ms rc] cc]. unfold star_cell.
  destruct (is_zero _ && _ && _) eqn:E; [|done].
  apply andb_true_iff in E as [[Ez Er]%andb_true_iff Ec].
  apply negb_true_iff in Er, Ec.
  intros ([Lm Lrow] & Lr & Lc & V & R & C & SR & SC).
  assert (HM : forall i' j', mget 0 (mset ms i j 1) i' j' =
             if decide (i' = i /\ j' = j) then 1 else mget 0 ms i' j').
  { intros i' j'. rewrite mget_mset, Lm, Lrow by done.
    destruct (decide (i' = i /\ j' = j)) as [[-> ->]|Hne].
    - rewrite decide_True; [done|]. split_and!; done.
    - rewrite decide_False; [done|]. naive_solver. }
  split; [split|].
  { by rewrite length_mset. }
  { intros k Hk. rewrite length_nth_mset. by apply Lrow. }
  rewrite !length_insert. split_and!; try done.
  - intros i' j'. rewrite HM. case_decide as Hij; [|apply V].
    destruct Hij as [-> ->]. right. done.
  - intros i'. rewrite nth_insert_gen, Lr. setoid_rewrite HM. case_decide as Hi'.
    + destruct Hi' as [-> _]. split; [|done]. intros _. exists j. by rewrite decide_True.
    + rewrite R. split; intros [j' Hj']; exists j'.
      * rewrite decide_False; [done|naive_solver].
      * revert Hj'. case_decide; [exfalso; naive_solver|done].
  - intros j'. rewrite nth_insert_gen, Lc. setoid_rewrite HM. case_decide as Hj'.
    + destruct Hj' as [-> _]. split; [|done]. intros _. exists i. by rewrite decide_True.
    + rewrite C. split; intros [i' Hi']; exists i'.
      * rewrite decide_False; [done|naive_solver].
      * revert Hi'. case_decide; [exfalso; naive_solver|done].
  - intros i' j1 j2. rewrite !HM. case_decide as A; case_decide as B; intros H1 H2.
    + destruct A, B. congruence.
    + destruct A as [-> ->]. assert (nth i rc false = true) by (apply R; eauto). congruence.
    + destruct B as [-> ->]. assert (nth i rc false = true) by (apply R; eauto). congruence.
    + eauto.
  - intros i1 i2 j'. rewrite !HM. case_decide as A; case_decide as B; intros H1 H2.
    + destruct A, B. congruence.
    + destruct A as [-> ->]. assert (nth j cc false = true) by (apply C; eauto). congruence.
    + destruct B as [-> ->]. assert (nth j cc false = true) by (apply C; eauto). congruence.
    + eauto.
Qed.

Lemma initial_stars_spec n mat :
  exists rc cc, star_inv n mat (initial_stars n mat, rc, cc).
Proof.
  unfold initial_stars.
  match goal with |- context [fold_left ?f ?l ?a] =>
    assert (Hs : star_inv n mat (fold_left f l a)) end.
  { apply fold_left_inv; [apply star_inv_init|].
    intros s i Hi%in_seq Hs. apply fold_left_inv; [done|].
    intros s' j Hj%in_seq Hs'. apply star_cell_inv; [lia|lia|done]. }
  destruct (fold_left _ _ _) as [[ms rc] cc]. eauto.
Qed.


Lemma init_hinv cm : rectangular cm -> hinv (length cm) (cols0 cm) (init_state cm).
Proof.
  intros Hr. unfold init_state. set (n := Nat.max (length cm) (cols0 cm)).
  set (m0 := reduce_cols n (reduce_rows n (pad cm n))).
  destruct (pad_spec cm n Hr ltac:(lia) ltac:(lia)) as [[Pl Pr] Pk].
  assert (Sh : same_shape m0 (pad cm n)).
  { eapply same_shape_trans; [apply reduce_cols_shape|apply reduce_rows_shape]. }
  destruct Sh as (S1 & S2 & S3).
  assert (Hk : forall i j, i < n -> j < n -> kind (mget NaN m0 i j) =
             if decide (i < length cm /\ j < cols0 cm) then 0 else 1).
  { intros i j Hi Hj. rewrite S3. by apply Pk. }
  assert (Hm0 : square n m0).
  { split; [congruence|]. intros i Hi. rewrite S2. by apply Pr. }
  destruct (initial_stars_spec n m0) as (rc & cc & [Ml Mr] & _ & _ & V & _ & _ & SR & SC).
  assert (Hz : forall i j, is_zero (mget NaN m0 i j) = true -> i < length cm /\ j < cols0 cm).
  { intros i j Hz. destruct (decide (i < n)) as [Hi|Hi].
    2:{ unfold mget in Hz. rewrite (@nth_overflow _ m0 i) in Hz by (destruct Hm0; lia). by destruct j; simpl in Hz. }
    destruct (decide (j < n)) as [Hj|Hj].
    2:{ unfold mget in Hz. rewrite nth_overflow in Hz; [simpl in Hz; done|]. rewrite (proj2 Hm0) by done. lia. }
    pose proof (Hk i j Hi Hj) as K. case_decide; [done|]. by destruct (mget NaN m0 i j). }
  split.
  - constructor; unfold M, X; cbn [mat masks rowCover colCover].
    + done.
    + by split.
    + apply repeat_length.
    + apply repeat_length.
    + intros i j Hi Hj. pose proof (Hk i j ltac:(lia) ltac:(lia)) as K.
      rewrite decide_True in K by done. by destruct (mget NaN m0 i j).
    + intros i j Hi Hj Hn. pose proof (Hk i j Hi Hj) as K.
      rewrite decide_False in K by done. by destruct (mget NaN m0 i j).
    + intros i j Hne. destruct (V i j) as [|[_ Hz']]; [done|]. apply Hz, Hz'.
    + intros i j. destruct (V i j) as [->|[-> _]]; lia.
    + exact SR.
    + exact SC.
  - cbn [step]. split.
    + intros i j. unfold M. cbn [masks]. destruct (V i j) as [->|[-> _]]; done.
    + intros i. unfold RC. cbn [rowCover]. rewrite nth_repeat_gen. by case_decide.
Qed.


(** *** The result read off the final masks *)

(** The starred cells of the [m x nc] input, in row-major order. *)
Definition stars_list (ms : list (list nat)) (m nc : nat) : list Assignment :=
  flat_map (fun i => map (fun j => mkAssignment i j)
                       (List.filter (fun j => mget 0 ms i j =? 1) (seq 0 nc))) (seq 0 m).

(** [totalCost += costMatrix[i][j]] over the assignments. *)
Definition cost_of (cm : list (list Q)) (acc : Q) (a : Assignment) : Q :=
  (acc + nth (passenger a) (nth (driver a) cm []) 0)%Q.

Lemma extract_eq cm ms :
  extract cm ms = mkOutput (stars_list ms (length cm) (cols0 cm))
                    (fold_left (cost_of cm) (stars_list ms (length cm) (cols0 cm)) 0%Q).
Proof.
  unfold extract, stars_list.
  assert (Hin : forall i l acc,
    fold_left (fun acc j => if mget 0 ms i j =? 1
        then mkOutput (assignments acc ++ [mkAssignment i j])
                      (totalCost acc + nth j (nth i cm []) 0)%Q
        else acc) l acc =
    mkOutput (assignments acc ++ map (fun j => mkAssignment i j)
                                  (List.filter (fun j => mget 0 ms i j =? 1) l))
             (fold_left (cost_of cm) (map (fun j => mkAssignment i j)
                (List.filter (fun j => mget 0 ms i j =? 1) l)) (totalCost acc))).
  { intros i l. induction l as [|j l IH]; intros [a t]; simpl.
    - by rewrite app_nil_r.
    - destruct (mget 0 ms i j =? 1); simpl; rewrite IH; simpl; [|done].
      by rewrite <- app_assoc. }
  assert (Hout : forall l acc,
    fold_left (fun acc i =>
      fold_left (fun acc j => if mget 0 ms i j =? 1
        then mkOutput (assignments acc ++ [mkAssignment i j])
                      (totalCost acc + nth j (nth i cm []) 0)%Q
        else acc) (seq 0 (cols0 cm)) acc) l acc =
    mkOutput (assignments acc ++ flat_map (fun i => map (fun j => mkAssignment i j)
                (List.filter (fun j => mget 0 ms i j =? 1) (seq 0 (cols0 cm)))) l)
             (fold_left (cost_of cm) (flat_map (fun i => map (fun j => mkAssignment i j)
                (List.filter (fun j => mget 0 ms i j =? 1) (seq 0 (cols0 cm)))) l)
                (totalCost acc))).
  { induction l as [|i l IH]; intros [a t]; simpl.
    - by rewrite app_nil_r.
    - rewrite Hin, IH. simpl. by rewrite app_assoc, fold_left_app. }
  apply Hout.
Qed.


Lemma stars_list_In ms m nc a :
  In a (stars_list ms m nc) <->
  driver a < m /\ passenger a < nc /\ mget 0 ms (driver a) (passenger a) = 1.
Proof.
  unfold stars_list. rewrite in_flat_map. split.
  - intros (i & Hi%in_seq & Ha). apply in_map_iff in Ha as (j & <- & Hj).
    apply filter_In in Hj as [Hj%in_seq E%Nat.eqb_eq]. simpl. split_and!; [lia|lia|done].
  - destruct a as [i j]; simpl. intros (Hi & Hj & E). exists i. split; [apply in_seq; lia|].
    apply in_map_iff. exists j. split; [done|]. apply filter_In.
    split; [apply in_seq; lia|by apply Nat.eqb_eq].
Qed.

Lemma stars_list_NoDup ms m nc : List.NoDup (stars_list ms m nc).
Proof.
  unfold stars_list.
  set (blk := fun i => map (fun j => mkAssignment i j)
                (List.filter (fun j => mget 0 ms i j =? 1) (seq 0 nc))).
  enough (H : forall s, List.NoDup (flat_map blk (seq s m))) by apply H.
  induction m as [|m IH]; intros s; simpl; [constructor|].
  apply List.NoDup_app; [|apply IH|].
  - apply NoDup_map_NoDup_ForallPairs.
    + intros j j' _ _ E. by injection E.
    + apply List.NoDup_filter, seq_NoDup.
  - intros a Ha Ha'. unfold blk in Ha. apply in_map_iff in Ha as (j & <- & _).
    apply in_flat_map in Ha' as (i & Hi%in_seq & Ha'). unfold blk in Ha'.
    apply in_map_iff in Ha' as (j' & E & _). injection E as E _. lia.
Qed.

Lemma NoDup_incl_seq (l : list nat) k : List.NoDup l -> (forall x, In x l -> x < k) -> length l <= k.
Proof.
  intros Hl Hk. rewrite <- (length_seq k 0). apply NoDup_incl_length; [done|].
  intros x Hx. apply in_seq. specialize (Hk x Hx). lia.
Qed.

(** At the exit of the loop, the stars of the real cells number [min m nc],
    one per row and one per column. *)
Lemma exit_stars m nc st :
  hinv m nc st -> step st = 0 ->
  let L := stars_list (masks st) m nc in
  length L = Nat.min m nc /\ List.NoDup (map driver L) /\ List.NoDup (map passenger L).
Proof.
  intros [Hb Hk] Hs L. rewrite Hs in Hk.
  assert (HL : forall a, In a L <-> driver a < m /\ passenger a < nc /\ M st (driver a) (passenger a) = 1)
    by apply stars_list_In.
  assert (Nd : List.NoDup (map driver L)).
  { apply NoDup_map_NoDup_ForallPairs; [|apply stars_list_NoDup].
    intros [i j] [i' j'] (_ & _ & E1)%HL (_ & _ & E2)%HL. simpl in *. intros <-.
    by rewrite (b_srow _ _ _ Hb i j j' E1 E2). }
  assert (Np : List.NoDup (map passenger L)).
  { apply NoDup_map_NoDup_ForallPairs; [|apply stars_list_NoDup].
    intros [i j] [i' j'] (_ & _ & E1)%HL (_ & _ & E2)%HL. simpl in *. intros <-.
    by rewrite (b_scol _ _ _ Hb i i' j E1 E2). }
  assert (Ud : length L <= m).
  { rewrite <- (length_map driver L). apply NoDup_incl_seq; [done|].
    intros x (a & <- & Ha%HL)%in_map_iff. apply Ha. }
  assert (Up : length L <= nc).
  { rewrite <- (length_map passenger L). apply NoDup_incl_seq; [done|].
    intros x (a & <- & Ha%HL)%in_map_iff. apply Ha. }
  assert (Hrow : (forall i, i < m -> exists j, M st i j = 1) -> m <= length L).
  { intros H. rewrite <- (length_map driver L), <- (length_seq m 0).
    apply NoDup_incl_length; [apply seq_NoDup|]. intros i Hi%in_seq.
    destruct (H i ltac:(lia)) as [j Hj]. apply in_map_iff. exists (mkAssignment i j).
    split; [done|]. apply HL. simpl. destruct (b_mreal _ _ _ Hb i j); [lia|]. lia. }
  assert (Hcol : (forall j, j < nc -> exists i, M st i j = 1) -> nc <= length L).
  { intros H. rewrite <- (length_map passenger L), <- (length_seq nc 0).
    apply NoDup_incl_length; [apply seq_NoDup|]. intros j Hj%in_seq.
    destruct (H j ltac:(lia)) as [i Hi]. apply in_map_iff. exists (mkAssignment i j).
    split; [done|]. apply HL. simpl. destruct (b_mreal _ _ _ Hb i j); [lia|]. lia. }
  split; [|done].
  destruct Hk as [Hall|[Einf [rk Hi]]].
  - assert (nc <= length L); [|lia]. apply Hcol. intros j Hj. apply Hall. lia.
  - destruct (fmv_spec (mat st) (rowCover st) (colCover st) (base_nonan _ _ _ Hb))
      as [[_ Hinf]|(q & _ & _ & E & _)]; [|congruence].
    destruct (b_mat _ _ _ Hb) as [Hml Hmr].
    destruct (existsb (fun i => negb (RC st i)) (seq 0 m)) eqn:Ex.
    + apply existsb_exists in Ex as (i0 & Hi0%in_seq & Ri0%negb_true_iff).
      assert (nc <= length L); [|lia]. apply Hcol. intros j Hj.
      destruct (CC st j) eqn:Cj; [exact (i_cc _ _ _ Hi j Cj)|].
      exfalso. pose proof (b_real _ _ _ Hb i0 j ltac:(lia) Hj) as Hf.
      unfold X in Hf. rewrite Hinf in Hf; [done| |rewrite Hmr| |]; try lia; done.
    + assert (m <= length L); [|lia]. apply Hrow. intros i Him.
      apply (i_rc _ _ _ Hi). destruct (RC st i) eqn:Ri; [done|].
      exfalso. assert (existsb (fun i => negb (RC st i)) (seq 0 m) = true) as E; [|congruence].
      apply existsb_exists. exists i. split; [apply in_seq; lia|by rewrite Ri].
Qed.


(** *** Runs from the initial state *)

Lemma init_run_total cm fuel :
  rectangular cm ->
  let n := Nat.max (length cm) (cols0 cm) in
  (n + 2) * (3 * n + 4) + n <= fuel ->
  exists st, run fuel n (init_state cm) = Some st.
Proof.
  intros Hr. cbv zeta. intros Hf.
  apply (run_total (length cm) (cols0 cm)); [by apply init_hinv|].
  unfold meas. cbn [init_state step].
  set (n := Nat.max (length cm) (cols0 cm)) in *.
  set (K := n + 1 - starred _ _ _).
  assert (K <= n + 1) by (unfold K; lia). nia.
Qed.

Lemma init_run_exit cm fuel st :
  rectangular cm ->
  run fuel (Nat.max (length cm) (cols0 cm)) (init_state cm) = Some st ->
  hinv (length cm) (cols0 cm) st /\ step st = 0.
Proof. intros Hr E. exact (run_inv _ _ _ _ _ (init_hinv cm Hr) E). Qed.

Lemma hungarian_total cm fuel :
  rectangular cm ->
  let n := Nat.max (length cm) (cols0 cm) in
  (n + 2) * (3 * n + 4) + n <= fuel ->
  exists out, hungarian fuel cm = Some out.
Proof.
  intros Hr. cbv zeta. intros Hf. destruct (init_run_total cm fuel Hr Hf) as [st E].
  unfold hungarian. rewrite E. eauto.
Qed.

Lemma hungarian_output cm fuel out :
  rectangular cm -> hungarian fuel cm = Some out ->
  length (assignments out) = Nat.min (length cm) (cols0 cm) /\
  List.NoDup (map driver (assignments out)) /\
  List.NoDup (map passenger (assignments out)) /\
  (forall a, In a (assignments out) -> driver a < length cm /\ passenger a < cols0 cm) /\
  totalCost out = fold_left (cost_of cm) (assignments out) 0%Q.
Proof.
  intros Hr E. unfold hungarian in E.
  destruct (run _ _ _) as [st|] eqn:Er; [|done]. injection E as <-.
  destruct (init_run_exit cm fuel st Hr Er) as [Hi Hs].
  destruct (exit_stars _ _ _ Hi Hs) as (Hl & Nd & Np).
  rewrite extract_eq. cbn [assignments totalCost]. split_and!; try done.
  intros a (? & ? & _)%stars_list_In. done.
Qed.


(** *** Claims *)

(** C5: for every rectangular matrix the loop of the step machine
    terminates: from the initial state it reaches step 0 within
    [(n+2)(3n+4)+n] iterations ([n] the padded size), and it stops only
    when every column is covered and holds a star, or when no finite
    uncovered value remains. *)
Theorem hungarian_terminates cm :
  rectangular cm ->
  let n := Nat.max (length cm) (cols0 cm) in
  (forall fuel, (n + 2) * (3 * n + 4) + n <= fuel ->
     exists st, run fuel n (init_state cm) = Some st) /\
  (forall fuel st, run fuel n (init_state cm) = Some st ->
     step st = 0 /\
     ((forall j, j < n -> nth j (colCover st) false = true /\
                          exists i, mget 0 (masks st) i j = 1) \/
      findMinUncoveredValue (mat st) (rowCover st) (colCover st) = Inf)).
Proof.
  intros Hr. cbv zeta. split.
  - intros fuel Hf. exact (init_run_total cm fuel Hr Hf).
  - intros fuel st E. destruct (init_run_exit cm fuel st Hr E) as [[_ Hk] Hs].
    rewrite Hs in Hk. split; [done|]. destruct Hk as [Hc|[Hc _]]; [left|right]; done.
Qed.

Lemma hungarian_terminates_witness :
  exists st, run 100 2 (init_state [[2; 1]]%Q) = Some st.
Proof.
  refine (proj1 (hungarian_terminates [[2; 1]]%Q _) 100 _).
  - intros r [<-|[]]. reflexivity.
  - vm_compute. lia.
Defined.

(** C2: for every rectangular matrix, [hungarian] returns (given enough
    fuel), and every result has exactly [min(m, n)] assignments, no row
    and no column twice, every index inside the input, and a total cost
    that is the sum of the input entries at the assigned cells. *)
Theorem hungarian_feasible cm :
  rectangular cm ->
  (exists fuel out, hungarian fuel cm = Some out) /\
  forall fuel out, hungarian fuel cm = Some out ->
    length (assignments out) = Nat.min (length cm) (cols0 cm) /\
    List.NoDup (map driver (assignments out)) /\
    List.NoDup (map passenger (assignments out)) /\
    (forall a, In a (assignments out) -> driver a < length cm /\ passenger a < cols0 cm) /\
    totalCost out =
      fold_left (fun acc a => acc + nth (passenger a) (nth (driver a) cm []) 0)%Q
        (assignments out) 0%Q.
Proof.
  intros Hr. split.
  - eexists. exact (hungarian_total cm _ Hr (le_n _)).
  - intros fuel out E. exact (hungarian_output cm fuel out Hr E).
Qed.

Lemma hungarian_feasible_witness : exists fuel out, hungarian fuel [[2; 1]; [3; 4]]%Q = Some out.
Proof.
  refine (proj1 (hungarian_feasible [[2; 1]; [3; 4]]%Q _)).
  intros r [<-|[<-|[]]]; reflexivity.
Defined.

(** C1: the result is not always of minimum cost.  On the 1 x 2 matrix
    [[2, 1]] the padded row of [Infinity] leaves no finite uncovered value
    after the first prime, the loop stops, and [hungarian] assigns row 0
    to column 0 at cost 2, while the assignment of row 0 to column 1 has
    cost 1. *)
Theorem hungarian_suboptimal_1x2 :
  (exists fuel out, hungarian fuel [[2; 1]]%Q = Some out) /\
  forall fuel out, hungarian fuel [[2; 1]]%Q = Some out ->
    assignments out = [mkAssignment 0 0] /\ totalCost out = 2%Q /\
    (nth 1 (nth 0 [[2; 1]]%Q []) 0 < totalCost out)%Q.
Proof.
  assert (E : hungarian 10 [[2; 1]]%Q = Some (mkOutput [mkAssignment 0 0] 2%Q))
    by (vm_compute; reflexivity).
  split; [eauto|]. intros fuel out E'. rewrite (hungarian_det _ _ _ _ _ E' E). simpl.
  split_and!; [done|done|]. unfold Qlt. simpl. lia.
Qed.

Lemma hungarian_suboptimal_1x2_witness :
  assignments (mkOutput [mkAssignment 0 0] 2%Q) = [mkAssignment 0 0] /\
  totalCost (mkOutput [mkAssignment 0 0] 2%Q) = 2%Q /\
  (nth 1 (nth 0 [[2; 1]]%Q []) 0 < totalCost (mkOutput [mkAssignment 0 0] 2%Q))%Q.
Proof.
  refine (proj2 hungarian_suboptimal_1x2 10 _ _). vm_compute. reflexivity.
Defined.

End HungarianProofs.

(* ------------------------------------------------------------------ *)
(** ** Cost matrices and the naive baseline *)

Module CostMatrixProofs.
Import Hungarian Geometry HungarianProofs.

Section WithMath.
Context `{JSMath}.

Lemma buildCostMatrix_no_drivers passengers options :
  buildCostMatrix [] passengers options = mkCostMatrix [] [].
Proof. reflexivity. Qed.

Lemma buildCostMatrix_no_passengers drivers options :
  buildCostMatrix drivers [] options = mkCostMatrix (map (fun _ => []) drivers) [].
Proof.
  unfold buildCostMatrix.
  enough (E : forall acc ps, fold_left (fun '(matrix, pairs) (driver : Node) =>
      let '(row, pairs) :=
        fold_left (fun '(row, pairs) (passenger : Node) =>
          let distance := distanceFunc (default euclidean (method options)) (lat driver) (lng driver)
                            (lat passenger) (lng passenger) in
          let cost := (distance * default 2 (timePerKm options))%Q in
          (row ++ [cost], pairs ++ [mkPair (id driver) (id passenger) cost]))
          [] ([], pairs) in
      (matrix ++ [row], pairs)) drivers (acc, ps) = (acc ++ map (fun _ => []) drivers, ps)).
  { by rewrite E. }
  induction drivers as [|d ds IH]; intros acc ps; simpl; [by rewrite app_nil_r|].
  rewrite IH. by rewrite <- app_assoc.
Qed.

End WithMath.

Lemma empty_matrix_rectangular cm : (forall r, In r cm -> r = []) -> rectangular cm /\ cols0 cm = 0.
Proof.
  intros Hc. assert (C0 : cols0 cm = 0).
  { destruct cm as [|r cm]; [done|]. simpl. rewrite (Hc r); [done|by left]. }
  split; [|done]. intros r Hr. rewrite C0, (Hc r Hr). done.
Qed.

(** C8: a matrix with no rows, or whose rows are all empty, gives the
    empty assignment of cost 0 (and [hungarian] does return); a cost matrix
    built from no drivers is empty, and one built from no passengers has an
    empty row per driver; both have no pairs. *)
Theorem empty_inputs :
  (forall cm, (cm = [] \/ forall r, In r cm -> r = []) ->
     (exists fuel, hungarian fuel cm = Some (mkOutput [] 0%Q)) /\
     forall fuel out, hungarian fuel cm = Some out -> out = mkOutput [] 0%Q) /\
  (forall (M : JSMath) drivers passengers options,
     buildCostMatrix [] passengers options = mkCostMatrix [] [] /\
     buildCostMatrix drivers [] options = mkCostMatrix (map (fun _ => []) drivers) []).
Proof.
  split.
  - intros cm Hc. assert (Hc' : forall r, In r cm -> r = []) by (destruct Hc as [->|]; done).
    destruct (empty_matrix_rectangular cm Hc') as [Hr C0].
    assert (Hout : forall fuel out, hungarian fuel cm = Some out -> out = mkOutput [] 0%Q).
    { intros fuel [asg t] E.
      destruct (hungarian_output cm fuel _ Hr E) as (Hl & _ & _ & _ & Ht).
      cbn [assignments totalCost] in Hl, Ht. rewrite C0, Nat.min_0_r in Hl.
      destruct asg; [|done]. simpl in Ht. by subst t. }
    split; [|done].
    destruct (hungarian_total cm _ Hr (le_n _)) as [out E].
    eexists. rewrite E. f_equal. exact (Hout _ _ E).
  - intros M drivers passengers options. split.
    + apply buildCostMatrix_no_drivers.
    + apply buildCostMatrix_no_passengers.
Qed.

Lemma empty_inputs_witness : exists fuel, hungarian fuel [[]; []] = Some (mkOutput [] 0%Q).
Proof.
  refine (proj1 (proj1 empty_inputs [[]; []] _)).
  right. intros r [<-|[<-|[]]]; reflexivity.
Defined.

(** Three drivers and two passengers on a meridian. *)
Definition gap_drivers : list Node :=
  [mkNode "d1" 6 0; mkNode "d2" 6 0; mkNode "d3" 1 0].
Definition gap_passengers : list Node := [mkNode "p1" 6 0; mkNode "p2" 5 0].

Section Gap.
Context `{JSMath}.

(** C7: the naive baseline is not always at least the Hungarian total.
    With a [Math.sqrt] exact on perfect squares, the drivers at latitudes
    6, 6, 1 and the passengers at latitudes 6, 5 (longitude 0) give the
    euclidean cost matrix [[0, 2], [0, 2], [10, 8]]; the naive pairing
    costs 2 and [hungarian] returns a total of 8. *)
Theorem naive_baseline_below_hungarian :
  (forall z, Math_sqrt (inject_Z (z * z)) = inject_Z (Z.abs z)) ->
  matrix (buildCostMatrix gap_drivers gap_passengers (mkOptions (Some euclidean) (Some 2%Q)))
    = [[0; 2]; [0; 2]; [10; 8]]%Q /\
  sumNaiveAssignments gap_drivers gap_passengers (Some euclidean) = 2%Q /\
  (exists fuel out, hungarian fuel
     (matrix (buildCostMatrix gap_drivers gap_passengers (mkOptions (Some euclidean) (Some 2%Q))))
     = Some out) /\
  forall fuel out, hungarian fuel
     (matrix (buildCostMatrix gap_drivers gap_passengers (mkOptions (Some euclidean) (Some 2%Q))))
     = Some out ->
    totalCost out = 8%Q /\
    (sumNaiveAssignments gap_drivers gap_passengers (Some euclidean) < totalCost out)%Q.
Proof.
  intros Hs.
  assert (S0 : Math_sqrt (0 # 1) = 0 # 1) by exact (Hs 0%Z).
  assert (S1 : Math_sqrt (1 # 1) = 1 # 1) by exact (Hs 1%Z).
  assert (S4 : Math_sqrt (16 # 1) = 4 # 1) by exact (Hs 4%Z).
  assert (S5 : Math_sqrt (25 # 1) = 5 # 1) by exact (Hs 5%Z).
  assert (Ecm : matrix (buildCostMatrix gap_drivers gap_passengers
                  (mkOptions (Some euclidean) (Some 2%Q))) = [[0; 2]; [0; 2]; [10; 8]]%Q).
  { transitivity [[Math_sqrt (0 # 1) * 2; Math_sqrt (1 # 1) * 2];
                  [Math_sqrt (0 # 1) * 2; Math_sqrt (1 # 1) * 2];
                  [Math_sqrt (25 # 1) * 2; Math_sqrt (16 # 1) * 2]]%Q; [reflexivity|].
    rewrite S0, S1, S4, S5. reflexivity. }
  assert (En : sumNaiveAssignments gap_drivers gap_passengers (Some euclidean) = 2%Q).
  { transitivity (0 + Math_sqrt (0 # 1) * 2 + Math_sqrt (1 # 1) * 2)%Q; [reflexivity|].
    rewrite S0, S1. reflexivity. }
  rewrite Ecm, En.
  assert (E : hungarian 10 [[0; 2]; [0; 2]; [10; 8]]%Q =
              Some (mkOutput [mkAssignment 0 0; mkAssignment 2 1] 8%Q))
    by (vm_compute; reflexivity).
  split_and!; [done|done|eauto|].
  intros fuel out E'. rewrite (hungarian_det _ _ _ _ _ E' E). simpl.
  split; [done|]. unfold Qlt. simpl. lia.
Qed.

End Gap.

(** A [Math] whose square root is the integer square root of the floor,
    exact on perfect squares. *)
Definition exact_sqrt_math : JSMath := {|
  Math_sqrt q := inject_Z (Z.sqrt (Qnum q / Zpos (Qden q)));
  Math_sin _ := 0%Q; Math_cos _ := 0%Q; Math_atan2 _ _ := 0%Q; Math_PI := 0%Q |}.

Lemma exact_sqrt_math_square z :
  @Math_sqrt exact_sqrt_math (inject_Z (z * z)) = inject_Z (Z.abs z).
Proof.
  simpl. rewrite Z.div_1_r. f_equal.
  assert (E : (z * z = Z.abs z * Z.abs z)%Z)
    by (destruct (Z.abs_spec z) as [[_ ->]|[_ ->]]; ring).
  rewrite E. apply Z.sqrt_square, Z.abs_nonneg.
Qed.

Lemma naive_baseline_below_hungarian_witness :
  @sumNaiveAssignments exact_sqrt_math gap_drivers gap_passengers (Some euclidean) = 2%Q.
Proof.
  exact (proj1 (proj2 (@naive_baseline_below_hungarian exact_sqrt_math exact_sqrt_math_square))).
Defined.

End CostMatrixProofs.


(* ------------------------------------------------------------------ *)
(** ** Application state ([AppContext.tsx]) *)

Module AppContext.

(** [Driver], [Passenger], [Assignment] and [MSTEdge] have the shapes of
    [Node], of the pairs of [buildCostMatrix] and of the edges of
    [kruskal]. *)
Definition Driver := Geometry.Node.
Definition Passenger := Geometry.Node.
Definition Assignment := Geometry.Pair.
Definition MSTEdge := Kruskal.Edge.

(** The keys ['assignments' | 'mst'] of [layers]. *)
Inductive LayerName := LAssignments | LMst.

(** [{ assignments: boolean; mst: boolean }] *)
Record Layers := mkLayers { assignmentsLayer : bool; mstLayer : bool }.

(** [state.layers[key]] *)
Definition get_layer (l : Layers) (k : LayerName) : bool :=
  match k with LAssignments => assignmentsLayer l | LMst => mstLayer l end.

(** [{ ...layers, [key]: b }] *)
Definition set_layer (l : Layers) (k : LayerName) (b : bool) : Layers :=
  match k with
  | LAssignments => mkLayers b (mstLayer l)
  | LMst => mkLayers (assignmentsLayer l) b
  end.

Record AppState := mkAppState {
  drivers : list Driver;
  passengers : list Passenger;
  assignments : list Assignment;
  mstEdges : list MSTEdge;
  totalNaiveTime : Q;
  totalAssignedTime : Q;
  totalMSTWeight : Q;
  layers : Layers;
  autoRun : bool;
  lastUpdated : Q }.

(** The payloads an action carries. *)
Inductive Payload :=
  | PDrivers (d : list Driver)
  | PPassengers (p : list Passenger)
  | PAssignments (a : list Assignment)
  | PMstEdges (e : list MSTEdge)
  | PTotals (naive assigned mst : Q)
  | PLayer (k : LayerName)
  | PBool (b : bool)
  | PNone.

(** [{ type, payload }]: the reducer switches on the string [type]. *)
Record Action := mkAction { type : string; payload : Payload }.

(** [initialState]; [t0] is the value of [Date.now()] when the module is
    loaded. *)
Definition initialState (t0 : Q) : AppState :=
  mkAppState [] [] [] [] 0 0 0 (mkLayers true true) false t0.

(** [appReducer]; [now] is the value of [Date.now()] at the call.  The
    action creators of [AppProvider] pair each [type] with a payload of its
    case; an action whose payload does not have that shape is not built by
    any of them, and the model leaves the state unchanged for it. *)
Definition appReducer (t0 now : Q) (state : AppState) (action : Action) : AppState :=
  let t := type action in
  if String.eqb t "SET_DRIVERS" then
    match payload action with
    | PDrivers p => {| drivers := p; passengers := passengers state;
        assignments := assignments state; mstEdges := mstEdges state;
        totalNaiveTime := totalNaiveTime state; totalAssignedTime := totalAssignedTime state;
        totalMSTWeight := totalMSTWeight state; layers := layers state;
        autoRun := autoRun state; lastUpdated := lastUpdated state |}
    | _ => state end
  else if String.eqb t "SET_PASSENGERS" then
    match payload action with
    | PPassengers p => {| drivers := drivers state; passengers := p;
        assignments := assignments state; mstEdges := mstEdges state;
        totalNaiveTime := totalNaiveTime state; totalAssignedTime := totalAssignedTime state;
        totalMSTWeight := totalMSTWeight state; layers := layers state;
        autoRun := autoRun state; lastUpdated := lastUpdated state |}
    | _ => state end
  else if String.eqb t "SET_ASSIGNMENTS" then
    match payload action with
    | PAssignments p => {| drivers := drivers state; passengers := passengers state;
        assignments := p; mstEdges := mstEdges state;
        totalNaiveTime := totalNaiveTime state; totalAssignedTime := totalAssignedTime state;
        totalMSTWeight := totalMSTWeight state; layers := layers state;
        autoRun := autoRun state; lastUpdated := lastUpdated state |}
    | _ => state end
  else if String.eqb t "SET_MST_EDGES" then
    match payload action with
    | PMstEdges p => {| drivers := drivers state; passengers := passengers state;
        assignments := assignments state; mstEdges := p;
        totalNaiveTime := totalNaiveTime state; totalAssignedTime := totalAssignedTime state;
        totalMSTWeight := totalMSTWeight state; layers := layers state;
        autoRun := autoRun state; lastUpdated := lastUpdated state |}
    | _ => state end
  else if String.eqb t "SET_TOTALS" then
    match payload action with
    | PTotals naive assigned mst => {| drivers := drivers state; passengers := passengers state;
        assignments := assignments state; mstEdges := mstEdges state;
        totalNaiveTime := naive; totalAssignedTime := assigned;
        totalMSTWeight := mst; layers := layers state;
        autoRun := autoRun state; lastUpdated := lastUpdated state |}
    | _ => state end
  else if String.eqb t "TOGGLE_LAYER" then
    match payload action with
    | PLayer k => {| drivers := drivers state; passengers := passengers state;
        assignments := assignments state; mstEdges := mstEdges state;
        totalNaiveTime := totalNaiveTime state; totalAssignedTime := totalAssignedTime state;
        totalMSTWeight := totalMSTWeight state;
        layers := set_layer (layers state) k (negb (get_layer (layers state) k));
        autoRun := autoRun state; lastUpdated := lastUpdated state |}
    | _ => state end
  else if String.eqb t "SET_AUTORUN" then
    match payload action with
    | PBool b => {| drivers := drivers state; passengers := passengers state;
        assignments := assignments state; mstEdges := mstEdges state;
        totalNaiveTime := totalNaiveTime state; totalAssignedTime := totalAssignedTime state;
        totalMSTWeight := totalMSTWeight state; layers := layers state;
        autoRun := b; lastUpdated := lastUpdated state |}
    | _ => state end
  else if String.eqb t "UPDATE_TIMESTAMP" then
    {| drivers := drivers state; passengers := passengers state;
       assignments := assignments state; mstEdges := mstEdges state;
       totalNaiveTime := totalNaiveTime state; totalAssignedTime := totalAssignedTime state;
       totalMSTWeight := totalMSTWeight state; layers := layers state;
       autoRun := autoRun state; lastUpdated := now |}
  else if String.eqb t "RESET" then initialState t0
  else state.

(** The actions dispatched by the memoized callbacks of [AppProvider]. *)
Definition setDrivers (d : list Driver) : Action := mkAction "SET_DRIVERS" (PDrivers d).
Definition setPassengers (p : list Passenger) : Action := mkAction "SET_PASSENGERS" (PPassengers p).
Definition setAssignments (a : list Assignment) : Action :=
  mkAction "SET_ASSIGNIMENTS" (PAssignments a).
Definition setMstEdges (e : list MSTEdge) : Action := mkAction "SET_MST_EDGES" (PMstEdges e).
Definition setTotals (naive assigned mst : Q) : Action :=
  mkAction "SET_TOTALS" (PTotals naive assigned mst).
Definition setAutoRun (b : bool) : Action := mkAction "SET_AUTORUN" (PBool b).
Definition updateTimestamp : Action := mkAction "UPDATE_TIMESTAMP" PNone.
Definition reset : Action := mkAction "RESET" PNone.

(** The second effect of [AppContent]: when the graph hook has new
    results, [setAssignments], [setMstEdges] and [setTotals] in turn. *)
Definition publishResults (t0 now : Q) (s : AppState) (a : list Assignment)
    (e : list MSTEdge) (naive assigned mst : Q) : AppState :=
  appReducer t0 now (appReducer t0 now (appReducer t0 now s (setAssignments a))
    (setMstEdges e)) (setTotals naive assigned mst).

End AppContext.

Module AppContextProofs.
Import AppContext.

(** [setAssignments] dispatches the type ["SET_ASSIGNIMENTS"], which no
    case of [appReducer] handles: from every state the action leaves the
    state as it is.  So publishing the graph results updates the edges and
    the totals but never the assignments. *)
Theorem setAssignments_ignored (t0 now : Q) (s : AppState) (a : list Assignment) :
  appReducer t0 now s (setAssignments a) = s /\
  forall e naive assigned mst,
    let s' := publishResults t0 now s a e naive assigned mst in
    assignments s' = assignments s /\ mstEdges s' = e /\
    totalNaiveTime s' = naive /\ totalAssignedTime s' = assigned /\ totalMSTWeight s' = mst.
Proof.
  split; [reflexivity|]. intros e naive assigned mst. cbv zeta.
  unfold publishResults. repeat split; reflexivity.
Qed.


End AppContextProofs.


Module GeometryProofs.
Import Geometry.

Section WithMath.
Context `{JSMath}.

(** The two nested loops of [buildCostMatrix] as maps. *)
Lemma buildCostMatrix_eq drivers passengers options :
  let meth := default euclidean (method options) in
  let tpk := default 2%Q (timePerKm options) in
  let c dr ps := (distanceFunc meth (lat dr) (lng dr) (lat ps) (lng ps) * tpk)%Q in
  buildCostMatrix drivers passengers options =
    mkCostMatrix (map (fun dr => map (c dr) passengers) drivers)
      (flat_map (fun dr => map (fun ps => mkPair (id dr) (id ps) (c dr ps)) passengers) drivers).
Proof.
  cbv zeta. unfold buildCostMatrix.
  set (c := fun dr ps => (distanceFunc (default euclidean (method options))
             (lat dr) (lng dr) (lat ps) (lng ps) * default 2%Q (timePerKm options))%Q).
  assert (Hrow : forall dr row prs,
    fold_left (fun '(row, pairs) passenger =>
      (row ++ [(distanceFunc (default euclidean (method options)) (lat dr) (lng dr)
                 (lat passenger) (lng passenger) * default 2%Q (timePerKm options))%Q],
       pairs ++ [mkPair (id dr) (id passenger)
                  (distanceFunc (default euclidean (method options)) (lat dr) (lng dr)
                     (lat passenger) (lng passenger) * default 2%Q (timePerKm options))%Q]))
      passengers (row, prs) =
    (row ++ map (c dr) passengers,
     prs ++ map (fun ps => mkPair (id dr) (id ps) (c dr ps)) passengers)).
  { intros dr. induction passengers as [|ps l IH]; intros row prs; simpl.
    - by rewrite !app_nil_r.
    - rewrite IH, <- !app_assoc. reflexivity. }
  assert (Hall : forall mat prs,
    fold_left (fun '(matrix, pairs) driver =>
      let '(row, pairs) :=
        fold_left (fun '(row, pairs) passenger =>
          (row ++ [(distanceFunc (default euclidean (method options)) (lat driver) (lng driver)
                     (lat passenger) (lng passenger) * default 2%Q (timePerKm options))%Q],
           pairs ++ [mkPair (id driver) (id passenger)
                      (distanceFunc (default euclidean (method options)) (lat driver)
                         (lng driver) (lat passenger) (lng passenger)
                         * default 2%Q (timePerKm options))%Q]))
          passengers ([], pairs) in
      (matrix ++ [row], pairs)) drivers (mat, prs) =
    (mat ++ map (fun dr => map (c dr) passengers) drivers,
     prs ++ flat_map (fun dr => map (fun ps => mkPair (id dr) (id ps) (c dr ps)) passengers)
              drivers)).
  { induction drivers as [|dr l IH]; intros mat prs; simpl.
    - by rewrite !app_nil_r.
    - rewrite Hrow. simpl. rewrite IH, <- !app_assoc. reflexivity. }
  rewrite Hall. reflexivity.
Qed.

Lemma nth_flat_map_rect {A B} (f : A -> list B) (l : list A) k i j d da :
  (forall x, In x l -> length (f x) = k) -> i < length l -> j < k ->
  nth (i * k + j) (flat_map f l) d = nth j (f (nth i l da)) d.
Proof.
  revert i; induction l as [|x l IH]; intros i Hk Hi Hj; simpl in *; [lia|].
  assert (Hx : length (f x) = k) by (apply Hk; left; done).
  destruct i as [|i]; simpl.
  - rewrite app_nth1; [done|lia].
  - rewrite app_nth2 by lia. rewrite Hx.
    replace (k + i * k + j - k) with (i * k + j) by lia.
    apply IH; [intros; apply Hk; right; done|lia|done].
Qed.

Lemma length_flat_map_rect {A B} (f : A -> list B) (l : list A) k :
  (forall x, In x l -> length (f x) = k) -> length (flat_map f l) = length l * k.
Proof.
  induction l as [|x l IH]; intros Hk; simpl; [done|].
  rewrite length_app, Hk by (left; done). rewrite IH; [lia|].
  intros; apply Hk; right; done.
Qed.

Lemma nth_map_in {A B} (f : A -> B) (l : list A) i d da :
  i < length l -> nth i (map f l) d = f (nth i l da).
Proof.
  intros Hi. rewrite (nth_indep _ d (f da)) by (rewrite length_map; done).
  apply map_nth.
Qed.

(** Layout of the result of [buildCostMatrix]: one row per driver and one
    column per passenger, the cost of a cell is the distance by the chosen
    method times [timePerKm] ([euclidean] and [2] by default), and [pairs]
    lists the cells row by row with their ids and the same cost. *)
Theorem buildCostMatrix_layout drivers passengers options :
  let r := buildCostMatrix drivers passengers options in
  let meth := default euclidean (method options) in
  let tpk := default 2%Q (timePerKm options) in
  length (matrix r) = length drivers /\
  (forall i, i < length drivers -> length (nth i (matrix r) []) = length passengers) /\
  length (pairs r) = length drivers * length passengers /\
  forall i j, i < length drivers -> j < length passengers ->
    let dr := node_at drivers i in
    let ps := node_at passengers j in
    nth j (nth i (matrix r) []) 0%Q =
      (distanceFunc meth (lat dr) (lng dr) (lat ps) (lng ps) * tpk)%Q /\
    nth (i * length passengers + j) (pairs r) (mkPair "" "" 0) =
      mkPair (id dr) (id ps) (nth j (nth i (matrix r) []) 0%Q).
Proof.
  cbv zeta. rewrite buildCostMatrix_eq. simpl. unfold node_at.
  split; [by rewrite length_map|]. split.
  { intros i Hi. rewrite (nth_map_in _ _ _ _ (mkNode "" 0 0)) by done.
    by rewrite length_map. }
  split.
  { apply length_flat_map_rect. intros; by rewrite length_map. }
  intros i j Hi Hj.
  rewrite (nth_map_in _ _ _ _ (mkNode "" 0 0)) by done.
  rewrite (nth_map_in _ _ _ _ (mkNode "" 0 0)) by done.
  split; [done|].
  rewrite (nth_flat_map_rect _ _ (length passengers) _ _ _ (mkNode "" 0 0));
    [|intros; by rewrite length_map|done|done].
  rewrite (nth_map_in _ _ _ _ (mkNode "" 0 0)) by done. reflexivity.
Qed.

(** [sumNaiveAssignments] adds up the diagonal of the matrix that
    [buildCostMatrix] builds for the same nodes and method with the default
    [timePerKm] of [2], over the first [min(drivers, passengers)] rows. *)
Theorem sumNaive_diagonal drivers passengers meth :
  sumNaiveAssignments drivers passengers meth =
  fold_left (fun acc i =>
      acc + nth i (nth i (matrix (buildCostMatrix drivers passengers (mkOptions meth None))) []) 0)%Q
    (seq 0 (Nat.min (length drivers) (length passengers))) 0%Q.
Proof.
  unfold sumNaiveAssignments. rewrite buildCostMatrix_eq. simpl.
  apply HungarianProofs.fold_left_ext_in. intros acc i Hi%in_seq.
  unfold node_at.
  rewrite (nth_map_in _ _ _ _ (mkNode "" 0 0)) by lia.
  rewrite (nth_map_in _ _ _ _ (mkNode "" 0 0)) by lia. reflexivity.
Qed.

Lemma Qsq_minus_sym (x y : Q) : ((x - y) * (x - y))%Q = ((y - x) * (y - x))%Q.
Proof.
  destruct x as [a p], y as [b q]. unfold Qminus, Qplus, Qopp, Qmult. simpl.
  f_equal; [ring|]. rewrite (Pos.mul_comm p q). reflexivity.
Qed.

Lemma euclideanDistance_sym a b c d :
  euclideanDistance a b c d = euclideanDistance c d a b.
Proof. unfold euclideanDistance. by rewrite (Qsq_minus_sym c a), (Qsq_minus_sym d b). Qed.

(** With the euclidean method, exchanging the roles of drivers and
    passengers transposes the cost matrix. *)
Theorem euclidean_transpose drivers passengers options
    (Hm : default euclidean (method options) = euclidean) :
  forall i j, i < length passengers -> j < length drivers ->
  nth j (nth i (matrix (buildCostMatrix passengers drivers options)) []) 0%Q =
  nth i (nth j (matrix (buildCostMatrix drivers passengers options)) []) 0%Q.
Proof.
  intros i j Hi Hj. rewrite !buildCostMatrix_eq. simpl. rewrite Hm.
  rewrite !(nth_map_in _ _ _ _ (mkNode "" 0 0)) by done. simpl.
  by rewrite euclideanDistance_sym.
Qed.

End WithMath.

Lemma euclidean_transpose_witness :
  default euclidean (method (mkOptions None (Some 3%Q))) = euclidean /\
  nth 1 (nth 0 (matrix (@buildCostMatrix CostMatrixProofs.exact_sqrt_math
      [mkNode "p" 0 0] [mkNode "d1" 1 1; mkNode "d2" 3 4] (mkOptions None (Some 3%Q)))) []) 0%Q =
  nth 0 (nth 1 (matrix (@buildCostMatrix CostMatrixProofs.exact_sqrt_math
      [mkNode "d1" 1 1; mkNode "d2" 3 4] [mkNode "p" 0 0] (mkOptions None (Some 3%Q)))) []) 0%Q.
Proof.
  split; [reflexivity|].
  apply (@euclidean_transpose CostMatrixProofs.exact_sqrt_math); [reflexivity|simpl; lia|simpl; lia].
Defined.

End GeometryProofs.


Module HungarianOptimality.
Import Hungarian HungarianProofs.

(** *** Minima *)

Lemma fold_num_min_NaN vs : fold_left num_min vs NaN = NaN.
Proof. induction vs; simpl; auto. Qed.

Lemma qmin_le_l a b : (qmin a b <= a)%Q.
Proof.
  unfold qmin. destruct (Qle_bool a b) eqn:E; [apply Qle_refl|].
  apply Qlt_le_weak, Qnot_le_lt. intros H. apply Qle_bool_iff in H. congruence.
Qed.

Lemma qmin_le_r a b : (qmin a b <= b)%Q.
Proof.
  unfold qmin. destruct (Qle_bool a b) eqn:E; [apply Qle_bool_iff; done|apply Qle_refl].
Qed.

(** A [Math.min] fold that ends finite is below every finite value it met. *)
Lemma fold_num_min_le vs a q :
  fold_left num_min vs a = Fin q ->
  (forall x, a = Fin x -> (q <= x)%Q) /\ (forall x, In (Fin x) vs -> (q <= x)%Q).
Proof.
  revert a. induction vs as [|v vs IH]; intros a E; simpl in E.
  - subst. split; [intros x [= ->]; apply Qle_refl|done].
  - destruct (IH _ E) as [H1 H2]. split.
    + intros x ->. destruct v as [y| |]; simpl in E, H1.
      * eapply Qle_trans; [apply H1; reflexivity|apply qmin_le_l].
      * apply H1; reflexivity.
      * rewrite fold_num_min_NaN in E. discriminate.
    + intros x [->|Hx]; [|auto]. destruct a as [y| |]; simpl in E, H1.
      * eapply Qle_trans; [apply H1; reflexivity|apply qmin_le_r].
      * apply H1; reflexivity.
      * rewrite fold_num_min_NaN in E. discriminate.
Qed.

Lemma fmv_le mat rc cc mv i j x :
  findMinUncoveredValue mat rc cc = Fin mv ->
  i < length mat -> j < length (nth i mat []) ->
  nth i rc false = false -> nth j cc false = false ->
  mget NaN mat i j = Fin x -> (mv <= x)%Q.
Proof.
  rewrite findMinUncoveredValue_uvals. intros E Hi Hj Ri Cj Ex.
  apply (proj2 (fold_num_min_le _ _ _ E)). apply elem_uvals. eauto 10.
Qed.

Lemma min_finite_le l q x : min_finite l = Fin q -> In (Fin x) l -> (q <= x)%Q.
Proof.
  unfold min_finite. intros E Hx. apply (proj2 (fold_num_min_le _ _ _ E)).
  apply filter_In. done.
Qed.

Lemma min_finite_Fin l x : In (Fin x) l -> exists q, min_finite l = Fin q.
Proof.
  intros Hx. unfold min_finite.
  destruct (fold_num_min (List.filter isFinite l) Inf) as [(_ & _ & Hall)|(q & E & _)].
  - left; done.
  - intros v Hv%filter_In. destruct v; [done|done|]. destruct Hv as [_ Hv]; done.
  - exfalso. assert (H : In (Fin x) (List.filter isFinite l)) by (apply filter_In; done).
    apply Hall in H. discriminate.
  - eauto.
Qed.

#[local] Existing Instance In_decision.

(** *** Dual potentials *)

Section Dual.
Variable cm : list (list Q).
Variable n : nat.

Definition cmq (i j : nat) : Q := nth j (nth i cm []) 0%Q.

(** Every cell of the working matrix is the cost minus a row potential and
    a column potential, it is not negative, and a marked cell is zero. *)
Definition dual (u v : nat -> Q) (mat : list (list num)) (ms : list (list nat)) : Prop :=
  forall i j, i < n -> j < n -> exists q, mget NaN mat i j = Fin q /\
    (q == cmq i j - u i - v j)%Q /\ (0 <= q)%Q /\ (mget 0 ms i j <> 0 -> (q == 0)%Q).

Definition opt_inv (st : HState) : Prop := exists u v, dual u v (mat st) (masks st).

Lemma opt_step fuel st st' :
  hinv n n st -> step st <> 0 -> hstep fuel (Nat.max n n) st = Some st' ->
  opt_inv st -> opt_inv st'.
Proof.
  intros [Hb Hk] H0 E (u & v & Hd).
  destruct (b_mat _ _ _ Hb) as [Hml Hmr]. rewrite Nat.max_id in Hml, Hmr.
  unfold hstep in E.
  destruct (step st) as [|[|[|[|[|[|[|k]]]]]]] eqn:Hs; try done.
  - injection E as <-. exists u, v. exact Hd.
  - assert (Hprime : forall r c ms', findUncoveredZero (mat st) (rowCover st) (colCover st) = Some (r, c) ->
              (forall i j, mget 0 ms' i j <> 0 -> mget 0 (masks st) i j <> 0 \/ (i, j) = (r, c)) ->
              dual u v (mat st) ms').
    { intros r c ms' Ez Hms i j Hi Hj.
      destruct (Hd i j Hi Hj) as (q & Eq & Hq & Hnn & Hz).
      exists q. split; [done|]. split; [done|]. split; [done|].
      intros Hne. destruct (Hms i j Hne) as [Hm|[= -> ->]]; [auto|].
      destruct (findUncoveredZero_Some _ _ _ _ _ Ez) as (_ & _ & _ & _ & Z).
      rewrite Eq in Z. simpl in Z. apply Qeq_bool_iff. done. }
    destruct (findUncoveredZero (mat st) (rowCover st) (colCover st)) as [[r c]|] eqn:Ez.
    + assert (Hms : forall i j, mget 0 (mset (masks st) r c 2) i j <> 0 ->
                mget 0 (masks st) i j <> 0 \/ (i, j) = (r, c)).
      { intros i j. rewrite mget_mset. case_decide as Hc; [|auto].
        destruct Hc as (-> & -> & _). auto. }
      destruct (findStarInRow _ r); injection E as <-; exists u, v;
        exact (Hprime r c _ eq_refl Hms).
    + injection E as <-. exists u, v. exact Hd.
  - destruct Hk as (rk & r0 & c0 & Hps & Hi).
    rewrite Hps in E. unfold findAugmentingPath in E. cbn [col] in E.
    destruct (fap_loop fuel (masks st) [mkCell r0 (Z.of_nat c0)] (Z.of_nat c0))
      as [p|] eqn:Ep; [|done].
    injection E as <-.
    pose proof (fap_loop_inv n n st r0 c0 rk Hb Hi fuel _ _ _ _ (li_init st r0 c0 rk Hi) Ep)
      as [Pcol Pnd Pval _ _ _ _ _ _].
    destruct (flip_fold p (masks st) Pcol Pnd) as (_ & _ & F3).
    exists u, v. intros i j Hi' Hj'. cbn [mat masks].
    destruct (Hd i j Hi' Hj') as (q & Eq & Hq & Hnn & Hz).
    exists q. split; [done|]. split; [done|]. split; [done|].
    rewrite mget_clear, F3. intros Hne. apply Hz.
    destruct (decide (In (i, j) (map cp p))) as [Hin|Hin].
    + destruct (Pval i j Hin) as [E1|E1]; unfold M in E1; rewrite E1; done.
    + rewrite decide_False in Hne by naive_solver.
      destruct (mget 0 (masks st) i j =? 2); [done|]. done.
  - destruct (findMinUncoveredValue (mat st) (rowCover st) (colCover st)) as [mv| |] eqn:Ef;
      injection E as <-; [|exists u, v; exact Hd|exists u, v; exact Hd].
    destruct Hk as [rk Hi].
    assert (Hmv : (0 <= mv)%Q).
    { destruct (fmv_spec (mat st) (rowCover st) (colCover st) (base_nonan _ _ _ Hb)) as [[E1 _]|(q & i & j & E1 & Hi1 & Hj1 & _ & _ & Ex)];
        [congruence|].
      rewrite Ef in E1. injection E1 as <-.
      rewrite Hml in Hi1. rewrite Hmr in Hj1 by done.
      destruct (Hd i j Hi1 Hj1) as (q & Eq & _ & Hnn & _). congruence. }
    exists (fun i => if RC st i then (u i - mv)%Q else u i),
           (fun j => if CC st j then v j else (v j + mv)%Q).
    intros i j Hi' Hj'. cbn [mat masks].
    destruct (Hd i j Hi' Hj') as (q & Eq & Hq & Hnn & Hz).
    unfold mget. rewrite (nth_imap _ _ [] []), decide_True by lia.
    rewrite (nth_imap _ _ NaN NaN), decide_True by (rewrite Hmr; lia).
    unfold mget in Eq. rewrite Eq.
    pose proof (b_mle _ _ _ Hb i j) as Hle.
    pose proof (i_cs _ _ _ Hi i j) as Hcs. pose proof (i_pr _ _ _ Hi i j) as Hpr.
    unfold RC, CC, M in *.
    destruct (nth i (rowCover st) false) eqn:Ri, (nth j (colCover st) false) eqn:Cj;
      simpl; eexists; (split; [reflexivity|]).
    + split; [rewrite Hq; ring|]. split.
      * pose proof (Qplus_le_compat 0 q 0 mv Hnn Hmv) as Hs2. rewrite Qplus_0_l in Hs2. exact Hs2.
      * intros Hne. change (mget 0 (masks st) i j <> 0) in Hne. exfalso.
        destruct (mget 0 (masks st) i j) as [|[|[|]]] eqn:Em; [done| | |lia].
        -- specialize (Hcs eq_refl). done.
        -- destruct (Hpr eq_refl) as [|[_ ?]]; done.
    + split; [rewrite Hq; ring|]. split.
      * assert (Erw : (q + mv - mv == q)%Q) by ring; rewrite Erw; clear Erw. done.
      * intros Hne. change (mget 0 (masks st) i j <> 0) in Hne.
        assert (Erw : (q + mv - mv == q)%Q) by ring; rewrite Erw; clear Erw. auto.
    + split; [rewrite Hq; ring|]. split; [done|].
      intros Hne. change (mget 0 (masks st) i j <> 0) in Hne. auto.
    + split; [rewrite Hq; ring|]. split.
      * assert (mv <= q)%Q.
        { apply (fmv_le _ _ _ _ i j q Ef); [lia|rewrite Hmr; lia|done|done|done]. }
        apply (Qplus_le_l _ _ mv). assert (Erw : (q - mv + mv == q)%Q) by ring; rewrite Erw; clear Erw.
        assert (Erw : (0 + mv == mv)%Q) by ring; rewrite Erw; clear Erw. done.
      * intros Hne. change (mget 0 (masks st) i j <> 0) in Hne. exfalso.
        destruct (mget 0 (masks st) i j) as [|[|[|]]] eqn:Em; [done| | |lia].
        -- specialize (Hcs eq_refl). done.
        -- destruct (Hpr eq_refl) as [|[? _]]; done.
Qed.

Lemma opt_run fuel st st' :
  hinv n n st -> opt_inv st -> run fuel (Nat.max n n) st = Some st' -> opt_inv st'.
Proof.
  revert st. induction fuel as [|f IH]; intros st H Ho E; [done|]. simpl in E.
  destruct (Nat.eqb_spec (step st) 0) as [Hs|Hs].
  - injection E as <-. done.
  - destruct (hstep (S f) (Nat.max n n) st) as [st1|] eqn:E1; [|done].
    apply (IH st1); [exact (proj1 (hinv_step _ _ _ _ _ H Hs E1))| |done].
    exact (opt_step _ _ _ H Hs E1 Ho).
Qed.

End Dual.

(** *** Potentials of the initial state of a square matrix *)

(** The finite minimum of a row or column, [0] when there is none. *)
Definition fmin (l : list num) : Q := match min_finite l with Fin q => q | _ => 0%Q end.

Lemma fmin_spec (l : list num) x :
  In (Fin x) l -> min_finite l = Fin (fmin l) /\ forall y, In (Fin y) l -> (fmin l <= y)%Q.
Proof.
  intros Hx. destruct (min_finite_Fin l x Hx) as [q Eq]. unfold fmin. rewrite Eq.
  split; [done|]. intros y Hy. exact (min_finite_le _ _ _ Eq Hy).
Qed.

Lemma reduce_row_fin (r : list num) (c : nat -> Q) k :
  length r = k -> 0 < k -> (forall j, j < k -> nth j r NaN = Fin (c j)) ->
  forall j, j < k -> nth j (reduce_row r) NaN = Fin (c j - fmin r) /\ (fmin r <= c j)%Q.
Proof.
  intros Hl Hk Hr j Hj.
  assert (Hin : forall j, j < k -> In (Fin (c j)) r) by (intros j' Hj'; rewrite <- Hr by done; apply nth_In; lia).
  destruct (fmin_spec r (c 0) (Hin 0 Hk)) as [E Hle].
  unfold reduce_row. rewrite E. split; [|apply Hle, Hin; done].
  rewrite (GeometryProofs.nth_map_in _ _ _ _ NaN) by lia. rewrite Hr by done. reflexivity.
Qed.

Lemma reduce_rows_nth mat s len i :
  nth i (fold_left (fun mat i => <[i := reduce_row (nth i mat [])]> mat) (seq s len) mat) [] =
  if decide (s <= i < s + len /\ i < length mat) then reduce_row (nth i mat []) else nth i mat [].
Proof.
  revert s mat. induction len as [|len IH]; intros s mat; simpl.
  - rewrite decide_False by lia. done.
  - rewrite IH, length_insert, !nth_insert_gen.
    destruct (decide (i = s /\ s < length mat)) as [[-> Hs]|Hne].
    + rewrite decide_False by lia. rewrite decide_True by lia. done.
    + repeat case_decide; try done; exfalso; lia.
Qed.

(** The finite cells of a matrix, [0] elsewhere. *)
Definition cellq (mat : list (list num)) (i j : nat) : Q :=
  match mget NaN mat i j with Fin q => q | _ => 0%Q end.

Lemma reduce_col_fin mat k j :
  length mat = k -> j < k -> (forall i, i < k -> length (nth i mat []) = k) ->
  (forall i j', i < k -> j' < k -> mget NaN mat i j' = Fin (cellq mat i j')) ->
  let cv := fmin (map (fun r => nth j r NaN) mat) in
  (forall i, i < k -> (cv <= cellq mat i j)%Q) /\
  forall i j', i < k -> j' < k ->
    mget NaN (reduce_col mat j) i j' =
      Fin (if decide (j' = j) then cellq mat i j - cv else cellq mat i j').
Proof.
  intros Hl Hj Hr Hc cv.
  assert (Hin : forall i, i < k -> In (Fin (cellq mat i j)) (map (fun r => nth j r NaN) mat)).
  { intros i Hi. rewrite <- (Hc i j Hi Hj). unfold mget.
    apply (in_map (fun r => nth j r NaN)), nth_In. lia. }
  destruct (fmin_spec _ _ (Hin 0 ltac:(lia))) as [E Hle].
  split; [intros i Hi; apply Hle, Hin, Hi|].
  intros i j' Hi Hj'. unfold reduce_col. rewrite E. unfold mget.
  rewrite (GeometryProofs.nth_map_in _ _ _ _ []) by lia.
  pose proof (Hc i j Hi Hj) as Ej. unfold mget in Ej. rewrite Ej. simpl.
  rewrite nth_insert_gen, Hr by done. fold cv.
  destruct (decide (j' = j)) as [->|Hne].
  - rewrite decide_True by done. done.
  - rewrite decide_False by naive_solver. apply (Hc i j' Hi Hj').
Qed.

Lemma pad_cell cm k i j :
  rectangular cm -> cols0 cm = length cm -> length cm = k -> i < k -> j < k ->
  nth j (nth i (pad cm k) []) NaN = Fin (cmq cm i j).
Proof.
  intros Hr Hc Hk Hi Hj. unfold pad. rewrite !nth_map_seq by done.
  rewrite (proj2 (Nat.ltb_lt i (length cm))), (proj2 (Nat.ltb_lt j (cols0 cm))) by lia. simpl.
  unfold read, cmq. destruct (lookup_lt_is_Some_2 cm i ltac:(lia)) as [r Er]. rewrite Er.
  assert (Lr : length r = cols0 cm).
  { apply Hr, list_elem_of_In. exact (list_elem_of_lookup_2 _ _ _ Er). }
  destruct (lookup_lt_is_Some_2 r j ltac:(lia)) as [q Eq]. rewrite Eq.
  rewrite (nth_lookup_Some cm i [] r Er), (nth_lookup_Some r j 0%Q q Eq). done.
Qed.

(** The reductions of steps 1 and 2 of a square matrix leave cells that
    are the costs minus a row and a column potential, all of them
    non-negative, and the first stars are on zeros. *)
Lemma init_dual cm :
  rectangular cm -> cols0 cm = length cm -> opt_inv cm (length cm) (init_state cm).
Proof.
  intros Hr Hc. set (k := length cm).
  unfold init_state. cbv zeta. rewrite Hc, Nat.max_id. fold k. cbn [mat masks].
  set (m1 := reduce_rows k (pad cm k)).
  set (u := fun i => fmin (nth i (pad cm k) [])).
  destruct (pad_spec cm k Hr ltac:(lia) ltac:(lia)) as [[Pl Pr] _].
  assert (Hm1 : forall i j, i < k -> j < k ->
            mget NaN m1 i j = Fin (cmq cm i j - u i) /\ (0 <= cmq cm i j - u i)%Q).
  { intros i j Hi Hj. unfold m1, reduce_rows, mget. rewrite reduce_rows_nth.
    rewrite decide_True by lia.
    destruct (reduce_row_fin (nth i (pad cm k) []) (cmq cm i) k (Pr i Hi) ltac:(lia)
               (fun j Hj => pad_cell cm k i j Hr Hc eq_refl Hi Hj) j Hj) as [E Hle].
    split; [done|]. apply Qle_minus_iff in Hle. exact Hle. }
  destruct (reduce_rows_shape k (pad cm k)) as (R1 & R2 & _). fold m1 in R1, R2.
  set (Cinv := fun mat : list (list num) =>
    length mat = k /\ (forall i, i < k -> length (nth i mat []) = k) /\
    exists v : nat -> Q, forall i j, i < k -> j < k ->
      mget NaN mat i j = Fin (cellq mat i j) /\
      (cellq mat i j == cmq cm i j - u i - v j)%Q /\ (0 <= cellq mat i j)%Q).
  assert (Hc2 : Cinv (reduce_cols k m1)).
  { unfold reduce_cols. apply (fold_left_inv Cinv).
    - split; [congruence|]. split; [intros i Hi; rewrite R2; auto|].
      exists (fun _ => 0%Q). intros i j Hi Hj. destruct (Hm1 i j Hi Hj) as [E Hn].
      unfold cellq. rewrite E. split; [done|]. split; [ring|done].
    - intros mat j Hj%in_seq (Hl & Hr' & v & Hv).
      assert (Hcf : forall i j', i < k -> j' < k -> mget NaN mat i j' = Fin (cellq mat i j'))
        by (intros; apply Hv; done).
      destruct (reduce_col_fin mat k j Hl ltac:(lia) Hr' Hcf) as [Hle Hnew].
      set (cv := fmin (map (fun r => nth j r NaN) mat)) in *.
      destruct (reduce_col_shape mat j) as (S1 & S2 & _).
      split; [congruence|]. split; [intros i Hi; rewrite S2; auto|].
      exists (fun j' => if decide (j' = j) then (v j + cv)%Q else v j').
      intros i j' Hi Hj'.
      assert (Ec : cellq (reduce_col mat j) i j' =
                   if decide (j' = j) then (cellq mat i j - cv)%Q else cellq mat i j').
      { unfold cellq at 1. rewrite Hnew by done. done. }
      rewrite Ec. split; [rewrite Hnew by done; done|].
      destruct (Hv i j' Hi Hj') as (_ & Eq & Hn).
      destruct (decide (j' = j)) as [->|Hne].
      + split; [rewrite Eq; ring|]. apply (proj1 (Qle_minus_iff cv (cellq mat i j))), Hle, Hi.
      + done. }
  destruct Hc2 as (_ & _ & v & Hv).
  destruct (initial_stars_spec k (reduce_cols k m1)) as (rc & cc & (_ & _ & _ & V & _)).
  exists u, v. intros i j Hi Hj. destruct (Hv i j Hi Hj) as (E & Eq & Hn).
  exists (cellq (reduce_cols k m1) i j). split; [done|]. split; [done|]. split; [done|].
  intros Hne. destruct (V i j) as [|[_ Hz]]; [done|]. rewrite E in Hz. simpl in Hz.
  apply Qeq_bool_iff in Hz. done.
Qed.

(** *** Sums *)

Definition qsum (l : list Q) : Q := fold_right Qplus 0%Q l.

Lemma fold_add_qsum {A} (f : A -> Q) l acc :
  (fold_left (fun acc a => acc + f a) l acc == acc + qsum (map f l))%Q.
Proof. revert acc; induction l as [|a l IH]; intros acc; simpl; [ring|]. rewrite IH. ring. Qed.

Lemma qsum_perm l l' : l ≡ₚ l' -> (qsum l == qsum l')%Q.
Proof.
  induction 1 as [|x l l' _ IH|x y l|l l' l'' _ IH1 _ IH2]; simpl;
    [ring|rewrite IH; ring|ring|rewrite IH1, IH2; reflexivity].
Qed.

Lemma qsum_plus {A} (f g : A -> Q) l :
  (qsum (map (fun a => f a + g a) l) == qsum (map f l) + qsum (map g l))%Q.
Proof. induction l as [|a l IH]; simpl; [ring|]. rewrite IH. ring. Qed.

Lemma qsum_ext {A} (f g : A -> Q) l :
  (forall a, In a l -> f a == g a)%Q -> (qsum (map f l) == qsum (map g l))%Q.
Proof.
  induction l as [|a l IH]; intros H; simpl; [reflexivity|].
  rewrite (H a (or_introl eq_refl)), IH; [reflexivity|]. intros; apply H; right; done.
Qed.

Lemma qsum_le {A} (f g : A -> Q) l :
  (forall a, In a l -> f a <= g a)%Q -> (qsum (map f l) <= qsum (map g l))%Q.
Proof.
  induction l as [|a l IH]; intros H; simpl; [apply Qle_refl|].
  apply Qplus_le_compat; [apply H; left; done|apply IH; intros; apply H; right; done].
Qed.

Lemma map_nth_seq_id (p : list nat) : map (fun i => nth i p 0) (seq 0 (length p)) = p.
Proof.
  apply (nth_ext _ _ 0 0); [by rewrite length_map, length_seq|].
  intros i Hi. rewrite length_map, length_seq in Hi. by rewrite nth_map_seq.
Qed.

Lemma perm_seq_of (l : list nat) k :
  List.NoDup l -> length l = k -> (forall x, In x l -> x < k) -> l ≡ₚ seq 0 k.
Proof.
  intros Nd Hl Hk. apply NoDup_Permutation_bis; [done|rewrite length_seq; lia|].
  intros x Hx. apply in_seq. specialize (Hk x Hx). lia.
Qed.

(** For a square matrix, the cost [hungarian] returns is at most the cost
    of every assignment of the rows to distinct columns: row [i] to column
    [p[i]], for every permutation [p] of [0..n-1]. *)
Theorem hungarian_square_optimal cm fuel out :
  rectangular cm -> cols0 cm = length cm -> hungarian fuel cm = Some out ->
  forall p, p ≡ₚ seq 0 (length cm) ->
  (totalCost out <=
     fold_left (fun acc i => acc + nth (nth i p 0%nat) (nth i cm []) 0) (seq 0 (length cm)) 0)%Q.
Proof.
  intros Hr Hc E p Hp.
  pose proof (hungarian_output cm fuel out Hr E) as (Hl & Nd & Np & Hin & Ht).
  unfold hungarian in E. destruct (run _ _ _) as [st|] eqn:Er; [|done]. injection E as <-.
  set (k := length cm) in *. rewrite Hc, Nat.min_id in Hl. rewrite Hc in Hin, Er.
  pose proof (init_hinv cm Hr) as Hi0. rewrite Hc in Hi0.
  destruct (opt_run cm k fuel _ _ Hi0 (init_dual cm Hr Hc) Er) as (u & v & Hd).
  set (L := assignments (extract cm (masks st))) in *.
  assert (HL : forall a, In a L -> mget 0 (masks st) (driver a) (passenger a) = 1).
  { intros a Ha. unfold L in Ha. rewrite extract_eq in Ha.
    apply stars_list_In in Ha as (_ & _ & Ha). done. }
  assert (Tl : (totalCost (extract cm (masks st)) == qsum (map u (seq 0 k)) + qsum (map v (seq 0 k)))%Q).
  { rewrite Ht. unfold cost_of.
    rewrite (fold_add_qsum (fun a => cmq cm (driver a) (passenger a))).
    rewrite (qsum_ext _ (fun a => u (driver a) + v (passenger a))%Q).
    - assert (Pd : map driver L ≡ₚ seq 0 k).
      { apply perm_seq_of; [done|by rewrite length_map|].
        intros x (a & <- & Ha)%in_map_iff. apply Hin, Ha. }
      assert (Pp : map passenger L ≡ₚ seq 0 k).
      { apply perm_seq_of; [done|by rewrite length_map|].
        intros x (a & <- & Ha)%in_map_iff. apply Hin, Ha. }
      rewrite qsum_plus, <- (map_map driver u L), <- (map_map passenger v L).
      rewrite (qsum_perm _ _ (Permutation_map u Pd)), (qsum_perm _ _ (Permutation_map v Pp)).
      ring.
    - intros a Ha. destruct (Hin a Ha) as [Hd1 Hp1].
      destruct (Hd (driver a) (passenger a) Hd1 Hp1) as (q & _ & Eq & _ & Hz).
      rewrite HL in Hz by done. specialize (Hz ltac:(done)).
      assert (Ez : (cmq cm (driver a) (passenger a) - u (driver a) - v (passenger a) == 0)%Q)
        by (rewrite <- Eq; exact Hz).
      cbv beta. transitivity ((cmq cm (driver a) (passenger a) - u (driver a) - v (passenger a))
                               + (u (driver a) + v (passenger a)))%Q; [ring|].
      rewrite Ez. ring. }
  assert (Hpl : length p = k) by (rewrite (Permutation_length Hp); apply length_seq).
  assert (Hpk : forall i, i < k -> nth i p 0 < k).
  { intros i Hi. apply (in_seq k 0). rewrite <- Hp. apply nth_In. lia. }
  rewrite Tl, (fold_add_qsum (fun i => cmq cm i (nth i p 0%nat))), Qplus_0_l.
  eapply Qle_trans; [|apply (qsum_le (fun i => u i + v (nth i p 0%nat))%Q)].
  - assert (Ep : map (fun i => nth i p 0%nat) (seq 0 k) = p)
      by (rewrite <- Hpl; apply map_nth_seq_id).
    rewrite qsum_plus, <- (map_map (fun i => nth i p 0%nat) v), Ep.
    rewrite (qsum_perm _ _ (Permutation_map v Hp)). apply Qle_refl.
  - intros i Hi%in_seq.
    destruct (Hd i (nth i p 0) ltac:(lia) (Hpk i ltac:(lia))) as (q & _ & Eq & Hn & _).
    cbv beta. apply (proj2 (Qle_minus_iff _ _)).
    assert (Er2 : (cmq cm i (nth i p 0%nat) + - (u i + v (nth i p 0%nat)) == q)%Q)
      by (rewrite Eq; ring).
    rewrite Er2. exact Hn.
Qed.

Lemma hungarian_square_optimal_witness :
  rectangular [[4; 1]; [2; 3]]%Q /\ cols0 [[4; 1]; [2; 3]]%Q = length [[4; 1]; [2; 3]]%Q /\
  hungarian 100 [[4; 1]; [2; 3]]%Q =
    Some (mkOutput [mkAssignment 0 1; mkAssignment 1 0] 3%Q) /\
  [1; 0] ≡ₚ seq 0 (length [[4; 1]; [2; 3]]%Q) /\
  (totalCost (mkOutput [mkAssignment 0 1; mkAssignment 1 0] 3%Q) <=
     fold_left (fun acc i => acc + nth (nth i [1%nat; 0%nat] 0%nat) (nth i [[4; 1]; [2; 3]]%Q []) 0)
       (seq 0 (length [[4; 1]; [2; 3]]%Q)) 0)%Q.
Proof.
  assert (Hr : rectangular [[4; 1]; [2; 3]]%Q) by (intros r [<-|[<-|[]]]; reflexivity).
  assert (Hh : hungarian 100 [[4; 1]; [2; 3]]%Q =
               Some (mkOutput [mkAssignment 0 1; mkAssignment 1 0] 3%Q))
    by (vm_compute; reflexivity).
  assert (Hp : [1; 0] ≡ₚ seq 0 (length [[4; 1]; [2; 3]]%Q)) by (simpl; apply perm_swap).
  split_and!; [exact Hr|reflexivity|exact Hh|exact Hp|].
  exact (hungarian_square_optimal _ 100 _ Hr eq_refl Hh _ Hp).
Defined.

End HungarianOptimality.


Module DijkstraWalks.
Import Dijkstra.

(** Walks from [s] along the adjacency lists of [g], with their total
    weight. *)
Inductive walk (g : Graph) (s : string) : string -> Q -> Prop :=
  | walk_start : walk g s s 0
  | walk_edge u q adj e : walk g s u q -> g !! u = Some adj -> e ∈ adj ->
      walk g s (neighborId e) (q + weight e).

(** Every finite distance is the weight of a walk from the source, and
    every recorded predecessor is the tail of an edge to the node. *)
Definition winv (g : Graph) (s : string) (st : DState) : Prop :=
  (forall v q, dist st !! v = Some (Fin q) -> walk g s v q) /\
  (forall v u, pred st !! v = Some (Some u) ->
     exists adj e, g !! u = Some adj /\ e ∈ adj /\ neighborId e = v).

Lemma relax_winv g s cur adj st e :
  g !! cur = Some adj -> e ∈ adj -> winv g s st -> winv g s (relax cur st e).
Proof.
  intros Hg He [Hd Hp]. unfold relax.
  destruct (dist st !! cur) as [[c| |]|] eqn:Ec; cbn [default id num_plus num_add_q];
    [|exact (conj Hd Hp)..].
  destruct (num_lt (Fin (c + weight e)) _); [|exact (conj Hd Hp)].
  split; simpl.
  - intros v q. rewrite lookup_insert_Some. intros [[<- [= <-]]|[_ H]]; [|eauto].
    eapply walk_edge; [apply Hd, Ec|exact Hg|exact He].
  - intros v u. rewrite lookup_insert_Some. intros [[<- [= <-]]|[_ H]]; [|eauto].
    exists adj, e. done.
Qed.

Lemma fold_relax_winv g s cur adj l st :
  g !! cur = Some adj -> (forall e, e ∈ l -> e ∈ adj) -> winv g s st ->
  winv g s (fold_left (relax cur) l st).
Proof.
  revert st. induction l as [|e l IH]; intros st Hg Hl Hw; simpl; [done|].
  apply IH; [done|intros x Hx; apply Hl; set_solver|].
  eapply relax_winv; [exact Hg|apply Hl; set_solver|exact Hw].
Qed.

Lemma dstep_winv g s st : winv g s st -> winv g s (dstep g st).
Proof.
  intros Hw. unfold dstep. destruct (sort_queue (queue st)) as [|e rest]; [done|].
  simpl. destruct (decide (qnode e ∈ visited st)); [exact Hw|].
  destruct (g !! qnode e) as [adj|] eqn:Hg; [|exact Hw].
  apply (fold_relax_winv g s (qnode e) adj); [done|done|exact Hw].
Qed.

Lemma dloop_winv fuel g s st st' : winv g s st -> dloop fuel g st = Some st' -> winv g s st'.
Proof.
  revert st. induction fuel as [|f IH]; intros st Hw; simpl; [discriminate|].
  destruct (queue st); [intros [= <-]; done|]. apply IH, dstep_winv, Hw.
Qed.

Lemma init_winv g s :
  winv g s {| dist := <[s := Fin 0]> ((fun _ => Inf) <$> g); pred := (fun _ => None) <$> g;
              visited := ∅; queue := [mkQEntry s (Fin 0)] |}.
Proof.
  split; simpl.
  - intros v q. rewrite lookup_insert_Some, lookup_fmap.
    intros [[<- [= <-]]|[_ H]]; [constructor|].
    apply fmap_Some in H as (? & _ & H). discriminate H.
  - intros v u. rewrite lookup_fmap. intros H.
    apply fmap_Some in H as (? & _ & H). discriminate H.
Qed.

(** Every finite distance [dijkstra] returns is the total weight of a walk
    from the source along the adjacency lists, and every node [v] with a
    predecessor [u] is the [neighborId] of an edge in the list of [u]. *)
Theorem dijkstra_walks fuel g s o :
  dijkstra fuel g s = Some o ->
  (forall v q, distances o !! v = Some (Fin q) -> walk g s v q) /\
  (forall v u, predecessors o !! v = Some (Some u) ->
     exists adj e, g !! u = Some adj /\ e ∈ adj /\ neighborId e = v).
Proof.
  unfold dijkstra. destruct (dloop _ _ _) as [st|] eqn:Hrun; [|discriminate].
  intros [= <-]. exact (dloop_winv _ _ _ _ _ (init_winv g s) Hrun).
Qed.

(** The output of [dijkstra] on the graph [DijkstraProofs.diamond] from
    ["A"]. *)
Definition diamond_result : DijkstraOutput :=
  mkDOut {[ "A"%string := Fin 0; "B"%string := Fin 2; "C"%string := Fin 1 ]}
         {[ "A"%string := None; "B"%string := Some "C"%string; "C"%string := Some "A"%string ]}.

Lemma dijkstra_walks_witness :
  dijkstra 20 DijkstraProofs.diamond "A" = Some diamond_result /\
  walk DijkstraProofs.diamond "A" "B" 2.
Proof.
  assert (E : dijkstra 20 DijkstraProofs.diamond "A" = Some diamond_result)
    by (vm_compute; reflexivity).
  split; [exact E|].
  apply (proj1 (dijkstra_walks 20 DijkstraProofs.diamond "A" diamond_result E)).
  vm_compute. reflexivity.
Defined.

(** No edge of the graph has a negative weight. *)
Definition nonneg_weights (g : Graph) : Prop :=
  forall u adj e, g !! u = Some adj -> e ∈ adj -> (0 <= weight e)%Q.

Lemma walk_nonneg g s v q : nonneg_weights g -> walk g s v q -> (0 <= q)%Q.
Proof.
  intros Hw W. induction W as [|u q adj e W IH Hg He]; [apply Qle_refl|].
  pose proof (Qplus_le_compat _ _ _ _ IH (Hw _ _ _ Hg He)) as H.
  rewrite Qplus_0_l in H. exact H.
Qed.

Lemma relax_start g s cur adj st e :
  nonneg_weights g -> g !! cur = Some adj -> winv g s st -> dist st !! s = Some (Fin 0) ->
  e ∈ adj -> dist (relax cur st e) !! s = Some (Fin 0).
Proof.
  intros Hnn Hg [Hd _] Hs He. unfold relax.
  destruct (dist st !! cur) as [[c| |]|] eqn:Ec; cbn [default id num_plus num_add_q];
    [|exact Hs..].
  destruct (num_lt (Fin (c + weight e)) _) eqn:Hlt; [|exact Hs]. simpl.
  rewrite lookup_insert_ne; [exact Hs|]. intros Hn. rewrite Hn, Hs in Hlt. simpl in Hlt.
  assert (H0 : (0 <= c + weight e)%Q).
  { pose proof (Qplus_le_compat _ _ _ _ (walk_nonneg _ _ _ _ Hnn (Hd _ _ Ec)) (Hnn _ _ _ Hg He))
      as H. rewrite Qplus_0_l in H. exact H. }
  apply Qle_bool_iff in H0. rewrite H0 in Hlt. discriminate.
Qed.

Definition sinv (g : Graph) (s : string) (st : DState) : Prop :=
  winv g s st /\ dist st !! s = Some (Fin 0).

Lemma dloop_sinv fuel g s st st' :
  nonneg_weights g -> sinv g s st -> dloop fuel g st = Some st' -> sinv g s st'.
Proof.
  intros Hnn. revert st. induction fuel as [|f IH]; intros st [Hw Hs]; simpl; [discriminate|].
  destruct (queue st); [intros [= <-]; split; done|]. apply IH. split; [apply dstep_winv, Hw|].
  unfold dstep. destruct (sort_queue (queue st)) as [|e rest]; [done|].
  simpl. destruct (decide (qnode e ∈ visited st)); [exact Hs|].
  destruct (g !! qnode e) as [adj|] eqn:Hg; [|exact Hs].
  set (st1 := {| dist := dist st; pred := pred st;
                 visited := {[qnode e]} ∪ visited st; queue := rest |}).
  assert (Hgen : forall l st, (forall x, x ∈ l -> x ∈ adj) -> winv g s st ->
            dist st !! s = Some (Fin 0) -> dist (fold_left (relax (qnode e)) l st) !! s = Some (Fin 0)).
  { intros l0. induction l0 as [|x l0 IHl]; intros st2 Hl Hw' Hs'; cbn [fold_left]; [exact Hs'|].
    apply IHl; [intros y Hy; apply Hl; set_solver| |].
    - eapply relax_winv; [exact Hg|apply Hl; set_solver|exact Hw'].
    - eapply relax_start; [exact Hnn|exact Hg|exact Hw'|exact Hs'|apply Hl; set_solver]. }
  apply (Hgen adj st1); [done|exact Hw|exact Hs].
Qed.

(** With no negative edge weight, [dijkstra] reports distance [0] for the
    source, and every finite distance it reports is non-negative. *)
Theorem dijkstra_source_zero fuel g s o :
  nonneg_weights g -> dijkstra fuel g s = Some o ->
  distances o !! s = Some (Fin 0) /\
  forall v q, distances o !! v = Some (Fin q) -> (0 <= q)%Q.
Proof.
  intros Hnn. unfold dijkstra. destruct (dloop _ _ _) as [st|] eqn:Hrun; [|discriminate].
  intros [= <-]. simpl.
  destruct (dloop_sinv _ _ _ _ _ Hnn (conj (init_winv g s) (lookup_insert_eq _ _ _)) Hrun)
    as [[Hd _] Hs].
  split; [exact Hs|]. intros v q Hv. exact (walk_nonneg _ _ _ _ Hnn (Hd _ _ Hv)).
Qed.

Lemma dijkstra_source_zero_witness :
  nonneg_weights DijkstraProofs.diamond /\
  dijkstra 20 DijkstraProofs.diamond "A" = Some diamond_result /\
  distances diamond_result !! "A"%string = Some (Fin 0).
Proof.
  assert (Hb : map_Forall (fun _ adj => Forall (fun e => Qle_bool 0 (weight e) = true) adj)
                 DijkstraProofs.diamond)
    by (apply (bool_decide_unpack _); vm_compute; reflexivity).
  assert (Hn : nonneg_weights DijkstraProofs.diamond).
  { intros u adj e Hg He. apply Qle_bool_iff.
    pose proof (Hb u adj Hg) as Hf. rewrite Forall_forall in Hf. exact (Hf e He). }
  assert (E : dijkstra 20 DijkstraProofs.diamond "A" = Some diamond_result)
    by (vm_compute; reflexivity).
  split; [exact Hn|]. split; [exact E|].
  exact (proj1 (dijkstra_source_zero 20 DijkstraProofs.diamond "A" diamond_result Hn E)).
Defined.

End DijkstraWalks.


Module UnionFindExtra.
Import UnionFind.

(** Path compression: when [find] returns the root [r] of [x], the object
    afterwards has [parent[x] = r] and [parent[r] = r], so a second [find]
    of [x] reaches the root in one step. *)
Theorem find_compresses f uf x r uf' :
  find f uf x = Some (r, uf') ->
  parent uf' !! x = Some r /\ parent uf' !! r = Some r.
Proof.
  revert uf x r uf'. induction f as [|f IH]; intros uf x r uf' Hf; [done|].
  simpl in Hf. destruct (parent uf !! x) as [p|] eqn:Hx.
  - destruct (String.eqb_spec p x) as [->|Hpx].
    + injection Hf as <- <-. done.
    + destruct (find f uf p) as [[r1 uf1]|] eqn:Hf1; [|done].
      injection Hf as <- <-. simpl.
      destruct (IH _ _ _ _ Hf1) as [_ Hr1].
      rewrite lookup_insert_eq. split; [done|].
      destruct (decide (x = r1)) as [->|Hne].
      * by rewrite lookup_insert_eq.
      * by rewrite lookup_insert_ne by congruence.
  - injection Hf as <- <-. simpl. by rewrite lookup_insert_eq.
Qed.

(** A chain [a -> b -> c] with [c] its own root. *)
Definition chain : UF :=
  mkUF (<["a" := "b"]> (<["b" := "c"]> {["c" := "c"]}))
       (<["a" := 0]> (<["b" := 1]> {["c" := 2]})).

Lemma find_compresses_witness :
  find 5 chain "a" = Some ("c", mkUF (<["a" := "c"]> (<["b" := "c"]> (parent chain))) (rank chain)) /\
  (<["a" := "c"]> (<["b" := "c"]> (parent chain)) : gmap string string) !! "a" = Some "c".
Proof.
  assert (E : find 5 chain "a" =
    Some ("c", mkUF (<["a" := "c"]> (<["b" := "c"]> (parent chain))) (rank chain)))
    by reflexivity.
  split; [exact E|].
  exact (proj1 (find_compresses 5 chain "a" "c" _ E)).
Defined.

End UnionFindExtra.


Module HungarianOrder.
Import Hungarian HungarianProofs.

Lemma stars_list_rows_sorted ms m nc :
  StronglySorted le (map driver (stars_list ms m nc)).
Proof.
  unfold stars_list.
  set (blk := fun i => map (fun j => mkAssignment i j)
                (List.filter (fun j => mget 0 ms i j =? 1) (seq 0 nc))).
  enough (H : forall s, StronglySorted le (map driver (flat_map blk (seq s m)))) by apply H.
  induction m as [|m IH]; intros s; simpl; [constructor|].
  rewrite map_app. apply StronglySorted_app_2; [|clear IH|apply IH].
  - intros x1 x2 H1 H2.
    apply list_elem_of_In, in_map_iff in H1 as (a1 & <- & H1).
    apply in_map_iff in H1 as (j1 & <- & _).
    apply list_elem_of_In, in_map_iff in H2 as (a2 & <- & H2).
    apply in_flat_map in H2 as (i2 & Hi2%in_seq & H2).
    apply in_map_iff in H2 as (j2 & <- & _). simpl. lia.
  - unfold blk. induction (List.filter (fun j => mget 0 ms s j =? 1) (seq 0 nc)) as [|j l IHl];
      simpl; constructor; [done|].
    apply Forall_forall. intros x Hx.
    apply list_elem_of_In, in_map_iff in Hx as (a & <- & Ha).
    apply in_map_iff in Ha as (j' & <- & _). done.
Qed.

Lemma StronglySorted_lt_of_le (l : list nat) :
  StronglySorted le l -> List.NoDup l -> StronglySorted lt l.
Proof.
  induction 1 as [|x l _ IH Hx]; intros Hnd; constructor.
  - apply IH. by inversion Hnd.
  - inversion Hnd as [|? ? Hn _]; subst.
    apply Forall_forall. intros y Hy. rewrite Forall_forall in Hx.
    specialize (Hx y Hy). assert (x <> y) by (intros ->; apply Hn, list_elem_of_In, Hy). lia.
Qed.

Lemma seq_sorted s n : StronglySorted lt (seq s n).
Proof.
  revert s; induction n as [|n IH]; intros s; simpl; constructor; [apply IH|].
  apply Forall_forall. intros y Hy%list_elem_of_In%in_seq. lia.
Qed.

(** [hungarian] lists its assignments by increasing driver index (it reads
    the stars row by row); when there are no more drivers than passengers
    the drivers are exactly [0, 1, ..., m - 1] in this order, and when
    there are no more passengers than drivers every passenger is
    assigned. *)
Theorem hungarian_assignment_order cm fuel out :
  rectangular cm -> hungarian fuel cm = Some out ->
  StronglySorted lt (map driver (assignments out)) /\
  (length cm <= cols0 cm -> map driver (assignments out) = seq 0 (length cm)) /\
  (cols0 cm <= length cm -> map passenger (assignments out) ≡ₚ seq 0 (cols0 cm)).
Proof.
  intros Hr E.
  destruct (hungarian_output cm fuel out Hr E) as (Hl & Hnd1 & Hnd2 & Hb & _).
  assert (Hs : StronglySorted lt (map driver (assignments out))).
  { apply StronglySorted_lt_of_le; [|exact Hnd1].
    unfold hungarian in E. destruct (run _ _ _) as [st|]; [|done].
    injection E as <-. rewrite extract_eq. apply stars_list_rows_sorted. }
  split; [exact Hs|]. split.
  - intros Hm. apply (StronglySorted_unique_strong lt); [intros; lia|exact Hs|apply seq_sorted|].
    apply NoDup_Permutation_bis.
    + exact Hnd1.
    + rewrite length_seq, length_map, Hl. lia.
    + intros x (a & <- & Ha)%in_map_iff.
      apply in_seq. specialize (Hb a Ha). lia.
  - intros Hm. apply NoDup_Permutation_bis.
    + exact Hnd2.
    + rewrite length_seq, length_map, Hl. lia.
    + intros x (a & <- & Ha)%in_map_iff.
      apply in_seq. specialize (Hb a Ha). lia.
Qed.

Lemma hungarian_assignment_order_witness :
  hungarian 100 [[4; 1; 3]; [2; 0; 5]]%Q =
    Some (mkOutput [mkAssignment 0 1; mkAssignment 1 0] 3%Q) /\
  map driver [mkAssignment 0 1; mkAssignment 1 0] = seq 0 2.
Proof.
  assert (E : hungarian 100 [[4; 1; 3]; [2; 0; 5]]%Q =
                Some (mkOutput [mkAssignment 0 1; mkAssignment 1 0] 3%Q))
    by (vm_compute; reflexivity).
  split; [exact E|].
  refine (proj1 (proj2 (hungarian_assignment_order _ _ _ _ E)) _).
  - intros r Hr. simpl in Hr. destruct Hr as [<-|[<-|[]]]; reflexivity.
  - simpl. lia.
Defined.

End HungarianOrder.


(* ------------------------------------------------------------------ *)
(** ** The graph hook ([useGraph.ts]) *)

Module UseGraph.
Import Geometry Kruskal.

Section Hook.
Context `{JSMath}.
Local Open Scope Q_scope.

(** The hook's own [haversineDistance]. *)
Definition haversineDistance (lat1 lon1 lat2 lon2 : Q) : Q :=
  let R := 6371 in
  let dLat := (lat2 - lat1) * (Math_PI / 180) in
  let dLon := (lon2 - lon1) * (Math_PI / 180) in
  let a := Math_sin (dLat / 2) * Math_sin (dLat / 2) +
           Math_cos (lat1 * (Math_PI / 180)) * Math_cos (lat2 * (Math_PI / 180)) *
           Math_sin (dLon / 2) * Math_sin (dLon / 2) in
  let c := 2 * Math_atan2 (Math_sqrt a) (Math_sqrt (1 - a)) in
  R * c.

Definition KM_TO_MINUTES_FACTOR : Q := 2.

Definition distanceToTime (distanceInKm : Q) : Q := distanceInKm * KM_TO_MINUTES_FACTOR.

(** The part of [UseGraphResult] that [setResult] stores. *)
Record GraphResult := mkResult {
  costMatrix : list (list Q);
  assignments : list Pair;
  totalNaiveTime : Q;
  totalAssignedTime : Q;
  mstEdges : list Edge;
  totalMSTWeight : Q }.

(** What a call of [run] does: return at once without touching the state,
    stop without a result ([hungarian] or [kruskal] not returned within
    their fuel, or a [TypeError]), or store a result. *)
Inductive RunOutcome := Skipped | NoResult | Updated (r : GraphResult).

(** Step 1: [drivers.map(driver => passengers.map(...))]. *)
Definition hookCostMatrix (drivers passengers : list Node) : list (list Q) :=
  map (fun driver => map (fun passenger =>
    distanceToTime (haversineDistance (lat driver) (lng driver)
                      (lat passenger) (lng passenger))) passengers) drivers.

(** Step 2: the loop over [i < naiveCount]; every [costMatrix[i][i]] read
    there is inside the matrix. *)
Definition naiveTotal (drivers passengers : list Node) (costMatrix : list (list Q)) : Q :=
  let naiveCount := Nat.min (length drivers) (length passengers) in
  fold_left (fun totalNaiveTime i => totalNaiveTime + nth i (nth i costMatrix []) 0)
    (seq 0 naiveCount) 0.

(** Step 3: [{ driverId: drivers[driver].id, ... }]; an index outside
    [drivers] or [passengers] reads [undefined.id], a [TypeError]. *)
Definition assignment_of (drivers passengers : list Node) (costMatrix : list (list Q))
    (a : Hungarian.Assignment) : option Pair :=
  match nth_error drivers (Hungarian.driver a), nth_error passengers (Hungarian.passenger a) with
  | Some d, Some p =>
      Some (mkPair (id d) (id p)
              (nth (Hungarian.passenger a) (nth (Hungarian.driver a) costMatrix []) 0))
  | _, _ => None
  end.

(** Step 4: the nested loops over [i < j] pushing onto [allEdges]. *)
Definition allEdges (allNodes : list Node) : list Edge :=
  flat_map (fun i =>
    map (fun j =>
      let u := node_at allNodes i in
      let v := node_at allNodes j in
      mkEdge (id u) (id v) (distanceToTime (haversineDistance (lat u) (lng u) (lat v) (lng v))))
      (seq (S i) (length allNodes - S i)))
    (seq 0 (length allNodes)).

(** [run]: [hfuel] and [kfuel] are the fuels of [hungarian] and [kruskal];
    the arrays [allNodeIds] and [allEdges] are allocated at fresh locations
    of the heap [h] that [kruskal] reads. *)
Definition run (hfuel kfuel : nat) (h : Heap) (drivers passengers : list Node) : RunOutcome :=
  if (length drivers =? 0)%nat || (length passengers =? 0)%nat then Skipped else
  let costMatrix := hookCostMatrix drivers passengers in
  let totalNaiveTime := naiveTotal drivers passengers costMatrix in
  match Hungarian.hungarian hfuel costMatrix with
  | None => NoResult
  | Some out =>
      match mapM (assignment_of drivers passengers costMatrix) (Hungarian.assignments out) with
      | None => NoResult
      | Some assignments =>
          let allNodes := drivers ++ passengers in
          let allNodeIds := map id allNodes in
          let pn := fresh (dom (strArrays h)) in
          let pe := fresh (dom (edgeArrays h)) in
          let h1 := mkHeap (<[pn := allNodeIds]> (strArrays h))
                           (<[pe := allEdges allNodes]> (edgeArrays h)) in
          match kruskal kfuel h1 pn pe with
          | None => NoResult
          | Some (o, h2) =>
              match edgeArrays h2 !! Kruskal.mstEdges o with
              | None => NoResult
              | Some mst =>
                  Updated (mkResult costMatrix assignments totalNaiveTime
                             (Hungarian.totalCost out) mst (totalWeight o))
              end
          end
      end
  end.

End Hook.

End UseGraph.


Module UseGraphProofs.
Import Geometry Kruskal UseGraph.

Section WithMath.
Context `{JSMath}.

Lemma hook_matrix_eq drivers passengers :
  hookCostMatrix drivers passengers =
  matrix (buildCostMatrix drivers passengers (mkOptions (Some haversine) None)).
Proof. rewrite GeometryProofs.buildCostMatrix_eq. reflexivity. Qed.

Lemma hook_rect drivers passengers :
  HungarianProofs.rectangular (hookCostMatrix drivers passengers) /\
  (drivers <> [] -> Hungarian.cols0 (hookCostMatrix drivers passengers) = length passengers).
Proof.
  unfold hookCostMatrix. split.
  - intros r Hr. apply in_map_iff in Hr as (d & <- & Hd).
    destruct drivers as [|d0 ds]; [done|]. simpl. by rewrite !length_map.
  - destruct drivers as [|d0 ds]; [done|]. intros _. simpl. by rewrite length_map.
Qed.

Lemma hook_run_inv hf kf h drivers passengers r :
  run hf kf h drivers passengers = Updated r ->
  drivers <> [] /\ passengers <> [] /\
  costMatrix r = hookCostMatrix drivers passengers /\
  totalNaiveTime r = naiveTotal drivers passengers (hookCostMatrix drivers passengers) /\
  exists out o h2,
    Hungarian.hungarian hf (hookCostMatrix drivers passengers) = Some out /\
    mapM (assignment_of drivers passengers (hookCostMatrix drivers passengers))
      (Hungarian.assignments out) = Some (assignments r) /\
    totalAssignedTime r = Hungarian.totalCost out /\
    kruskal kf (mkHeap (<[fresh (dom (strArrays h)) := map id (drivers ++ passengers)]> (strArrays h))
                  (<[fresh (dom (edgeArrays h)) := allEdges (drivers ++ passengers)]> (edgeArrays h)))
      (fresh (dom (strArrays h))) (fresh (dom (edgeArrays h))) = Some (o, h2) /\
    edgeArrays h2 !! Kruskal.mstEdges o = Some (mstEdges r) /\
    totalMSTWeight r = totalWeight o.
Proof.
  unfold run. intros Hr.
  destruct (length drivers =? 0)%nat eqn:E1; [discriminate Hr|].
  destruct (length passengers =? 0)%nat eqn:E2; [discriminate Hr|].
  apply Nat.eqb_neq in E1, E2.
  split; [intros ->; done|]. split; [intros ->; done|]. simpl in Hr.
  destruct (Hungarian.hungarian hf _) as [out|] eqn:Eh; [|discriminate Hr].
  destruct (mapM _ _) as [asg|] eqn:Em; [|discriminate Hr].
  destruct (kruskal kf _ _ _) as [[o h2]|] eqn:Ek; [|discriminate Hr].
  destruct (edgeArrays h2 !! _) as [mst|] eqn:Emst; [|discriminate Hr].
  injection Hr as <-. simpl. split; [done|]. split; [done|].
  exists out, o, h2. done.
Qed.

Lemma fold_left_map_in {A B C} (f : C -> B -> C) (g : A -> B) l c :
  fold_left f (map g l) c = fold_left (fun acc x => f acc (g x)) l c.
Proof. revert c; induction l as [|x l IH]; intros c; simpl; [done|apply IH]. Qed.

Lemma assignment_of_Some drivers passengers cm a p :
  assignment_of drivers passengers cm a = Some p ->
  Hungarian.driver a < length drivers /\ Hungarian.passenger a < length passengers /\
  p = mkPair (id (node_at drivers (Hungarian.driver a)))
             (id (node_at passengers (Hungarian.passenger a)))
             (nth (Hungarian.passenger a) (nth (Hungarian.driver a) cm []) 0%Q).
Proof.
  unfold assignment_of, node_at.
  destruct (nth_error drivers _) as [d|] eqn:Ed; [|done].
  destruct (nth_error passengers _) as [q|] eqn:Eq; [|done].
  intros [= <-]. split; [apply nth_error_Some; congruence|].
  split; [apply nth_error_Some; congruence|].
  by rewrite (nth_error_nth _ _ _ Ed), (nth_error_nth _ _ _ Eq).
Qed.

Lemma mapM_assignments drivers passengers cm A P :
  mapM (assignment_of drivers passengers cm) A = Some P ->
  (forall a, In a A -> Hungarian.driver a < length drivers /\
                       Hungarian.passenger a < length passengers) /\
  P = map (fun a => mkPair (id (node_at drivers (Hungarian.driver a)))
                           (id (node_at passengers (Hungarian.passenger a)))
                           (nth (Hungarian.passenger a) (nth (Hungarian.driver a) cm []) 0%Q)) A.
Proof.
  intros Hm. apply mapM_Some_1 in Hm. induction Hm as [|a p A P Hap _ IH]; [done|].
  destruct IH as [IHb ->]. apply assignment_of_Some in Hap as (Hd & Hp & ->).
  split; [|done]. intros b [<-|Hb]; auto.
Qed.

(** The cost matrix and the naive total that [run] stores are the matrix
    of [buildCostMatrix] and the total of [sumNaiveAssignments] for the
    same nodes with the haversine method and the default [timePerKm] of
    [2]: the hook's own helpers compute the same numbers. *)
Theorem run_matches_graphUtils hf kf h drivers passengers r :
  run hf kf h drivers passengers = Updated r ->
  costMatrix r = matrix (buildCostMatrix drivers passengers (mkOptions (Some haversine) None)) /\
  totalNaiveTime r = sumNaiveAssignments drivers passengers (Some haversine).
Proof.
  intros Hr. destruct (hook_run_inv _ _ _ _ _ _ Hr) as (_ & _ & Hcm & Hn & _).
  rewrite Hcm, Hn. split; [apply hook_matrix_eq|].
  unfold naiveTotal, sumNaiveAssignments, hookCostMatrix.
  apply HungarianProofs.fold_left_ext_in. intros acc i Hi%in_seq.
  unfold node_at.
  rewrite (GeometryProofs.nth_map_in _ _ _ _ (mkNode "" 0 0)) by lia.
  rewrite (GeometryProofs.nth_map_in _ _ _ _ (mkNode "" 0 0)) by lia. reflexivity.
Qed.

(** The assignments that [run] stores: [min(drivers, passengers)] of them,
    no driver index and no passenger index twice, each made of the ids of
    its driver and passenger and the matrix entry at its cell, and
    [totalAssignedTime] is the sum of their costs. *)
Theorem run_assignments hf kf h drivers passengers r :
  run hf kf h drivers passengers = Updated r ->
  length (assignments r) = Nat.min (length drivers) (length passengers) /\
  (exists L : list (nat * nat),
     NoDup (map fst L) /\ NoDup (map snd L) /\
     (forall i j, In (i, j) L -> i < length drivers /\ j < length passengers) /\
     assignments r =
       map (fun '(i, j) => mkPair (id (node_at drivers i)) (id (node_at passengers j))
                                  (nth j (nth i (costMatrix r) []) 0%Q)) L) /\
  totalAssignedTime r = fold_left (fun acc a => acc + cost a)%Q (assignments r) 0%Q.
Proof.
  intros Hr.
  destruct (hook_run_inv _ _ _ _ _ _ Hr) as (Hd & _ & Hcm & _ & out & o & h2 & Eh & Em & Ht & _).
  destruct (hook_rect drivers passengers) as [Hrect Hc].
  destruct (HungarianProofs.hungarian_output _ _ _ Hrect Eh) as (Hl & Hnd1 & Hnd2 & _ & Htot).
  destruct (mapM_assignments _ _ _ _ _ Em) as [Hb ->].
  rewrite Hcm. split.
  { rewrite length_map, Hl, Hc by done. unfold hookCostMatrix. by rewrite length_map. }
  split.
  - exists (map (fun a => (Hungarian.driver a, Hungarian.passenger a)) (Hungarian.assignments out)).
    rewrite !map_map. split; [apply NoDup_ListNoDup, Hnd1|]. split; [apply NoDup_ListNoDup, Hnd2|]. split.
    + intros i j (a & [= <- <-] & Ha)%in_map_iff. auto.
    + apply map_ext. intros a. reflexivity.
  - rewrite Ht, Htot, fold_left_map_in. reflexivity.
Qed.
Lemma node_index (N : list Node) x :
  x ∈ map id N -> exists i, i < length N /\ x = id (node_at N i).
Proof.
  intros Hx. apply list_elem_of_In, in_map_iff in Hx as (n & <- & Hn).
  destruct (In_nth N n (mkNode "" 0 0) Hn) as (i & Hi & E).
  exists i. unfold node_at. by rewrite E.
Qed.

Lemma allEdges_ends N e :
  e ∈ allEdges N -> u e ∈ map id N /\ v e ∈ map id N.
Proof.
  intros He. apply list_elem_of_In, in_flat_map in He as (i & Hi%in_seq & He).
  apply in_map_iff in He as (j & <- & Hj%in_seq). simpl.
  unfold node_at. rewrite !list_elem_of_In.
  split; apply in_map, nth_In; lia.
Qed.

Lemma allEdges_pair N i j :
  i < j < length N -> (id (node_at N i), id (node_at N j)) ∈ Kruskal.pairs (allEdges N).
Proof.
  intros Hij. unfold Kruskal.pairs. apply list_elem_of_In, in_map_iff.
  set (a := node_at N i). set (b := node_at N j).
  exists (mkEdge (id a) (id b)
            (distanceToTime (haversineDistance (lat a) (lng a) (lat b) (lng b)))).
  split; [reflexivity|]. apply in_flat_map. exists i. split; [apply in_seq; lia|].
  apply in_map_iff. exists j. split; [reflexivity|apply in_seq; lia].
Qed.

Lemma allEdges_conn N x y :
  x ∈ map id N -> y ∈ map id N -> lconn (Kruskal.pairs (allEdges N)) x y.
Proof.
  intros (i & Hi & ->)%node_index (j & Hj & ->)%node_index.
  destruct (lt_eq_lt_dec i j) as [[Hl| ->]|Hl].
  - apply ConnProofs.lconn_pair, allEdges_pair. lia.
  - apply ConnProofs.lconn_refl.
  - apply ConnProofs.lconn_sym, ConnProofs.lconn_pair, allEdges_pair. lia.
Qed.

(** When the ids of all the nodes are distinct, the [mstEdges] that [run]
    stores are a spanning tree of the complete graph [allEdges] on the
    drivers and passengers: edges taken from [allEdges], no cycle, every
    two ids connected through them, one edge fewer than there are nodes,
    and [totalMSTWeight] is their total weight. *)
Theorem run_spanning_tree hf kf h drivers passengers r :
  NoDup (map id (drivers ++ passengers)) ->
  run hf kf h drivers passengers = Updated r ->
  mstEdges r ⊆+ allEdges (drivers ++ passengers) /\
  KruskalProofs.forest (mstEdges r) /\
  (totalMSTWeight r == sum_weights (mstEdges r))%Q /\
  (forall x y, x ∈ map id (drivers ++ passengers) -> y ∈ map id (drivers ++ passengers) ->
     lconn (Kruskal.pairs (mstEdges r)) x y) /\
  length (mstEdges r) + 1 = length drivers + length passengers.
Proof.
  intros Hnd Hr.
  destruct (hook_run_inv _ _ _ _ _ _ Hr)
    as (Hd & _ & _ & _ & out & o & h2 & _ & _ & _ & Ek & Emst & Htw).
  set (N := drivers ++ passengers) in *.
  edestruct (KruskalProofs.kruskal_spec _ _ _ _ _ _ (allEdges N) (map id N)
               (lookup_insert_eq _ _ _) (lookup_insert_eq _ _ _) Ek)
    as (_ & _ & _ & A & HA & HmA & Ht).
  rewrite Emst in HmA. injection HmA as HmA. subst A. rewrite Htw.
  set (es := allEdges N) in *. set (S := sort_edges es) in *.
  assert (HS : S ≡ₚ es) by apply KruskalProofs.sort_edges_perm.
  assert (HSs : StronglySorted KruskalProofs.wle S).
  { apply Sorted_StronglySorted; [intros ???; apply Qle_trans|apply KruskalProofs.sort_edges_sorted]. }
  assert (HAS : mstEdges r `sublist_of` S) by (by eapply KruskalProofs.kacc_sublist).
  assert (HAes : mstEdges r ⊆+ es) by (rewrite <- HS; by apply sublist_submseteq).
  assert (HAf : KruskalProofs.forest (mstEdges r)) by exact (KruskalProofs.kacc_forest _ _ _ HA).
  assert (Hconn : forall x y, lconn (Kruskal.pairs (mstEdges r)) x y <->
                              lconn (Kruskal.pairs es) x y).
  { intros x y. pose proof (KruskalProofs.kacc_conn _ _ _ (fun _ => true) HA) as Hc.
    rewrite !KruskalProofs.filter_true_id in Hc. simpl in Hc. rewrite <- Hc.
    - apply KruskalProofs.lconn_same, KruskalProofs.pairs_perm, HS.
    - eapply KruskalProofs.StronglySorted_weaken; [|exact HSs]. done. }
  assert (Hall : forall x y, x ∈ map id N -> y ∈ map id N ->
                   lconn (Kruskal.pairs (mstEdges r)) x y).
  { intros x y Hx Hy. apply Hconn, allEdges_conn; done. }
  split; [done|]. split; [done|]. split; [done|]. split; [done|].
  destruct drivers as [|d0 ds]; [done|].
  assert (Hx0 : id d0 ∈ map id N) by (simpl; apply list_elem_of_here).
  pose proof (KruskalProofs.forest_count (map id N) (mstEdges r) [id d0] Hnd HAf) as Hc.
  rewrite length_map in Hc. unfold N in Hc. rewrite length_app in Hc. simpl length in Hc |- *.
  apply Hc.
  - intros e He. apply allEdges_ends. by eapply elem_of_submseteq.
  - split; [by apply NoDup_singleton|]. split; [set_solver|]. split.
    + intros x Hx. exists (id d0). split; [set_solver|]. by apply Hall.
    + intros r1 r2 H1 H2 _. set_solver.
Qed.
(** For nonempty [drivers] and [passengers], [run] stores a result: with
    enough fuel [hungarian] and [kruskal] return, and no assignment reads
    outside [drivers] or [passengers]. *)
Theorem run_returns h drivers passengers :
  drivers <> [] -> passengers <> [] ->
  exists hf kf r, run hf kf h drivers passengers = Updated r.
Proof.
  intros Hd Hp. destruct (hook_rect drivers passengers) as [Hrect Hc].
  destruct (HungarianProofs.hungarian_total _ _ Hrect (le_n _)) as [out Eh].
  destruct (HungarianProofs.hungarian_output _ _ _ Hrect Eh) as (_ & _ & _ & Hb & _).
  assert (Hl : length (hookCostMatrix drivers passengers) = length drivers)
    by (unfold hookCostMatrix; apply length_map).
  assert (Em : is_Some (mapM (assignment_of drivers passengers (hookCostMatrix drivers passengers))
                          (Hungarian.assignments out))).
  { apply mapM_is_Some_2, Forall_forall. intros a Ha%list_elem_of_In.
    destruct (Hb a Ha) as [H1 H2]. rewrite (Hc Hd) in H2. rewrite Hl in H1.
    change (is_Some (assignment_of drivers passengers (hookCostMatrix drivers passengers) a)).
    unfold assignment_of.
    destruct (nth_error drivers (Hungarian.driver a)) eqn:E1; [|apply nth_error_None in E1; lia].
    destruct (nth_error passengers (Hungarian.passenger a)) eqn:E2; [|apply nth_error_None in E2; lia]. by eexists. }
  destruct Em as [asg Em].
  destruct (KruskalProofs.kruskal_total
              (mkHeap (<[fresh (dom (strArrays h)) := map id (drivers ++ passengers)]> (strArrays h))
                 (<[fresh (dom (edgeArrays h)) := allEdges (drivers ++ passengers)]> (edgeArrays h)))
              _ _ _ _ (lookup_insert_eq _ _ _) (lookup_insert_eq _ _ _)) as (o & h2 & Ek).
  destruct (KruskalProofs.kruskal_spec _ _ _ _ _ _ _ _
              (lookup_insert_eq _ _ _) (lookup_insert_eq _ _ _) Ek) as (_ & _ & _ & A & _ & HmA & _).
  do 3 eexists. unfold run.
  rewrite (proj2 (Nat.eqb_neq (length drivers) 0)) by (intros E%length_zero_iff_nil; done).
  rewrite (proj2 (Nat.eqb_neq (length passengers) 0)) by (intros E%length_zero_iff_nil; done).
  simpl orb. cbv zeta. rewrite Eh, Em, Ek, HmA. reflexivity.
Qed.

End WithMath.

(** A [Math] on which the haversine formula reduces to a flat distance
    ([sin] the identity, [cos] constant [1], [atan2(y, x) = y], [PI = 180],
    and the integer square root of the floor), to run the hook on concrete
    nodes. *)
Definition flat_math : JSMath := {|
  Math_sqrt q := inject_Z (Z.sqrt (Qnum q / Zpos (Qden q)));
  Math_sin x := x; Math_cos _ := 1%Q; Math_atan2 y _ := y; Math_PI := 180%Q |}.

#[local] Existing Instance flat_math.

Definition demo_drivers : list Node := [mkNode "d1" 0 0; mkNode "d2" 0 8].
Definition demo_passengers : list Node := [mkNode "p1" 0 6; mkNode "p2" 0 2].
Definition demo_heap : Heap := mkHeap ∅ ∅.

Lemma run_returns_witness :
  exists hf kf r, run hf kf demo_heap demo_drivers demo_passengers = Updated r.
Proof. apply run_returns; discriminate. Defined.

Lemma run_matches_graphUtils_witness :
  exists r, run 100 10 demo_heap demo_drivers demo_passengers = Updated r /\
    totalNaiveTime r = sumNaiveAssignments demo_drivers demo_passengers (Some haversine).
Proof.
  destruct (run 100 10 demo_heap demo_drivers demo_passengers) as [| |r] eqn:E;
    [vm_compute in E; discriminate|vm_compute in E; discriminate|].
  exists r. split; [reflexivity|]. exact (proj2 (run_matches_graphUtils _ _ _ _ _ _ E)).
Defined.

Lemma run_assignments_witness :
  exists r, run 100 10 demo_heap demo_drivers demo_passengers = Updated r /\
    length (assignments r) = 2.
Proof.
  destruct (run 100 10 demo_heap demo_drivers demo_passengers) as [| |r] eqn:E;
    [vm_compute in E; discriminate|vm_compute in E; discriminate|].
  exists r. split; [reflexivity|]. exact (proj1 (run_assignments _ _ _ _ _ _ E)).
Defined.

Lemma run_spanning_tree_witness :
  exists r, run 100 10 demo_heap demo_drivers demo_passengers = Updated r /\
    length (mstEdges r) = 3.
Proof.
  destruct (run 100 10 demo_heap demo_drivers demo_passengers) as [| |r] eqn:E;
    [vm_compute in E; discriminate|vm_compute in E; discriminate|].
  assert (Hnd : NoDup (map id (demo_drivers ++ demo_passengers)))
    by (apply (bool_decide_unpack _); vm_compute; exact I).
  exists r. split; [reflexivity|].
  pose proof (run_spanning_tree _ _ _ _ _ _ Hnd E) as (_ & _ & _ & _ & Hl).
  simpl in Hl. lia.
Defined.

End UseGraphProofs.


(* ------------------------------------------------------------------ *)
(** ** Random nodes ([randomUtils.ts]) *)

Module RandomUtils.
Import Geometry.

(** [interface Bounds] *)
Record Bounds := mkBounds { latMin : Q; latMax : Q; lngMin : Q; lngMax : Q }.

(** ['driver' | 'passenger'] *)
Inductive NodeType := NDriver | NPassenger.

Definition type_name (t : NodeType) : string :=
  match t with NDriver => "driver" | NPassenger => "passenger" end.

(** [Node & { type }] *)
Record TypedNode := mkTypedNode { tid : string; tlat : Q; tlng : Q; ttype : NodeType }.

(** [randomInRange]: [Math.random()] returns [rnd k] at its call number
    [k]; the counter is threaded through the calls. *)
Definition randomInRange (rnd : nat -> Q) (k : nat) (min max : Q) : Q * nat :=
  ((rnd k * (max - min) + min)%Q, S k).

(** The default parameter of [generateRandomNodes], the decimals of the
    source as rationals. *)
Definition default_bounds : Bounds :=
  mkBounds (1075 # 100) (1085 # 100) (7865 # 100) (7875 # 100).

(** [generateRandomNodes]: the loop over [i < count]; the fields of the
    object literal are evaluated in order, [lat] before [lng], and the id
    is the template [`${type}-${i}`]. *)
Definition generateRandomNodes (rnd : nat -> Q) (k : nat) (count : nat) (type : NodeType)
    (bounds : option Bounds) : list TypedNode * nat :=
  let b := default default_bounds bounds in
  fold_left (fun '(nodes, k) i =>
    let '(lat, k) := randomInRange rnd k (latMin b) (latMax b) in
    let '(lng, k) := randomInRange rnd k (lngMin b) (lngMax b) in
    (nodes ++ [mkTypedNode (type_name type +:+ "-" +:+ pretty i) lat lng type], k))
    (seq 0 count) ([], k).

(** [({ id, lat, lng }) => ({ id, lat, lng })] *)
Definition strip (n : TypedNode) : Node := mkNode (tid n) (tlat n) (tlng n).

(** [regenerateDriversAndPassengers]: the drivers first, then the
    passengers, with the same [bounds]. *)
Definition regenerateDriversAndPassengers (rnd : nat -> Q) (k : nat)
    (driverCount passengerCount : nat) (bounds : option Bounds)
    : (list Node * list Node) * nat :=
  let '(ds, k) := generateRandomNodes rnd k driverCount NDriver bounds in
  let '(ps, k) := generateRandomNodes rnd k passengerCount NPassenger bounds in
  ((map strip ds, map strip ps), k).

End RandomUtils.

Module RandomUtilsProofs.
Import Geometry RandomUtils.

(** The nodes of [generateRandomNodes] in closed form. *)
Definition gen_node (rnd : nat -> Q) (k : nat) (type : NodeType) (b : Bounds) (i : nat)
    : TypedNode :=
  mkTypedNode (type_name type +:+ "-" +:+ pretty i)
    (rnd (k + 2 * i)%nat * (latMax b - latMin b) + latMin b)%Q
    (rnd (S (k + 2 * i))%nat * (lngMax b - lngMin b) + lngMin b)%Q type.

Lemma generateRandomNodes_eq rnd k count type bounds :
  generateRandomNodes rnd k count type bounds =
  (map (gen_node rnd k type (default default_bounds bounds)) (seq 0 count), k + 2 * count).
Proof.
  unfold generateRandomNodes. induction count as [|n IH]; [simpl; f_equal; lia|].
  rewrite seq_S, fold_left_app, IH. simpl. rewrite map_app. simpl.
  f_equal; lia.
Qed.

Lemma name_inj (t : NodeType) (i j : nat) :
  type_name t +:+ "-" +:+ pretty i = type_name t +:+ "-" +:+ pretty j -> i = j.
Proof.
  intros E. apply (inj (String.app (type_name t))), (inj (String.app "-")) in E.
  by apply (inj pretty) in E.
Qed.

Lemma NoDup_map_inj {A B} (f : A -> B) (l : list A) :
  (forall x y, f x = f y -> x = y) -> NoDup l -> NoDup (map f l).
Proof.
  intros Hf. induction 1 as [|x l Hx _ IH]; simpl; constructor; [|done].
  intros (y & E & Hy)%list_elem_of_In%in_map_iff. apply Hf in E as ->.
  by apply Hx, list_elem_of_In.
Qed.

Lemma ids_NoDup (t : NodeType) (n : nat) :
  NoDup (map (fun i => type_name t +:+ "-" +:+ pretty i) (seq 0 n)).
Proof. apply NoDup_map_inj; [intros i j; apply name_inj|apply NoDup_seq]. Qed.

(** The ids that [regenerateDriversAndPassengers] gives:
    [driver-0], ..., [driver-(driverCount-1)] for the drivers and
    [passenger-0], ..., [passenger-(passengerCount-1)] for the passengers,
    so no id occurs twice among all the nodes; and it calls
    [Math.random()] twice per node. *)
Theorem regenerate_ids rnd k dc pc bounds :
  let '((ds, ps), k') := regenerateDriversAndPassengers rnd k dc pc bounds in
  map id ds = map (fun i => "driver-" +:+ pretty i) (seq 0 dc) /\
  map id ps = map (fun i => "passenger-" +:+ pretty i) (seq 0 pc) /\
  NoDup (map id (ds ++ ps)) /\ k' = (k + 2 * (dc + pc))%nat.
Proof.
  unfold regenerateDriversAndPassengers. rewrite !generateRandomNodes_eq.
  cbv beta iota zeta. rewrite !map_map.
  split; [reflexivity|]. split; [reflexivity|]. split; [|lia].
  rewrite map_app, !map_map. apply NoDup_app. split; [apply (ids_NoDup NDriver)|].
  split; [|apply (ids_NoDup NPassenger)].
  intros x Hx Hy. apply list_elem_of_In, in_map_iff in Hx as (i & <- & _).
  apply list_elem_of_In, in_map_iff in Hy as (j & Hj & _). simpl in Hj. discriminate Hj.
Qed.




End RandomUtilsProofs.
